(** * go-nested-set: a shallow embedding of [nested_set.go]

    The development follows the source file function by function:
    [parseNode], [Create], [MoveTo], [moveToRightOfPosition],
    [syncChildrenCount], [moveTarget], [moveAffected].

    Modelling choices.
    - Go's [int] and [int64] are 64-bit two's complement integers: a value is
      a [Z] and every arithmetic operation done by the Go code is followed by
      [wrap].  Arithmetic done inside an SQL expression ([:rgt + 2],
      [:lft + ?]) is the store's and is exact.
    - The relational store is one table, a list of rows in insertion order,
      with one scope column.  A gorm handle ([*gorm.DB]) is the list of scope
      conditions it carries; a statement is the SQL text written next to it
      in the source, read as a function on the table.
    - A statement whose text mentions a placeholder that [formatSQL] cannot
      resolve (the key is absent from [DbNames]) is sent to the store and
      fails there.
    - The id column is the primary key of the table: an INSERT with a zero id
      gets the next id, an INSERT with an id already present is refused.
    - A caller's record is the list of its struct fields, each with its
      [nestedset] tag; [parseNode] and the reflection loop of [Create] are
      folds over that list.  [Create] writes the record as it is: the
      parent_id of the new row is the one the caller put in the record. *)

From Stdlib Require Import ZArith List Bool Lia.
From stdpp Require Import base gmap strings.
Import ListNotations.
Open Scope Z_scope.

(** ** Machine integers *)

Definition wrap (z : Z) : Z := (z + 2 ^ 63) mod 2 ^ 64 - 2 ^ 63.

Definition iadd (a b : Z) : Z := wrap (a + b).
Definition isub (a b : Z) : Z := wrap (a - b).
Definition imul (a b : Z) : Z := wrap (a * b).

Definition int_range (z : Z) : Prop := - 2 ^ 63 <= z < 2 ^ 63.

(** A bound under which none of the sums and differences of the code wraps. *)
Definition small (z : Z) : Prop := - 2 ^ 60 < z < 2 ^ 60.

(** ** Data *)

(** [MoveDirection] is an [int]; the three named values. *)
Definition MoveDirection := Z.
Definition MoveDirectionLeft : MoveDirection := -1.
Definition MoveDirectionRight : MoveDirection := 1.
Definition MoveDirectionInner : MoveDirection := 0.

(** [sql.NullInt64] *)
Record NullInt64 := { Int64 : Z; Valid : bool }.

Definition null_value (n : NullInt64) : option Z :=
  if Valid n then Some (Int64 n) else None.

Record nodeItem := {
  ID : Z;
  ParentID : NullInt64;
  Depth : Z;
  Rgt : Z;
  Lft : Z;
  ChildrenCount : Z;
  TableName : string;
  DbNames : gmap string string
}.

(** A struct field of a caller's record, by its [nestedset] tag, with the
    column name gorm's schema gives it and the value it holds. *)
Inductive field :=
| field_id (dbName : string) (v : Z)
| field_parent_id (dbName : string) (v : NullInt64)
| field_depth (dbName : string) (v : Z)
| field_rgt (dbName : string) (v : Z)
| field_lft (dbName : string) (v : Z)
| field_children_count (dbName : string) (v : Z)
| field_scope (dbName : string) (v : Z)
| field_untagged (dbName : string).

(** A caller's record ([source interface{}]): whether [stmt.Parse] accepts
    it as a gorm model, the table of the model, and its fields in order. *)
Record source := {
  is_model : bool;
  table : string;
  fields : list field
}.

(** One row of the table. *)
Record row := {
  rID : Z;
  rParentID : option Z;
  rDepth : Z;
  rRgt : Z;
  rLft : Z;
  rChildrenCount : Z;
  rScope : Z
}.

Definition set_lft (v : Z) (r : row) : row :=
  {| rID := rID r; rParentID := rParentID r; rDepth := rDepth r; rRgt := rRgt r;
     rLft := v; rChildrenCount := rChildrenCount r; rScope := rScope r |}.
Definition set_rgt (v : Z) (r : row) : row :=
  {| rID := rID r; rParentID := rParentID r; rDepth := rDepth r; rRgt := v;
     rLft := rLft r; rChildrenCount := rChildrenCount r; rScope := rScope r |}.
Definition set_depth (v : Z) (r : row) : row :=
  {| rID := rID r; rParentID := rParentID r; rDepth := v; rRgt := rRgt r;
     rLft := rLft r; rChildrenCount := rChildrenCount r; rScope := rScope r |}.
Definition set_parent_id (v : option Z) (r : row) : row :=
  {| rID := rID r; rParentID := v; rDepth := rDepth r; rRgt := rRgt r;
     rLft := rLft r; rChildrenCount := rChildrenCount r; rScope := rScope r |}.
Definition set_children_count (v : Z) (r : row) : row :=
  {| rID := rID r; rParentID := rParentID r; rDepth := rDepth r; rRgt := rRgt r;
     rLft := rLft r; rChildrenCount := v; rScope := rScope r |}.
Definition set_id (v : Z) (r : row) : row :=
  {| rID := v; rParentID := rParentID r; rDepth := rDepth r; rRgt := rRgt r;
     rLft := rLft r; rChildrenCount := rChildrenCount r; rScope := rScope r |}.
Definition set_scope (v : Z) (r : row) : row :=
  {| rID := rID r; rParentID := rParentID r; rDepth := rDepth r; rRgt := rRgt r;
     rLft := rLft r; rChildrenCount := rChildrenCount r; rScope := v |}.

(** ** The store and the effects of the code *)

Inductive error :=
| MappingError      (* "Invalid source, must be a valid Gorm Model instance" *)
| StoreError.       (* any error reported by the store *)

Inductive result (A : Type) :=
| Ok (a : A)
| Err (e : error).
Arguments Ok {A} a.
Arguments Err {A} e.

(** What the store sees of an operation. *)
Inductive event :=
| EvBegin | EvCommit | EvRollback
| EvRead     (* a SELECT *)
| EvWrite.   (* an UPDATE or INSERT *)

Record store := { rows : list row; trace : list event }.

Definition M (A : Type) : Type := store -> result A * store.

Definition ret {A} (a : A) : M A := fun s => (Ok a, s).
Definition bind {A B} (m : M A) (k : A -> M B) : M B :=
  fun s => match m s with
           | (Ok a, s') => k a s'
           | (Err e, s') => (Err e, s')
           end.
Definition lift {A} (r : result A) : M A := fun s => (r, s).

Notation "x <- m ; k" := (bind m (fun x => k))
  (at level 20, m at level 100, k at level 200, only parsing).
Notation "' p <- m ; k" := (bind m (fun x => let p := x in k))
  (at level 20, p pattern, m at level 100, k at level 200, only parsing).
Notation "'do' m ; k" := (bind m (fun _ => k))
  (at level 20, m at level 100, k at level 200, only parsing).

(** The outcome of a statement, as a value: the code of [Create] inspects
    [rst.Error] instead of returning it. *)
Definition attempt {A} (m : M A) : M (result A) :=
  fun s => let (r, s') := m s in (Ok r, s').

(** [db.Transaction(func ...)]: the writes of a body that returns an error
    are undone. *)
Definition Transaction {A} (body : M A) : M A :=
  fun s =>
    let s1 := {| rows := rows s; trace := trace s ++ [EvBegin] |} in
    match body s1 with
    | (Ok a, s2) => (Ok a, {| rows := rows s2; trace := trace s2 ++ [EvCommit] |})
    | (Err e, s2) => (Err e, {| rows := rows s; trace := trace s2 ++ [EvRollback] |})
    end.

(** *** Handles *)

(** [*gorm.DB]: the scope conditions added with [Where(scope = ?)]. *)
Record DB := { scopes : list Z }.

Definition Where_scope (v : Z) (db : DB) : DB := {| scopes := scopes db ++ [v] |}.

(** [db.Table(name)] keeps the conditions of [db].  The handle [db] is one
    on which every statement starts afresh (as returned by [gorm.Open],
    [Session] or [Begin]): the conditions that [parseNode] adds go to the
    handle it returns, not to [db]. *)
Definition Table (db : DB) (name : string) : DB := db.

Definition in_scope (tx : DB) (r : row) : bool :=
  forallb (fun v => rScope r =? v) (scopes tx).

(** *** Statements *)

(** [formatSQL] resolves the placeholders [:k]; the statement is well formed
    when every key it mentions is bound. *)
Definition bound (names : gmap string string) (keys : list string) : bool :=
  forallb (fun k => match names !! k with Some _ => true | None => false end) keys.

(** A column named literally in the code ([Pluck("id", ...)]) exists when
    the schema gives that very name to the field. *)
Definition literal (names : gmap string string) (key : string) : bool :=
  match names !! key with
  | Some c => String.eqb c key
  | None => false
  end.

(** UPDATE ... SET ... WHERE scope AND cond; [ok] says that the text of the
    statement is well formed. *)
Definition update_row (tx : DB) (cond : row -> bool) (set : row -> row) (r : row) : row :=
  if in_scope tx r && cond r then set r else r.

Definition update_rows (tx : DB) (cond : row -> bool) (set : row -> row)
    (t : list row) : list row :=
  map (update_row tx cond set) t.

Definition Update (tx : DB) (ok : bool) (cond : row -> bool) (set : row -> row) : M unit :=
  fun s =>
    let s' := {| rows := rows s; trace := trace s ++ [EvWrite] |} in
    if ok
    then (Ok tt, {| rows := update_rows tx cond set (rows s); trace := trace s' |})
    else (Err StoreError, s').

(** SELECT ... WHERE scope AND cond, with what is made of the rows found. *)
Definition select_rows (tx : DB) (cond : row -> bool) (t : list row) : list row :=
  List.filter (fun r => in_scope tx r && cond r) t.

Definition Select {A} (tx : DB) (ok : bool) (cond : row -> bool)
    (k : list row -> result A) : M A :=
  fun s =>
    let s' := {| rows := rows s; trace := trace s ++ [EvRead] |} in
    if ok
    then (k (select_rows tx cond (rows s)), s')
    else (Err StoreError, s').

(** The row written by [db.Create(source)]: one column per tagged field. *)
Definition zero_row : row :=
  {| rID := 0; rParentID := None; rDepth := 0; rRgt := 0; rLft := 0;
     rChildrenCount := 0; rScope := 0 |}.

Definition row_of_field (r : row) (f : field) : row :=
  match f with
  | field_id _ v => set_id v r
  | field_parent_id _ v => set_parent_id (null_value v) r
  | field_depth _ v => set_depth v r
  | field_rgt _ v => set_rgt v r
  | field_lft _ v => set_lft v r
  | field_children_count _ v => set_children_count v r
  | field_scope _ v => set_scope v r
  | field_untagged _ => r
  end.

Definition row_of_source (src : source) : row :=
  fold_left row_of_field (fields src) zero_row.

(** The next value of the auto-increment primary key. *)
Definition next_id (t : list row) : Z :=
  1 + fold_left Z.max (map rID t) 0.

(** INSERT: a zero primary key is assigned by the store, a primary key
    already in the table is refused. *)
Definition new_row (t : list row) (src : source) : row :=
  let r := row_of_source src in
  if rID r =? 0 then set_id (next_id t) r else r.

Definition Insert (src : source) : M unit :=
  fun s =>
    let s' := {| rows := rows s; trace := trace s ++ [EvWrite] |} in
    let r' := new_row (rows s) src in
    if existsb (fun x => rID x =? rID r') (rows s)
    then (Err StoreError, s')
    else (Ok tt, {| rows := rows s ++ [r']; trace := trace s' |}).

(** ** The code *)

(** *** parseNode *)

Definition empty_item (tableName : string) : nodeItem :=
  {| ID := 0; ParentID := {| Int64 := 0; Valid := false |}; Depth := 0; Rgt := 0;
     Lft := 0; ChildrenCount := 0; TableName := tableName; DbNames := ∅ |}.

Definition with_name (k v : string) (i : nodeItem) : nodeItem :=
  {| ID := ID i; ParentID := ParentID i; Depth := Depth i; Rgt := Rgt i; Lft := Lft i;
     ChildrenCount := ChildrenCount i; TableName := TableName i;
     DbNames := <[k:=v]> (DbNames i) |}.
Definition with_ID (v : Z) (i : nodeItem) : nodeItem :=
  {| ID := v; ParentID := ParentID i; Depth := Depth i; Rgt := Rgt i; Lft := Lft i;
     ChildrenCount := ChildrenCount i; TableName := TableName i; DbNames := DbNames i |}.
Definition with_ParentID (v : NullInt64) (i : nodeItem) : nodeItem :=
  {| ID := ID i; ParentID := v; Depth := Depth i; Rgt := Rgt i; Lft := Lft i;
     ChildrenCount := ChildrenCount i; TableName := TableName i; DbNames := DbNames i |}.
Definition with_Depth (v : Z) (i : nodeItem) : nodeItem :=
  {| ID := ID i; ParentID := ParentID i; Depth := v; Rgt := Rgt i; Lft := Lft i;
     ChildrenCount := ChildrenCount i; TableName := TableName i; DbNames := DbNames i |}.
Definition with_Rgt (v : Z) (i : nodeItem) : nodeItem :=
  {| ID := ID i; ParentID := ParentID i; Depth := Depth i; Rgt := v; Lft := Lft i;
     ChildrenCount := ChildrenCount i; TableName := TableName i; DbNames := DbNames i |}.
Definition with_Lft (v : Z) (i : nodeItem) : nodeItem :=
  {| ID := ID i; ParentID := ParentID i; Depth := Depth i; Rgt := Rgt i; Lft := v;
     ChildrenCount := ChildrenCount i; TableName := TableName i; DbNames := DbNames i |}.
Definition with_ChildrenCount (v : Z) (i : nodeItem) : nodeItem :=
  {| ID := ID i; ParentID := ParentID i; Depth := Depth i; Rgt := Rgt i; Lft := Lft i;
     ChildrenCount := v; TableName := TableName i; DbNames := DbNames i |}.

(** One turn of the loop over the fields of the record (the [switch] on the
    [nestedset] tag).  [int(v.Int())] is the conversion to [int]. *)
Definition parse_field (acc : DB * nodeItem) (f : field) : DB * nodeItem :=
  let (tx, item) := acc in
  match f with
  | field_id dbName v => (tx, with_name "id" dbName (with_ID (wrap v) item))
  | field_parent_id dbName v => (tx, with_name "parent_id" dbName (with_ParentID v item))
  | field_depth dbName v => (tx, with_name "depth" dbName (with_Depth (wrap v) item))
  | field_rgt dbName v => (tx, with_name "rgt" dbName (with_Rgt (wrap v) item))
  | field_lft dbName v => (tx, with_name "lft" dbName (with_Lft (wrap v) item))
  | field_children_count dbName v =>
      (tx, with_name "children_count" dbName (with_ChildrenCount (wrap v) item))
  | field_scope dbName v => (Where_scope v tx, item)
  | field_untagged _ => (tx, item)
  end.

Definition parseNode (db : DB) (src : source) : result (DB * nodeItem) :=
  if is_model src
  then Ok (fold_left parse_field (fields src) (db, empty_item (table src)))
  else Err MappingError.

(** *** Create *)

(** SELECT rgt ... ORDER BY rgt desc ... LIMIT 1 *)
Definition last_rgt (found : list row) : result Z :=
  match found with
  | [] => Err StoreError            (* record not found *)
  | r :: rest => Ok (fold_left Z.max (map rRgt rest) (rRgt r))
  end.

(** The loop that sets Lft, Rgt and Depth of the record by reflection. *)
Definition set_field (setToLft setToRgt setDepth : Z) (f : field) : field :=
  match f with
  | field_lft n _ => field_lft n setToLft
  | field_rgt n _ => field_rgt n setToRgt
  | field_depth n _ => field_depth n setDepth
  | _ => f
  end.

Definition set_fields (setToLft setToRgt setDepth : Z) (src : source) : source :=
  {| is_model := is_model src; table := table src;
     fields := map (set_field setToLft setToRgt setDepth) (fields src) |}.

(** The statements of [Create] as they are written in the code.  Two
    behaviours of gorm are not part of this model, and the theorems that
    state the outcome of these statements exclude them by their hypotheses:
    - a handle returned by [Where] keeps the conditions of the statements
      already built on it, so that for a record with a scope field the
      second UPDATE also carries [rgt >= ?]; this makes no difference for a
      row with left < right;
    - [db.Model(parent)] sends no key condition for a parent whose primary
      key is zero, and gorm refuses an UPDATE without any condition; the
      model is that of a parent whose primary key is not zero. *)
Definition Create (db : DB) (src : source) (parent : option source) : M unit :=
  Transaction (
    ' (tx, target) <- lift (parseNode db src) ;
    let tableName := TableName target in
    let dbNames := DbNames target in
    ' (setDepth, setToLft, setToRgt) <-
      match parent with
      | None =>
          rst <- attempt (Select tx (bound dbNames ["rgt"]) (fun _ => true) last_rgt) ;
          match rst with
          | Ok lastRgt =>
              let setToLft := iadd lastRgt 1 in
              ret (0, setToLft, iadd setToLft 1)
          | Err _ => ret (0, 1, 2)
          end
      | Some parent =>
          ' (_, targetParent) <- lift (parseNode db parent) ;
          let setToLft := Rgt targetParent in
          let setToRgt := iadd (Rgt targetParent) 1 in
          let setDepth := iadd (Depth targetParent) 1 in
          (* UPDATE tree SET rgt = rgt + 2 WHERE rgt >= new_lft *)
          do Update (Table tx tableName) (bound dbNames ["rgt"])
                 (fun r => setToLft <=? rRgt r)
                 (fun r => set_rgt (rRgt r + 2) r) ;
          (* UPDATE tree SET lft = lft + 2 WHERE lft > new_lft *)
          do Update (Table tx tableName) (bound dbNames ["lft"])
                 (fun r => setToLft <? rLft r)
                 (fun r => set_lft (rLft r + 2) r) ;
          (* UPDATE tree SET children_count = children_count + 1 WHERE id = parent.id *)
          do Update db (bound dbNames ["children_count"])
                 (fun r => rID r =? ID targetParent)
                 (fun r => set_children_count (rChildrenCount r + 1) r) ;
          ret (setDepth, setToLft, setToRgt)
      end ;
    Insert (set_fields setToLft setToRgt setDepth src)).

(** *** MoveTo and its helpers *)

Definition parent_is (p : NullInt64) (r : row) : bool :=
  match rParentID r with
  | Some q => Valid p && (q =? Int64 p)
  | None => false
  end.

Definition count_rows (found : list row) : result Z := Ok (Z.of_nat (length found)).

Definition syncChildrenCount (tx : DB) (targetNode : nodeItem)
    (oldParentID newParentID : NullInt64) : M unit :=
  let names := DbNames targetNode in
  do (if Valid oldParentID then
     oldParentCount <- Select tx (bound names ["parent_id"]) (parent_is oldParentID) count_rows ;
     Update tx (bound names ["id"; "children_count"])
            (fun r => rID r =? Int64 oldParentID)
            (set_children_count oldParentCount)
   else ret tt) ;
  (if Valid newParentID then
     newParentCount <- Select tx (bound names ["parent_id"]) (parent_is newParentID) count_rows ;
     Update tx (bound names ["id"; "children_count"])
            (fun r => rID r =? Int64 newParentID)
            (set_children_count newParentCount)
   else ret tt).

Definition id_in (ids : list Z) (r : row) : bool := existsb (Z.eqb (rID r)) ids.

Definition moveTarget (tx : DB) (targetNode : nodeItem) (targetID : Z) (targetIds : list Z)
    (step depthChange : Z) (newParentID : NullInt64) : M unit :=
  let dbNames := DbNames targetNode in
  do (if (0 <? Z.of_nat (length targetIds)) then
     Update tx (bound dbNames ["id"; "lft"; "rgt"; "depth"])
            (id_in targetIds)
            (fun r => set_depth (rDepth r + depthChange)
                        (set_rgt (rRgt r + step) (set_lft (rLft r + step) r)))
   else ret tt) ;
  Update tx (bound dbNames ["id"; "parent_id"])
         (fun r => rID r =? targetID)
         (set_parent_id (null_value newParentID)).

Definition moveAffected (tx : DB) (targetNode : nodeItem) (gte lte step : Z) : M unit :=
  let dbNames := DbNames targetNode in
  Update tx (bound dbNames ["lft"; "rgt"])
         (fun r => ((gte <=? rLft r) && (rLft r <=? lte)) || ((gte <=? rRgt r) && (rRgt r <=? lte)))
         (fun r => set_rgt (if rRgt r <=? lte then rRgt r + step else rRgt r)
                     (set_lft (if gte <=? rLft r then rLft r + step else rLft r) r)).

Definition pluck_id (found : list row) : result (list Z) := Ok (map rID found).

Definition moveToRightOfPosition (tx : DB) (targetNode : nodeItem)
    (position depthChange : Z) (newParentID : NullInt64) : M unit :=
  Transaction (
    let oldParentID := ParentID targetNode in
    let targetRight := Rgt targetNode in
    let targetLeft := Lft targetNode in
    let targetWidth := iadd (isub targetRight targetLeft) 1 in
    targetIds <- Select tx (bound (DbNames targetNode) ["lft"; "rgt"]
                            && literal (DbNames targetNode) "id")
                   (fun r => (targetLeft <=? rLft r) && (rRgt r <=? targetRight))
                   pluck_id ;
    let moveStep := iadd (isub position targetLeft) 1 in
    if moveStep <? 0 then
      let affectedGte := iadd position 1 in
      let affectedLte := isub targetLeft 1 in
      let affectedStep := targetWidth in
      do moveAffected tx targetNode affectedGte affectedLte affectedStep ;
      do moveTarget tx targetNode (ID targetNode) targetIds moveStep depthChange newParentID ;
      syncChildrenCount tx targetNode oldParentID newParentID
    else if 0 <? moveStep then
      let affectedGte := iadd targetRight 1 in
      let affectedLte := position in
      let affectedStep := imul targetWidth (-1) in
      (* move backwards should minus target covered length/width *)
      let moveStep := isub moveStep targetWidth in
      do moveAffected tx targetNode affectedGte affectedLte affectedStep ;
      do moveTarget tx targetNode (ID targetNode) targetIds moveStep depthChange newParentID ;
      syncChildrenCount tx targetNode oldParentID newParentID
    else ret tt).

Definition MoveTo (db : DB) (node to : source) (direction : MoveDirection) : M unit :=
  ' (tx, targetNode) <- lift (parseNode db node) ;
  ' (_, toNode) <- lift (parseNode db to) ;
  let tx := Table db (TableName targetNode) in
  let '(right_, depthChange, newParentID) :=
    if (direction =? MoveDirectionLeft) || (direction =? MoveDirectionRight) then
      (if direction =? MoveDirectionLeft then isub (Lft toNode) 1 else Rgt toNode,
       isub (Depth toNode) (Depth targetNode),
       ParentID toNode)
    else
      (Lft toNode,
       isub (iadd (Depth toNode) 1) (Depth targetNode),
       {| Int64 := ID toNode; Valid := true |}) in
  moveToRightOfPosition tx targetNode right_ depthChange newParentID.

(** ** The records of a caller *)

Definition null_of (p : option Z) : NullInt64 :=
  {| Int64 := default 0 p; Valid := bool_decide (is_Some p) |}.

Definition record (id : Z) (parent : option Z) (depth rgt lft cc scope : Z) : source :=
  {| is_model := true; table := "categories";
     fields := [ field_id "id" id;
                 field_parent_id "parent_id" (null_of parent);
                 field_depth "depth" depth;
                 field_rgt "rgt" rgt;
                 field_lft "lft" lft;
                 field_children_count "children_count" cc;
                 field_scope "scope" scope ] |}.

(** The record a caller gets by reading a row back. *)
Definition record_of_row (r : row) : source :=
  record (rID r) (rParentID r) (rDepth r) (rRgt r) (rLft r) (rChildrenCount r) (rScope r).

(** The names bound by [record]. *)
Definition record_names : gmap string string :=
  <["children_count":="children_count"]>
    (<["lft":="lft"]> (<["rgt":="rgt"]> (<["depth":="depth"]>
      (<["parent_id":="parent_id"]> (<["id":="id"]> ∅))))).

(** What [parseNode] makes of [record_of_row r]. *)
Definition item_of_row (r : row) : nodeItem :=
  {| ID := wrap (rID r); ParentID := null_of (rParentID r); Depth := wrap (rDepth r);
     Rgt := wrap (rRgt r); Lft := wrap (rLft r); ChildrenCount := wrap (rChildrenCount r);
     TableName := "categories"; DbNames := record_names |}.

(** The keys a record with all its coordinate fields binds. *)
Definition all_keys : list string :=
  ["id"; "parent_id"; "depth"; "rgt"; "lft"; "children_count"].

(** Every statement of the code is well formed for such a record. *)
Definition names_ok (i : nodeItem) : bool :=
  bound (DbNames i) all_keys && literal (DbNames i) "id".

(** The [nestedset] tag of a field. *)
Definition tag_of (f : field) : string :=
  match f with
  | field_id _ _ => "id"
  | field_parent_id _ _ => "parent_id"
  | field_depth _ _ => "depth"
  | field_rgt _ _ => "rgt"
  | field_lft _ _ => "lft"
  | field_children_count _ _ => "children_count"
  | field_scope _ _ => "scope"
  | field_untagged _ => ""
  end.

(** The record has a field for every coordinate of a node. *)
Definition has_coordinates (src : source) : bool :=
  forallb (fun k => existsb (fun f => String.eqb (tag_of f) k) (fields src)) all_keys.

(** A record the specification calls unresolvable: not a model, or a
    coordinate field is missing. *)
Definition unresolvable (src : source) : Prop :=
  is_model src = false \/ has_coordinates src = false.

(** The primary key of the record is zero (assigned by the store) or not in
    the table. *)
Definition id_free (t : list row) (src : source) : Prop :=
  rID (row_of_source src) = 0 \/ ~ In (rID (row_of_source src)) (map rID t).

(** The record resolved to [i] agrees with the stored row [p]. *)
Definition agrees (i : nodeItem) (p : row) : Prop :=
  ID i = rID p /\ Lft i = rLft p /\ Rgt i = rRgt p.

(** ** The statements, as functions on the table *)

(** What the statements of [moveToRightOfPosition] and of [Create] leave in
    the table when none of them fails (lemmas [moveToRightOfPosition_run],
    [Create_root_run] and [Create_child_run]). *)

Definition within (lo hi : Z) (r : row) : bool := (lo <=? rLft r) && (rRgt r <=? hi).

Definition affected_cond (gte lte : Z) (r : row) : bool :=
  ((gte <=? rLft r) && (rLft r <=? lte)) || ((gte <=? rRgt r) && (rRgt r <=? lte)).

Definition affected_set (gte lte step : Z) (r : row) : row :=
  set_rgt (if rRgt r <=? lte then rRgt r + step else rRgt r)
    (set_lft (if gte <=? rLft r then rLft r + step else rLft r) r).

Definition target_set (step depthChange : Z) (r : row) : row :=
  set_depth (rDepth r + depthChange) (set_rgt (rRgt r + step) (set_lft (rLft r + step) r)).

Definition affected_rows (tx : DB) (gte lte step : Z) (t : list row) : list row :=
  update_rows tx (affected_cond gte lte) (affected_set gte lte step) t.

Definition target_rows (tx : DB) (targetID : Z) (targetIds : list Z) (step depthChange : Z)
    (newParentID : NullInt64) (t : list row) : list row :=
  update_rows tx (fun r => rID r =? targetID) (set_parent_id (null_value newParentID))
    (if 0 <? Z.of_nat (length targetIds)
     then update_rows tx (id_in targetIds) (target_set step depthChange) t
     else t).

Definition sync_rows (tx : DB) (p : NullInt64) (t : list row) : list row :=
  if Valid p
  then update_rows tx (fun r => rID r =? Int64 p)
         (set_children_count (Z.of_nat (length (select_rows tx (parent_is p) t)))) t
  else t.

Definition moved_rows (tx : DB) (targetNode : nodeItem) (targetIds : list Z)
    (gte lte astep step depthChange : Z) (newParentID : NullInt64) (t : list row) : list row :=
  sync_rows tx newParentID
    (sync_rows tx (ParentID targetNode)
       (target_rows tx (ID targetNode) targetIds step depthChange newParentID
          (affected_rows tx gte lte astep t))).

Definition relocate_rows (tx : DB) (targetNode : nodeItem) (position depthChange : Z)
    (newParentID : NullInt64) (t : list row) : list row :=
  let targetRight := Rgt targetNode in
  let targetLeft := Lft targetNode in
  let targetWidth := iadd (isub targetRight targetLeft) 1 in
  let targetIds := map rID (select_rows tx (within targetLeft targetRight) t) in
  let moveStep := iadd (isub position targetLeft) 1 in
  if moveStep <? 0 then
    moved_rows tx targetNode targetIds (iadd position 1) (isub targetLeft 1) targetWidth
      moveStep depthChange newParentID t
  else if 0 <? moveStep then
    moved_rows tx targetNode targetIds (iadd targetRight 1) position (imul targetWidth (-1))
      (isub moveStep targetWidth) depthChange newParentID t
  else t.

(** The three bulk updates of [Create], in the order of the code (for a
    parent whose primary key is not zero; see [Create]). *)
Definition Create_rows (tx db : DB) (setToLft parentID : Z) (t : list row) : list row :=
  update_rows db (fun r => rID r =? parentID)
    (fun r => set_children_count (rChildrenCount r + 1) r)
    (update_rows tx (fun r => setToLft <? rLft r) (fun r => set_lft (rLft r + 2) r)
       (update_rows tx (fun r => setToLft <=? rRgt r) (fun r => set_rgt (rRgt r + 2) r) t)).

(** The bounds [Create] gives a new root. *)
Definition root_bounds (tx : DB) (t : list row) : Z * Z :=
  match select_rows tx (fun _ => true) t with
  | [] => (1, 2)
  | r :: rest =>
      let setToLft := iadd (fold_left Z.max (map rRgt rest) (rRgt r)) 1 in
      (setToLft, iadd setToLft 1)
  end.

(** The outcome of the final INSERT of [Create] on the table [t1], when the
    table was [t0] at the start of the transaction. *)
Definition inserted (t0 t1 : list row) (src : source) (out : result unit * store) : Prop :=
  if existsb (fun x => rID x =? rID (new_row t1 src)) t1
  then fst out = Err StoreError /\ rows (snd out) = t0
  else fst out = Ok tt /\ rows (snd out) = t1 ++ [new_row t1 src].

(** No statement reached the store: the trace holds no read and no write. *)
Definition no_statement (tr : list event) : Prop := ~ In EvRead tr /\ ~ In EvWrite tr.

(** ** The specification *)

(** *** RangeShifter and Relocator *)

Definition in_window (lo hi x : Z) : bool := (lo <=? x) && (x <=? hi).

(** Two independent conditional updates: each bound is moved when it lies in
    the window, whatever the other bound does. *)
Definition RangeShifter_row (lo hi step : Z) (r : row) : row :=
  set_rgt (if in_window lo hi (rRgt r) then rRgt r + step else rRgt r)
    (set_lft (if in_window lo hi (rLft r) then rLft r + step else rLft r) r).

Definition RangeShifter (tx : DB) (lo hi step : Z) (t : list row) : list row :=
  map (fun r => if in_scope tx r then RangeShifter_row lo hi step r else r) t.

(** What the relocation is to do to one row: a row of the moving subtree
    (its interval lies in [[lo_s, hi_s]]) gets [step] on both bounds and
    [depthChange] on its depth; any other row goes through the RangeShifter
    with the window [[lo, hi]] and the step [astep]. *)
Definition Relocator_row (tx : DB) (lo_s hi_s lo hi astep step depthChange : Z)
    (r : row) : row :=
  if in_scope tx r then
    if within lo_s hi_s r then target_set step depthChange r
    else RangeShifter_row lo hi astep r
  else r.

(** The columns the relocation computes. *)
Definition geom (r : row) : Z * Z * Z * Z * Z :=
  (rID r, rScope r, rLft r, rRgt r, rDepth r).

(** The columns of a row that decide which statements select it. *)
Definition keys (r : row) : Z * Z * option Z := (rID r, rScope r, rParentID r).

(** [m] is the greatest right bound of the rows [t]. *)
Definition is_max_right (m : Z) (t : list row) : Prop :=
  (exists r, In r t /\ rRgt r = m) /\ (forall r, In r t -> rRgt r <= m).

(** *** The nested-set invariants *)

(** The rows of one scope. *)
Definition forest (s : Z) (t : list row) : list row :=
  List.filter (fun r => rScope r =? s) t.

(** The interval of [a] lies strictly inside the interval of [b]. *)
Definition inside (a b : row) : bool := (rLft b <? rLft a) && (rRgt a <? rRgt b).

(** The intervals of [a] and [b] have no point in common. *)
Definition apart (a b : row) : Prop := rRgt a < rLft b \/ rRgt b < rLft a.

Definition count (p : row -> bool) (l : list row) : Z := Z.of_nat (length (List.filter p l)).

(** The descendants of a node are the nodes of its forest whose interval
    lies strictly inside its own (invariant 2 of the specification; it is
    also how the code finds the moving subtree). *)
Definition descendantCount (f : list row) (n : row) : Z := count (fun r => inside r n) f.

Record nested_set (f : list row) : Prop := {
  ns_order : forall r, In r f -> rLft r < rRgt r;
  ns_laminar : forall a b, In a f -> In b f -> rID a <> rID b ->
               apart a b \/ inside a b = true \/ inside b a = true;
  ns_width : forall r, In r f -> rRgt r - rLft r = 2 * descendantCount f r + 1
}.

(** The state of the table: a primary key, and the invariants in every
    scope. *)
Definition Invariants (t : list row) : Prop :=
  List.NoDup (map rID t) /\ forall s, nested_set (forest s t).

(** Before: the node ends just left of the reference; After: it starts just
    right of the reference; Inner: it starts just inside the reference. *)
Definition placed (direction : MoveDirection) (n1 m1 : row) : Prop :=
  if direction =? MoveDirectionLeft then rRgt n1 = rLft m1 - 1
  else if direction =? MoveDirectionRight then rLft n1 = rRgt m1 + 1
  else rLft n1 = rLft m1 + 1.

(** *** Sequences of calls *)

(** No coordinate is near the limits of [int]. *)
Definition bounded (t : list row) : Prop :=
  forall r, In r t -> small (rLft r) /\ small (rRgt r).

(** The scope conditions of [tx] select the forest [sc] of the table. *)
Definition selects (tx : DB) (sc : Z) (t : list row) : Prop :=
  forall r, In r t -> in_scope tx r = (rScope r =? sc).

(** One call of [Create] or [MoveTo] by a caller who
    - passes records with all their coordinate fields, which agree with the
      rows stored (the parent of a new node being in the scope of the node),
    - moves a node only in a table that holds a single scope, and relative
      to a reference that is outside the moving subtree. *)
Inductive call : store -> store -> Prop :=
| call_Create_root db src tx target s :
    parseNode db src = Ok (tx, target) ->
    names_ok target = true ->
    selects tx (rScope (row_of_source src)) (rows s) ->
    bounded (rows s) ->
    call s (snd (Create db src None s))
| call_Create_child db src parent tx target tx' targetParent p s :
    parseNode db src = Ok (tx, target) ->
    names_ok target = true ->
    selects tx (rScope (row_of_source src)) (rows s) ->
    parseNode db parent = Ok (tx', targetParent) ->
    In p (rows s) -> agrees targetParent p ->
    rScope p = rScope (row_of_source src) ->
    bounded (rows s) ->
    call s (snd (Create db src (Some parent) s))
| call_MoveTo db node to direction tx targetNode tx' toNode n m s :
    parseNode db node = Ok (tx, targetNode) ->
    names_ok targetNode = true ->
    parseNode db to = Ok (tx', toNode) ->
    In n (rows s) -> agrees targetNode n ->
    In m (rows s) -> agrees toNode m ->
    (forall r, In r (rows s) -> in_scope db r = true /\ rScope r = rScope n) ->
    within (rLft n) (rRgt n) m = false ->
    bounded (rows s) ->
    call s (snd (MoveTo db node to direction s)).

Inductive calls : store -> store -> Prop :=
| calls_nil s : calls s s
| calls_cons s1 s2 s3 : calls s1 s2 -> call s2 s3 -> calls s1 s3.

(** *** The surgery in one forest *)

(** The gap of width 2 that [Create] opens at the right bound [l] of the
    parent. *)
Definition open_gap (l : Z) (r : row) : row :=
  set_rgt (if l <=? rRgt r then rRgt r + 2 else rRgt r)
    (set_lft (if l <? rLft r then rLft r + 2 else rLft r) r).

(** Where a relocation sends a bound: the block [[lo_s, hi_s]] of the subtree
    by [step], the window [[lo, hi]] by [astep]. *)
Definition swap_blocks (lo_s hi_s lo hi astep step e : Z) : Z :=
  if (lo_s <=? e) && (e <=? hi_s) then e + step
  else if (lo <=? e) && (e <=? hi) then e + astep
  else e.

(** ** Tables and records of the examples *)

Definition plain : DB := {| scopes := [] |}.

Definition fresh_store (t : list row) : store := {| rows := t; trace := [] |}.

Definition mk (id : Z) (p : option Z) (d l r c s : Z) : row :=
  {| rID := id; rParentID := p; rDepth := d; rRgt := r; rLft := l;
     rChildrenCount := c; rScope := s |}.

(** The table of scenario A before the children are created. *)
Definition table0 : list row := [mk 1 None 0 1 2 0 7].

(** The table of scenario A after the first child was created. *)
Definition tableAB : list row :=
  [mk 1 None 0 1 4 1 7; mk 2 (Some 1) 1 2 3 0 7].

(** The table of scenario A, written out. *)
Definition tableA : list row :=
  [mk 1 None 0 1 6 2 7; mk 2 (Some 1) 1 2 3 0 7; mk 3 (Some 1) 1 4 5 0 7].

(** A root followed by a root with one child. *)
Definition tableN : list row :=
  [mk 1 None 0 1 2 0 7; mk 2 None 0 3 6 1 7; mk 3 (Some 2) 1 4 5 0 7].

(** Scope 1 holds the roots 1 and 2, scope 2 holds the root 3. *)
Definition two_scopes : list row :=
  [mk 1 None 0 1 2 0 1; mk 2 None 0 3 4 0 1; mk 3 None 0 1 2 0 2].

(** Scope 1 holds the roots 1 and 2, scope 2 holds the root 3 and its child 4. *)
Definition two_forests : list row :=
  [mk 1 None 0 1 2 0 1; mk 2 None 0 3 4 0 1; mk 3 None 0 1 4 1 2; mk 4 (Some 3) 1 2 3 0 2].

(** Scenario A of the specification: a root and two children. *)
Definition scenarioA0 : store := fresh_store [mk 1 None 0 1 2 0 7].

Definition scenarioA1 : store :=
  snd (Create plain (record 2 (Some 1) 0 0 0 0 7) (Some (record 1 None 0 2 1 0 7)) scenarioA0).

Definition scenarioA2 : store :=
  snd (Create plain (record 3 (Some 1) 0 0 0 0 7) (Some (record 1 None 0 4 1 1 7)) scenarioA1).

(** Scenario B: the second child moved before the first. *)
Definition scenarioB : store :=
  snd (MoveTo plain (record 3 (Some 1) 1 5 4 0 7) (record 2 (Some 1) 1 3 2 0 7)
         MoveDirectionLeft scenarioA2).

(** The third row of scenario A, as the caller holds it. *)
Definition nodeC : nodeItem := item_of_row (mk 3 (Some 1) 1 4 5 0 7).

Definition nodeB : nodeItem := item_of_row (mk 2 (Some 1) 1 2 3 0 7).

(** The records of the children of scenario A, as the caller builds them. *)
Definition recordB : source := record 2 (Some 1) 0 0 0 0 7.

Definition recordC : source := record 3 (Some 1) 0 0 0 0 7.

(** The record of a new root; its primary key is left to the store. *)
Definition recordD : source := record 0 None 0 0 0 0 7.

(** The record of the root of scenario A as the caller read it before the
    first child was created: its right bound is 2, the stored one is 4
    in [tableAB]. *)
Definition stale_parent : source := record 1 None 0 2 1 0 7.

(** A model without a depth field. *)
Definition record_without_depth : source :=
  {| is_model := true; table := "categories";
     fields := [ field_id "id" 5; field_parent_id "parent_id" (null_of None);
                 field_rgt "rgt" 0; field_lft "lft" 0;
                 field_children_count "children_count" 0; field_scope "scope" 7 ] |}.

(** Scenario B from the table written out, then the creation of a new root. *)
Definition after_move : store :=
  snd (MoveTo plain (record_of_row (mk 3 (Some 1) 1 4 5 0 7))
         (record_of_row (mk 2 (Some 1) 1 2 3 0 7)) MoveDirectionLeft (fresh_store tableA)).

Definition after_two_calls : store := snd (Create plain recordD None after_move).

(** ** Definitions for the further properties *)

(** *** What a computation leaves of the rows *)

(** Every row of the table is still there after [m], in its place, related
    by [R] to what it was. *)
Definition keeps {A} (R : row -> row -> Prop) (m : M A) : Prop :=
  forall s, Forall2 R (rows s) (rows (snd (m s))).

(** The same, with at most one row appended. *)
Definition grows {A} (R : row -> row -> Prop) (m : M A) : Prop :=
  forall s, exists old extra,
    rows (snd (m s)) = old ++ extra /\ Forall2 R (rows s) old /\ (length extra <= 1)%nat.

(** What [MoveTo] leaves of a row, [id] being the primary key of the record
    of the node and [p1], [p2], [p3] the primary keys whose count of children
    may be written. *)
Definition MoveTo_leaves (db : DB) (id : Z) (ps : list Z) (r r' : row) : Prop :=
  rID r' = rID r /\ rScope r' = rScope r
  /\ (in_scope db r = false -> r' = r)
  /\ (rID r <> id -> rParentID r' = rParentID r)
  /\ (~ In (rID r) ps -> rChildrenCount r' = rChildrenCount r).

(** What [Create] leaves of a row, [tx] being the handle restricted to the
    scope of the record. *)
Definition Create_leaves (db tx : DB) (r r' : row) : Prop :=
  rID r' = rID r /\ rScope r' = rScope r /\ rDepth r' = rDepth r
  /\ rParentID r' = rParentID r
  /\ (in_scope db r = false -> r' = r)
  /\ (in_scope tx r = false -> rLft r' = rLft r /\ rRgt r' = rRgt r)
  /\ rLft r <= rLft r' /\ rRgt r <= rRgt r' /\ rChildrenCount r <= rChildrenCount r'.

(** The second child of scenario A, as a record without a [lft] field. *)
Definition record_without_lft : source :=
  {| is_model := true; table := "categories";
     fields := [ field_id "id" 3; field_parent_id "parent_id" (null_of (Some 1));
                 field_depth "depth" 0; field_rgt "rgt" 0;
                 field_children_count "children_count" 0; field_scope "scope" 7 ] |}.

(** The destination of a move, from the stored rows of the node [n] and
    of the reference [m]: the position, the change of depth and the new
    parent id that [MoveTo] computes from records that agree with them. *)
Definition position_of (direction : MoveDirection) (m : row) : Z :=
  if direction =? MoveDirectionLeft then rLft m - 1
  else if direction =? MoveDirectionRight then rRgt m
       else rLft m.

Definition depth_of (direction : MoveDirection) (m : row) : Z :=
  if (direction =? MoveDirectionLeft) || (direction =? MoveDirectionRight)
  then rDepth m else rDepth m + 1.

Definition parent_of (direction : MoveDirection) (m : row) : option Z :=
  if (direction =? MoveDirectionLeft) || (direction =? MoveDirectionRight)
  then rParentID m else Some (rID m).

(** The block [[lo, hi]] that a relocation to the right of [pos] swaps with
    the interval of [n], and the two shifts. *)
Definition swaps (n : row) (pos lo hi astep step : Z) : Prop :=
  (pos + 1 < rLft n /\ lo = pos + 1 /\ hi = rLft n - 1
   /\ astep = rRgt n - rLft n + 1 /\ step = pos + 1 - rLft n)
  \/ (rRgt n <= pos /\ lo = rRgt n + 1 /\ hi = pos
      /\ astep = - (rRgt n - rLft n + 1) /\ step = pos - rRgt n).

(** A caller who moves the node [n] relative to the reference [m] with
    records read back from the table [t], which holds one forest that the
    handle [db] selects, the reference being outside the subtree of the
    node, and nothing near the limits of [int]. *)
Record fresh_move (db : DB) (t : list row) (n m : row) : Prop := {
  fm_inv : Invariants t;
  fm_node : In n t;
  fm_ref : In m t;
  fm_one : forall r, In r t -> in_scope db r = true /\ rScope r = rScope n;
  fm_out : within (rLft n) (rRgt n) m = false;
  fm_bounded : bounded t;
  fm_depth_n : small (rDepth n);
  fm_depth_m : small (rDepth m);
  fm_id_n : int_range (rID n);
  fm_id_m : int_range (rID m)
}.

(** *** Depths *)

(** The ancestors of a node are the nodes of its forest whose interval
    strictly contains its own. *)
Definition ancestorCount (f : list row) (r : row) : Z := count (fun a => inside r a) f.

(** The depth column holds the number of ancestors. *)
Definition depth_ok (f : list row) : Prop :=
  forall r, In r f -> rDepth r = ancestorCount f r.

Definition Depths (t : list row) : Prop := forall s, depth_ok (forest s t).

(** The interval of [a] holds the position [pos] and the one after it. *)
Definition straddles (pos : Z) (a : row) : bool := (rLft a <=? pos) && (pos <? rRgt a).

(** *** Parent ids *)

(** The parent id of a row names the innermost row that contains it: a
    row without a parent id has no ancestor; the parent named by a row is an
    ancestor, and every other ancestor of the row is an ancestor of that
    parent. *)
Definition parent_ok (f : list row) : Prop :=
  forall r, In r f ->
    match rParentID r with
    | None => forall a, In a f -> inside r a = false
    | Some q =>
        exists p, In p f /\ rID p = q /\ inside r p = true
                  /\ (forall a, In a f -> inside r a = true ->
                                 rID a = q \/ inside p a = true)
    end.

Definition Parents (t : list row) : Prop := forall s, parent_ok (forest s t).

(** The columns that say where a row is and whose child it is. *)
Definition link (r : row) : Z * Z * Z * Z * Z * option Z := (geom r, rParentID r).

(** The column that gorm's schema gives to a field. *)
Definition dbName_of (f : field) : string :=
  match f with
  | field_id n _ | field_parent_id n _ | field_depth n _ | field_rgt n _
  | field_lft n _ | field_children_count n _ | field_scope n _ | field_untagged n => n
  end.

(** *** formatSQL *)

(** The colon that starts a placeholder (character 58). *)
Definition colon : Ascii.ascii :=
  Ascii.Ascii false true false true true true false false.

(** [strings.Replace(s, old, new, -1)] and [strings.ReplaceAll(s, old, new)]
    for an [old] that is not empty (in [formatSQL] it begins with a colon):
    the occurrences of [old] are found from left to right without overlap
    and each is replaced by [new].  [skip] counts the characters of an
    occurrence still to be passed over. *)
Fixpoint replace_from (skip : nat) (old new s : string) : string :=
  match s with
  | EmptyString => EmptyString
  | String c s' =>
      match skip with
      | S k => replace_from k old new s'
      | O =>
          if String.prefix old s
          then String.append new (replace_from (String.length old - 1) old new s')
          else String c (replace_from 0 old new s')
      end
  end.

Definition Replace (s old new : string) : string := replace_from 0 old new s.

(** [formatSQL]: the table name first, then the entries of [DbNames] in
    the order in which Go's [range] yields them, which the language leaves
    open: [order] is that order. *)
Definition formatSQL (order : list (string * string)) (placeHolderSQL : string)
    (node : nodeItem) : string :=
  let out := Replace placeHolderSQL ":table_name" (TableName node) in
  fold_left (fun out kv => Replace out (String colon (fst kv)) (snd kv)) order out.

(** The texts that the code passes to [formatSQL]. *)
Definition statements : list string :=
  [ ":rgt desc"; ":rgt >= ?"; ":rgt + 2"; ":lft > ?"; ":lft + 2"; ":children_count + 1";
    ":lft >= ? AND :rgt <= ?"; ":parent_id = ?"; ":id = ?"; ":id IN (?)";
    ":lft + ?"; ":rgt + ?"; ":depth + ?";
    "(:lft BETWEEN ? AND ?) OR (:rgt BETWEEN ? AND ?)";
    "(CASE WHEN :lft >= ? THEN :lft + ? ELSE :lft END)";
    "(CASE WHEN :rgt <= ? THEN :rgt + ? ELSE :rgt END)" ].

(** A text seen as pieces without a colon and placeholders. *)
Inductive token :=
| Text (s : string)
| Key (k : string).

Definition render_token (t : token) : string :=
  match t with
  | Text s => s
  | Key k => String colon k
  end.

Definition render (tpl : list token) : string :=
  fold_right (fun t acc => String.append (render_token t) acc) EmptyString tpl.

Fixpoint no_colon (s : string) : bool :=
  match s with
  | EmptyString => true
  | String c s' => negb (Ascii.eqb c colon) && no_colon s'
  end.

(** The placeholder stands for a column when its key is bound, and stays
    in the text when it is not. *)
Definition resolve (names : gmap string string) (t : token) : token :=
  match t with
  | Text s => Text s
  | Key k => match names !! k with Some c => Text c | None => Key k end
  end.

Definition placeholders (tpl : list token) : list string :=
  flat_map (fun t => match t with Key k => [k] | Text _ => [] end) tpl.

(** The pieces hold no colon and the placeholders are among the six keys. *)
Definition well_formed (tpl : list token) : bool :=
  forallb (fun t => match t with
                    | Text s => no_colon s
                    | Key k => existsb (String.eqb k) all_keys
                    end) tpl.

(** The statements of the code, piece by piece. *)
Definition pieces : list (list token) :=
  [ [Key "rgt"; Text " desc"]; [Key "rgt"; Text " >= ?"]; [Key "rgt"; Text " + 2"];
    [Key "lft"; Text " > ?"]; [Key "lft"; Text " + 2"]; [Key "children_count"; Text " + 1"];
    [Key "lft"; Text " >= ? AND "; Key "rgt"; Text " <= ?"];
    [Key "parent_id"; Text " = ?"]; [Key "id"; Text " = ?"]; [Key "id"; Text " IN (?)"];
    [Key "lft"; Text " + ?"]; [Key "rgt"; Text " + ?"]; [Key "depth"; Text " + ?"];
    [Text "("; Key "lft"; Text " BETWEEN ? AND ?) OR ("; Key "rgt"; Text " BETWEEN ? AND ?)"];
    [Text "(CASE WHEN "; Key "lft"; Text " >= ? THEN "; Key "lft"; Text " + ? ELSE ";
     Key "lft"; Text " END)"];
    [Text "(CASE WHEN "; Key "rgt"; Text " <= ? THEN "; Key "rgt"; Text " + ? ELSE ";
     Key "rgt"; Text " END)"] ].

(** The first character of a key. *)
Definition head (k : string) : option Ascii.ascii :=
  match k with
  | EmptyString => None
  | String c _ => Some c
  end.

(** The keys that [formatSQL] may look for: none is empty or holds a colon,
    and two different ones differ in their first character. *)
Definition searched : list string := "table_name" :: all_keys.

Definition apart_keys (ks : list string) : bool :=
  forallb (fun k => match head k with
                    | None => false
                    | Some c =>
                        no_colon k
                        && forallb (fun k' => String.eqb k k'
                                              || negb (match head k' with
                                                       | Some c' => Ascii.eqb c c'
                                                       | None => true
                                                       end)) ks
                    end) ks.

(** The column bound to a key by the first entry of [order] that has it. *)
Fixpoint assoc (k : string) (order : list (string * string)) : option string :=
  match order with
  | [] => None
  | (k', c) :: rest => if String.eqb k' k then Some c else assoc k rest
  end.

Definition subst1 (k v : string) (t : token) : token :=
  match t with
  | Key k' => if String.eqb k' k then Text v else t
  | Text _ => t
  end.

(** [resolve] with the entries in the order of the loop. *)
Definition resolve_in (order : list (string * string)) (t : token) : token :=
  match t with
  | Text s => Text s
  | Key k => match assoc k order with Some c => Text c | None => Key k end
  end.

(** *** Counts of children *)

(** The row [r] is a child of the row whose primary key is [q]. *)
Definition child_of (q : Z) (r : row) : bool :=
  match rParentID r with
  | Some p => p =? q
  | None => false
  end.

(** The children count of every row is the number of rows of the table whose
    parent id is its primary key. *)
Definition counts_ok (t : list row) : Prop :=
  forall r, In r t -> rChildrenCount r = count (child_of (rID r)) t.


(** The primary keys whose count of children a relocation writes. *)
Definition synced (old new : NullInt64) : list Z :=
  (if Valid old then [Int64 old] else []) ++ (if Valid new then [Int64 new] else []).

(** A record whose parent id was not read back from the table. *)
Definition node_without_parent : source := record 3 None 1 5 4 0 7.

(** *** No gap between the bounds *)

(** The left and right bounds of the rows. *)
Definition bounds (f : list row) : list Z := flat_map (fun r => [rLft r; rRgt r]) f.

(** The bounds of a forest of [N] rows are the numbers from 1 to [2N]. *)
Definition compact (f : list row) : Prop :=
  forall e, In e (bounds f) <-> 1 <= e <= 2 * Z.of_nat (length f).

Definition Compact (t : list row) : Prop := forall s, compact (forest s t).

(** * Properties *)

(** ** Running the scenarios *)

Example scenarioA_rows :
  rows scenarioA2 = [mk 1 None 0 1 6 2 7; mk 2 (Some 1) 1 2 3 0 7; mk 3 (Some 1) 1 4 5 0 7].
Proof. reflexivity. Qed.

Example scenarioB_rows :
  rows scenarioB = [mk 1 None 0 1 6 2 7; mk 2 (Some 1) 1 4 5 0 7; mk 3 (Some 1) 1 2 3 0 7].
Proof. reflexivity. Qed.

(** ** Machine integers *)

Lemma wrap_small z : int_range z -> wrap z = z.
Proof.
  unfold int_range, wrap. intros H.
  rewrite Z.mod_small; lia.
Qed.

Lemma wrap_range z : int_range (wrap z).
Proof.
  unfold int_range, wrap.
  pose proof (Z.mod_pos_bound (z + 2 ^ 63) (2 ^ 64) ltac:(lia)). lia.
Qed.

Lemma wrap_add_l a b : wrap (wrap a + b) = wrap (a + b).
Proof.
  unfold wrap.
  replace ((a + 2 ^ 63) mod 2 ^ 64 - 2 ^ 63 + b + 2 ^ 63)
    with ((a + 2 ^ 63) mod 2 ^ 64 + b) by lia.
  rewrite Zplus_mod_idemp_l. f_equal. f_equal. lia.
Qed.

Lemma wrap_sub_l a b : wrap (wrap a - b) = wrap (a - b).
Proof. apply (wrap_add_l a (- b)). Qed.

Ltac unwrap :=
  unfold iadd, isub, imul in *;
  repeat match goal with
         | |- context [wrap ?z] => rewrite (wrap_small z) by (unfold int_range, small in *; lia)
         | H : context [wrap ?z] |- _ =>
             rewrite (wrap_small z) in H by (unfold int_range, small in *; lia)
         end.

(** ** Rows and records *)

Lemma bound_forall names keys :
  bound names keys = true <-> forall k, In k keys -> names !! k <> None.
Proof.
  unfold bound. rewrite forallb_forall. split; intros H k Hk.
  - specialize (H k Hk). destruct (names !! k); congruence.
  - specialize (H k Hk). destruct (names !! k); congruence.
Qed.

Lemma bound_incl names keys keys' :
  bound names keys = true -> incl keys' keys -> bound names keys' = true.
Proof.
  rewrite !bound_forall. intros H Hi k Hk. apply H, Hi, Hk.
Qed.

Lemma names_ok_bound i keys :
  names_ok i = true -> incl keys all_keys -> bound (DbNames i) keys = true.
Proof.
  unfold names_ok. intros H Hi. apply andb_prop in H as [H _].
  eapply bound_incl; eauto.
Qed.

Lemma names_ok_literal i : names_ok i = true -> literal (DbNames i) "id" = true.
Proof. unfold names_ok. intros H. apply andb_prop in H as [_ H]. exact H. Qed.

Ltac incl_keys :=
  unfold all_keys; intros ? ?; simpl in *; intuition auto.

(** Rewrites the well-formedness tests of the statements to [true]. *)
Ltac names_ok H :=
  repeat match goal with
         | |- context [bound (DbNames ?i) ?ks] =>
             rewrite (names_ok_bound i ks H ltac:(incl_keys))
         | |- context [literal (DbNames ?i) "id"] =>
             rewrite (names_ok_literal i H)
         end.

(** ** C5: the combined update of [moveAffected] is the RangeShifter *)

Lemma moveAffected_row lo hi step r :
  rLft r < rRgt r ->
  (if ((lo <=? rLft r) && (rLft r <=? hi)) || ((lo <=? rRgt r) && (rRgt r <=? hi))
   then set_rgt (if rRgt r <=? hi then rRgt r + step else rRgt r)
          (set_lft (if lo <=? rLft r then rLft r + step else rLft r) r)
   else r) = RangeShifter_row lo hi step r.
Proof.
  intros Hlr. unfold RangeShifter_row, in_window.
  destruct (Z.leb_spec lo (rLft r)), (Z.leb_spec (rLft r) hi),
    (Z.leb_spec lo (rRgt r)), (Z.leb_spec (rRgt r) hi); simpl;
    try lia; try reflexivity; destruct r; reflexivity.
Qed.

(** C5.  For rows with left < right, the single UPDATE of [moveAffected]
    (one disjunctive predicate, one clamped CASE per column) does what the
    two independent conditional updates of the specification do: left gets
    [step] exactly when left lies in [[lo, hi]], right gets [step] exactly when
    right lies in [[lo, hi]]. *)
Theorem moveAffected_is_RangeShifter tx targetNode lo hi step s :
  bound (DbNames targetNode) ["lft"; "rgt"] = true ->
  (forall r, In r (rows s) -> rLft r < rRgt r) ->
  moveAffected tx targetNode lo hi step s =
    (Ok tt, {| rows := RangeShifter tx lo hi step (rows s);
               trace := trace s ++ [EvWrite] |}).
Proof.
  intros Hb Hord. unfold moveAffected, Update. rewrite Hb. simpl.
  f_equal. f_equal. unfold update_rows, RangeShifter.
  apply map_ext_in. intros r Hr. unfold update_row.
  destruct (in_scope tx r); simpl; [| reflexivity].
  apply moveAffected_row. auto.
Qed.

(** ** C3: the destination computed by [MoveTo] *)

(** C3.  With both records resolved, [MoveTo] hands the relocation
    - Before (MoveDirectionLeft): the parent id of the reference,
      reference.depth - node.depth, position reference.left - 1;
    - After (MoveDirectionRight): the parent id of the reference,
      reference.depth - node.depth, position reference.right;
    - Inner: the id of the reference, reference.depth + 1 - node.depth,
      position reference.left;
    the differences being Go's [int] arithmetic. *)
Theorem MoveTo_destination db node to tx targetNode tx' toNode :
  parseNode db node = Ok (tx, targetNode) ->
  parseNode db to = Ok (tx', toNode) ->
  MoveTo db node to MoveDirectionLeft =
    moveToRightOfPosition (Table db (TableName targetNode)) targetNode
      (wrap (Lft toNode - 1)) (wrap (Depth toNode - Depth targetNode)) (ParentID toNode)
  /\ MoveTo db node to MoveDirectionRight =
    moveToRightOfPosition (Table db (TableName targetNode)) targetNode
      (Rgt toNode) (wrap (Depth toNode - Depth targetNode)) (ParentID toNode)
  /\ MoveTo db node to MoveDirectionInner =
    moveToRightOfPosition (Table db (TableName targetNode)) targetNode
      (Lft toNode) (wrap (Depth toNode + 1 - Depth targetNode))
      {| Int64 := ID toNode; Valid := true |}.
Proof.
  intros Hn Ht. unfold MoveTo. rewrite Hn, Ht.
  unfold bind, lift, isub, iadd. simpl. rewrite wrap_sub_l.
  repeat split; reflexivity.
Qed.

Lemma parseNode_record_of_row db r :
  parseNode db (record_of_row r) = Ok (Where_scope (rScope r) db, item_of_row r).
Proof. reflexivity. Qed.

Lemma names_ok_item_of_row r : names_ok (item_of_row r) = true.
Proof. vm_compute. reflexivity. Qed.

Lemma MoveTo_destination_witness :
  MoveTo plain (record 3 (Some 1) 1 5 4 0 7) (record 2 (Some 1) 1 3 2 0 7) MoveDirectionLeft
    scenarioA2
  = moveToRightOfPosition plain (item_of_row (mk 3 (Some 1) 1 4 5 0 7))
      1 0 {| Int64 := 1; Valid := true |} scenarioA2.
Proof.
  pose proof (MoveTo_destination plain (record 3 (Some 1) 1 5 4 0 7)
                (record 2 (Some 1) 1 3 2 0 7) _ _ _ _ eq_refl eq_refl) as [H _].
  rewrite H. reflexivity.
Defined.

Ltac each_row :=
  let r := fresh "r" in
  let H := fresh "H" in
  intros r H; simpl in H;
  repeat match goal with
         | H : _ \/ _ |- _ => destruct H
         | H : False |- _ => destruct H
         | H : _ = _ |- _ => subst
         end; simpl; try lia; try reflexivity.

Lemma moveAffected_is_RangeShifter_witness :
  moveAffected plain (item_of_row (mk 3 (Some 1) 1 4 5 0 7)) 2 3 2 (fresh_store tableA) =
    (Ok tt, {| rows := RangeShifter plain 2 3 2 tableA; trace := [EvWrite] |}).
Proof.
  apply (moveAffected_is_RangeShifter plain (item_of_row (mk 3 (Some 1) 1 4 5 0 7)) 2 3 2
           (fresh_store tableA)).
  - vm_compute. reflexivity.
  - each_row.
Defined.

(** ** The relocation, as a function on the table *)

Lemma syncChildrenCount_run tx n old new t tr0 :
  names_ok n = true ->
  exists tr, syncChildrenCount tx n old new {| rows := t; trace := tr0 |} =
    (Ok tt, {| rows := sync_rows tx new (sync_rows tx old t); trace := tr |}).
Proof.
  intros Hn. unfold syncChildrenCount, sync_rows, bind, Select, Update, count_rows, ret.
  names_ok Hn.
  destruct (Valid old), (Valid new); simpl; eauto.
Qed.

Lemma moveTarget_run tx n id ids step dc np t tr0 :
  names_ok n = true ->
  exists tr, moveTarget tx n id ids step dc np {| rows := t; trace := tr0 |} =
    (Ok tt, {| rows := target_rows tx id ids step dc np t; trace := tr |}).
Proof.
  intros Hn. unfold moveTarget, target_rows, bind, Update, ret.
  names_ok Hn.
  destruct (0 <? Z.of_nat (length ids)); simpl; eauto.
Qed.

Lemma moveAffected_run tx n gte lte step t tr0 :
  names_ok n = true ->
  moveAffected tx n gte lte step {| rows := t; trace := tr0 |} =
    (Ok tt, {| rows := affected_rows tx gte lte step t; trace := tr0 ++ [EvWrite] |}).
Proof.
  intros Hn. unfold moveAffected, Update. names_ok Hn. reflexivity.
Qed.

Lemma moved_run tx n ids gte lte astep step dc np t tr0 :
  names_ok n = true ->
  exists tr,
    bind (moveAffected tx n gte lte astep)
      (fun _ => bind (moveTarget tx n (ID n) ids step dc np)
                  (fun _ => syncChildrenCount tx n (ParentID n) np))
      {| rows := t; trace := tr0 |} =
    (Ok tt, {| rows := moved_rows tx n ids gte lte astep step dc np t; trace := tr |}).
Proof.
  intros Hn. unfold bind at 1. rewrite moveAffected_run by assumption.
  cbv beta iota. unfold bind at 1.
  destruct (moveTarget_run tx n (ID n) ids step dc np
              (affected_rows tx gte lte astep t) (tr0 ++ [EvWrite]) Hn) as [tr1 ->].
  cbv beta iota.
  destruct (syncChildrenCount_run tx n (ParentID n) np
              (target_rows tx (ID n) ids step dc np (affected_rows tx gte lte astep t))
              tr1 Hn) as [tr2 ->].
  eauto.
Qed.

Lemma moveToRightOfPosition_run tx n pos dc np s :
  names_ok n = true ->
  exists tr, moveToRightOfPosition tx n pos dc np s =
    (Ok tt, {| rows := relocate_rows tx n pos dc np (rows s); trace := tr |}).
Proof.
  intros Hn. destruct s as [t tr0].
  unfold moveToRightOfPosition, relocate_rows, Transaction.
  unfold bind at 1. unfold Select at 1. names_ok Hn. simpl.
  destruct (iadd (isub pos (Lft n)) 1 <? 0).
  - edestruct moved_run as [tr ->]; [exact Hn |]. simpl. eauto.
  - destruct (0 <? iadd (isub pos (Lft n)) 1).
    + edestruct moved_run as [tr ->]; [exact Hn |]. simpl. eauto.
    + simpl. eauto.
Qed.

(** *** Row by row *)

Lemma Forall2_map_same {A B} (R : A -> B -> Prop) (f : A -> B) l :
  (forall x, In x l -> R x (f x)) -> Forall2 R l (map f l).
Proof.
  induction l as [| a l IH]; simpl; intros H; constructor; auto.
Qed.

Lemma NoDup_map_inj {A B} (f : A -> B) l a b :
  List.NoDup (map f l) -> In a l -> In b l -> f a = f b -> a = b.
Proof.
  induction l as [| x l IH]; simpl; [tauto |].
  intros Hnd Ha Hb Hab. inversion Hnd as [| ? ? Hx Hnd']; subst.
  destruct Ha as [-> | Ha], Hb as [-> | Hb]; auto.
  - exfalso. apply Hx. rewrite Hab. apply in_map, Hb.
  - exfalso. apply Hx. rewrite <- Hab. apply in_map, Ha.
Qed.

Lemma geom_set_parent_id v r : geom (set_parent_id v r) = geom r.
Proof. reflexivity. Qed.

Lemma geom_set_children_count v r : geom (set_children_count v r) = geom r.
Proof. reflexivity. Qed.

Lemma map_geom_update_rows tx cond set t :
  (forall r, geom (set r) = geom r) ->
  map geom (update_rows tx cond set t) = map geom t.
Proof.
  intros H. unfold update_rows. rewrite map_map. apply map_ext.
  intros r. unfold update_row. destruct (in_scope tx r && cond r); auto.
Qed.

Lemma map_geom_sync_rows tx p t : map geom (sync_rows tx p t) = map geom t.
Proof.
  unfold sync_rows. destruct (Valid p); [| reflexivity].
  apply map_geom_update_rows. intros r. apply geom_set_children_count.
Qed.

Lemma id_in_true tx lo hi t r :
  In r t -> in_scope tx r = true -> within lo hi r = true ->
  id_in (map rID (select_rows tx (within lo hi) t)) r = true.
Proof.
  intros Hin Hs Hw. unfold id_in. apply existsb_exists.
  exists (rID r). split; [| apply Z.eqb_refl].
  apply in_map. unfold select_rows. apply filter_In. split; [assumption |].
  rewrite Hs, Hw. reflexivity.
Qed.

Lemma id_in_false tx lo hi t r :
  List.NoDup (map rID t) -> In r t -> (in_scope tx r && within lo hi r) = false ->
  id_in (map rID (select_rows tx (within lo hi) t)) r = false.
Proof.
  intros Hnd Hin Hf. destruct (id_in _ r) eqn:E; [| reflexivity].
  unfold id_in in E. apply existsb_exists in E as (i & Hi & Heq).
  apply Z.eqb_eq in Heq. apply in_map_iff in Hi as (r0 & Hid & Hr0).
  unfold select_rows in Hr0. apply filter_In in Hr0 as [Hr0 Hc].
  assert (r0 = r) by (eapply NoDup_map_inj; eauto; congruence).
  subst r0. congruence.
Qed.

(** The two bulk updates of a relocation, on one row of the table. *)
Lemma moved_row_spec tx lo_s hi_s gte lte astep step dc t r :
  List.NoDup (map rID t) -> In r t -> rLft r < rRgt r ->
  lte < lo_s \/ hi_s < gte ->
  let ids := map rID (select_rows tx (within lo_s hi_s) t) in
  (if 0 <? Z.of_nat (length ids)
   then update_row tx (id_in ids) (target_set step dc)
          (update_row tx (affected_cond gte lte) (affected_set gte lte astep) r)
   else update_row tx (affected_cond gte lte) (affected_set gte lte astep) r)
  = Relocator_row tx lo_s hi_s gte lte astep step dc r.
Proof.
  intros Hnd Hin Hlr Hdisj ids.
  unfold Relocator_row, update_row at 2 3.
  destruct (in_scope tx r) eqn:Hs; simpl.
  - destruct (within lo_s hi_s r) eqn:Hw.
    + (* a row of the subtree: out of the window *)
      assert (Hc : affected_cond gte lte r = false).
      { unfold within in Hw. unfold affected_cond.
        apply andb_prop in Hw as [H1 H2]. apply Z.leb_le in H1, H2.
        destruct (Z.leb_spec gte (rLft r)), (Z.leb_spec (rLft r) lte),
          (Z.leb_spec gte (rRgt r)), (Z.leb_spec (rRgt r) lte); simpl; try reflexivity; lia. }
      rewrite Hc.
      assert (Hid : id_in ids r = true) by (apply id_in_true; assumption).
      assert (Hlen : (0 <? Z.of_nat (length ids)) = true).
      { apply Z.ltb_lt. unfold id_in in Hid. destruct ids; [discriminate | simpl; lia]. }
      rewrite Hlen. unfold update_row. rewrite Hs, Hid. reflexivity.
    + (* any other row: only the window applies *)
      pose proof (moveAffected_row gte lte astep r Hlr) as Ha.
      unfold affected_cond, affected_set. rewrite Ha.
      assert (Hid : id_in ids (RangeShifter_row gte lte astep r) = false).
      { change (id_in ids (RangeShifter_row gte lte astep r)) with (id_in ids r).
        apply id_in_false; try assumption. rewrite Hs, Hw. reflexivity. }
      unfold update_row. rewrite Hid, andb_false_r.
      destruct (0 <? Z.of_nat (length ids)); reflexivity.
  - unfold update_row. rewrite Hs. simpl.
    destruct (0 <? Z.of_nat (length ids)); reflexivity.
Qed.

Lemma Forall2_weaken {A B} (R R' : A -> B -> Prop) l l' :
  (forall a b, R a b -> R' a b) -> Forall2 R l l' -> Forall2 R' l l'.
Proof. intros H HF. induction HF; constructor; auto. Qed.

Lemma Forall2_map_right {A B C} (R : A -> C -> Prop) (f : B -> C) l l' :
  Forall2 R l (map f l') -> Forall2 (fun a b => R a (f b)) l l'.
Proof.
  revert l'. induction l as [| a l IH]; intros [| b l'] H; inversion H; subst;
    constructor; auto.
Qed.

Lemma map_geom_moved_rows tx n ids gte lte astep step dc np t :
  map geom (moved_rows tx n ids gte lte astep step dc np t) =
  map (fun r => geom
         (if 0 <? Z.of_nat (length ids)
          then update_row tx (id_in ids) (target_set step dc)
                 (update_row tx (affected_cond gte lte) (affected_set gte lte astep) r)
          else update_row tx (affected_cond gte lte) (affected_set gte lte astep) r)) t.
Proof.
  unfold moved_rows. rewrite !map_geom_sync_rows. unfold target_rows.
  rewrite map_geom_update_rows by (intros; apply geom_set_parent_id).
  unfold affected_rows, update_rows.
  destruct (0 <? Z.of_nat (length ids)); rewrite !map_map; reflexivity.
Qed.

Lemma moved_rows_spec tx n lo_s hi_s gte lte astep step dc np t :
  List.NoDup (map rID t) ->
  lte < lo_s \/ hi_s < gte ->
  Forall2 (fun r r' =>
             rLft r < rRgt r ->
             geom r' = geom (Relocator_row tx lo_s hi_s gte lte astep step dc r))
    t (moved_rows tx n (map rID (select_rows tx (within lo_s hi_s) t))
         gte lte astep step dc np t).
Proof.
  intros Hnd Hdisj.
  apply (Forall2_map_right
           (fun r g => rLft r < rRgt r ->
                       g = geom (Relocator_row tx lo_s hi_s gte lte astep step dc r)) geom).
  rewrite map_geom_moved_rows. apply Forall2_map_same.
  intros r Hin Hlr. f_equal. apply moved_row_spec; assumption.
Qed.

(** ** C2: the cases of the relocation *)

(** C2.  With width = node.right - node.left + 1 and
    moveStep = position - node.left + 1 (no overflow):
    - moveStep = 0: success, the table is left as it is and the store sees no
      write (one read, inside the transaction);
    - moveStep < 0: row by row the table is the one the Relocator describes
      with the window [[position+1, node.left-1]] shifted by +width and the
      subtree shifted by moveStep, depth by depthChange;
    - moveStep > 0: the same with the window [[node.right+1, position]] shifted
      by -width and the subtree shifted by moveStep - width. *)
Theorem moveToRightOfPosition_cases tx n pos dc np s :
  names_ok n = true ->
  List.NoDup (map rID (rows s)) ->
  small (Lft n) -> small (Rgt n) -> small pos ->
  let width := Rgt n - Lft n + 1 in
  let moveStep := pos - Lft n + 1 in
  let out := moveToRightOfPosition tx n pos dc np s in
  fst out = Ok tt
  /\ (moveStep = 0 ->
      rows (snd out) = rows s /\ trace (snd out) = trace s ++ [EvBegin; EvRead; EvCommit])
  /\ (moveStep < 0 ->
      Forall2 (fun r r' =>
                 rLft r < rRgt r ->
                 geom r' = geom (Relocator_row tx (Lft n) (Rgt n) (pos + 1) (Lft n - 1)
                                   width moveStep dc r))
        (rows s) (rows (snd out)))
  /\ (moveStep > 0 ->
      Forall2 (fun r r' =>
                 rLft r < rRgt r ->
                 geom r' = geom (Relocator_row tx (Lft n) (Rgt n) (Rgt n + 1) pos
                                   (- width) (moveStep - width) dc r))
        (rows s) (rows (snd out))).
Proof.
  intros Hn Hnd HL HR Hp width moveStep out.
  assert (Hstep : iadd (isub pos (Lft n)) 1 = moveStep) by (subst moveStep; unwrap; reflexivity).
  split; [| split; [| split]].
  - subst out. destruct (moveToRightOfPosition_run tx n pos dc np s Hn) as [tr ->].
    reflexivity.
  - intros H0. subst out. destruct s as [t tr0].
    unfold moveToRightOfPosition, Transaction, bind, Select.
    names_ok Hn. simpl. rewrite Hstep, H0. simpl.
    rewrite <- !app_assoc. auto.
  - intros Hlt. subst out.
    destruct (moveToRightOfPosition_run tx n pos dc np s Hn) as [tr ->]. simpl.
    unfold relocate_rows. rewrite Hstep.
    replace (moveStep <? 0) with true by (symmetry; apply Z.ltb_lt; lia).
    replace (iadd pos 1) with (pos + 1) by (unwrap; reflexivity).
    replace (isub (Lft n) 1) with (Lft n - 1) by (unwrap; reflexivity).
    replace (iadd (isub (Rgt n) (Lft n)) 1) with width by (subst width; unwrap; reflexivity).
    apply moved_rows_spec; [assumption | lia].
  - intros Hgt. subst out.
    destruct (moveToRightOfPosition_run tx n pos dc np s Hn) as [tr ->]. simpl.
    unfold relocate_rows. rewrite Hstep.
    replace (moveStep <? 0) with false by (symmetry; apply Z.ltb_ge; lia).
    replace (0 <? moveStep) with true by (symmetry; apply Z.ltb_lt; lia).
    replace (iadd (Rgt n) 1) with (Rgt n + 1) by (unwrap; reflexivity).
    replace (iadd (isub (Rgt n) (Lft n)) 1) with width by (subst width; unwrap; reflexivity).
    replace (imul width (-1)) with (- width) by (subst width; unwrap; lia).
    replace (isub moveStep width) with (moveStep - width)
      by (subst moveStep width; unwrap; reflexivity).
    apply moved_rows_spec; [assumption | lia].
Qed.

Ltac by_compute := vm_compute; repeat split; try reflexivity; try discriminate.

Ltac nodup_ids :=
  simpl; repeat (constructor; [simpl; intuition discriminate |]); constructor.

Lemma moveToRightOfPosition_cases_witness :
  Forall2 (fun r r' =>
             rLft r < rRgt r ->
             geom r' = geom (Relocator_row plain 4 5 2 3 2 (-2) 0 r))
    tableA
    (rows (snd (moveToRightOfPosition plain nodeC 1 0 (null_of (Some 1)) (fresh_store tableA)))).
Proof.
  refine (proj1 (proj2 (proj2
    (moveToRightOfPosition_cases plain nodeC 1 0 (null_of (Some 1)) (fresh_store tableA)
       _ _ _ _ _))) _).
  - by_compute.
  - nodup_ids.
  - by_compute.
  - by_compute.
  - by_compute.
  - by_compute.
Defined.

(** ** Create, as a function on the table *)

Lemma fold_max_ge l a :
  a <= fold_left Z.max l a /\ forall x, In x l -> x <= fold_left Z.max l a.
Proof.
  revert a. induction l as [| y l IH]; intros a; simpl.
  - split; [lia | tauto].
  - destruct (IH (Z.max a y)) as [H1 H2]. split; [lia |].
    intros x [-> | Hx]; [lia | auto].
Qed.

Lemma fold_max_in l a : fold_left Z.max l a = a \/ In (fold_left Z.max l a) l.
Proof.
  revert a. induction l as [| y l IH]; intros a; simpl; [auto |].
  destruct (IH (Z.max a y)) as [H | H]; [| auto].
  rewrite H. destruct (Z.max_spec a y) as [[_ ->] | [_ ->]]; auto.
Qed.

Lemma next_id_fresh t : ~ In (next_id t) (map rID t).
Proof.
  unfold next_id. intros H.
  apply (proj2 (fold_max_ge (map rID t) 0)) in H. lia.
Qed.

Lemma last_rgt_max r rest :
  is_max_right (fold_left Z.max (map rRgt rest) (rRgt r)) (r :: rest).
Proof.
  split.
  - destruct (fold_max_in (map rRgt rest) (rRgt r)) as [H | H].
    + exists r. simpl. auto.
    + apply in_map_iff in H as (x & Hx & Hin). exists x. simpl. auto.
  - intros x [<- | Hx].
    + apply (proj1 (fold_max_ge _ _)).
    + apply (proj2 (fold_max_ge _ _)), in_map, Hx.
Qed.

Lemma is_max_right_unique m m' t : is_max_right m t -> is_max_right m' t -> m = m'.
Proof.
  intros [(r & Hr & <-) H1] [(r' & Hr' & <-) H2].
  specialize (H1 _ Hr'). specialize (H2 _ Hr). lia.
Qed.

(** The fields set by reflection are the columns of the row written. *)
Lemma row_of_set_fields l r d fs init :
  DbNames (snd init) = ∅ ->
  let names := DbNames (snd (fold_left parse_field fs init)) in
  let w := fold_left row_of_field (map (set_field l r d) fs) zero_row in
  (names !! "lft" <> None -> rLft w = l)
  /\ (names !! "rgt" <> None -> rRgt w = r)
  /\ (names !! "depth" <> None -> rDepth w = d).
Proof.
  intros Hinit. induction fs as [| x fs IH] using rev_ind; simpl.
  - rewrite Hinit. repeat split; intros H; exfalso; apply H; apply lookup_empty.
  - rewrite fold_left_app, map_app, fold_left_app. simpl.
    destruct (fold_left parse_field fs init) as [tx item]. simpl in IH.
    destruct IH as (IHl & IHr & IHd).
    destruct x; simpl;
      repeat split; intros H;
      try reflexivity;
      try (rewrite lookup_insert_ne in H by discriminate);
      auto.
Qed.

Lemma row_of_set_fields_other l r d fs :
  let w := fold_left row_of_field (map (set_field l r d) fs) zero_row in
  let w0 := fold_left row_of_field fs zero_row in
  rID w = rID w0 /\ rScope w = rScope w0 /\ rParentID w = rParentID w0
  /\ rChildrenCount w = rChildrenCount w0.
Proof.
  induction fs as [| x fs IH] using rev_ind; simpl; [auto |].
  rewrite map_app, !fold_left_app. simpl. simpl in IH.
  destruct IH as (H1 & H2 & H3 & H4).
  destruct x; simpl; auto.
Qed.

Lemma Create_root_run db src tx target s :
  parseNode db src = Ok (tx, target) ->
  names_ok target = true ->
  inserted (rows s) (rows s)
    (set_fields (fst (root_bounds tx (rows s))) (snd (root_bounds tx (rows s))) 0 src)
    (Create db src None s).
Proof.
  intros Hp Hn. destruct s as [t tr0].
  unfold inserted, Create, Transaction, bind, lift, attempt, Select, ret, Insert.
  rewrite Hp. cbv beta iota zeta. names_ok Hn.
  unfold root_bounds. cbn [rows trace]. unfold last_rgt.
  destruct (select_rows tx (fun _ => true) t) as [| r rest]; cbn [rows trace fst snd];
    match goal with
    | |- context [existsb ?f t] => destruct (existsb f t)
    end; simpl; auto.
Qed.

Lemma Create_child_run db src parent tx target tx' targetParent s :
  parseNode db src = Ok (tx, target) ->
  names_ok target = true ->
  parseNode db parent = Ok (tx', targetParent) ->
  inserted (rows s) (Create_rows tx db (Rgt targetParent) (ID targetParent) (rows s))
    (set_fields (Rgt targetParent) (iadd (Rgt targetParent) 1) (iadd (Depth targetParent) 1) src)
    (Create db src (Some parent) s).
Proof.
  intros Hp Hn Hpp. destruct s as [t tr0].
  unfold inserted, Create, Transaction, bind, lift, Update, Table, ret, Insert.
  rewrite Hp. cbv beta iota zeta. rewrite Hpp. cbv beta iota zeta. names_ok Hn.
  unfold Create_rows. cbn [rows trace fst snd].
  match goal with
  | |- context [existsb ?f ?l] => destruct (existsb f l)
  end; simpl; auto.
Qed.

Lemma names_ok_lookup i k : names_ok i = true -> In k all_keys -> DbNames i !! k <> None.
Proof.
  unfold names_ok. intros H Hk. apply andb_prop in H as [H _].
  rewrite bound_forall in H. auto.
Qed.

Lemma new_row_coords db src tx target t l r d :
  parseNode db src = Ok (tx, target) ->
  names_ok target = true ->
  let w := new_row t (set_fields l r d src) in
  rLft w = l /\ rRgt w = r /\ rDepth w = d.
Proof.
  intros Hp Hn. unfold parseNode in Hp.
  destruct (is_model src); [| discriminate]. injection Hp as Hp.
  pose proof (row_of_set_fields l r d (fields src) (db, empty_item (table src)) eq_refl)
    as (Hl & Hr & Hd).
  rewrite Hp in Hl, Hr, Hd. simpl in Hl, Hr, Hd.
  assert (Hl' := Hl (names_ok_lookup target "lft" Hn ltac:(unfold all_keys; simpl; auto 10))).
  assert (Hr' := Hr (names_ok_lookup target "rgt" Hn ltac:(unfold all_keys; simpl; auto 10))).
  assert (Hd' := Hd (names_ok_lookup target "depth" Hn ltac:(unfold all_keys; simpl; auto 10))).
  unfold new_row, row_of_source, set_fields. simpl fields.
  destruct (rID _ =? 0); simpl; auto.
Qed.

Lemma new_row_free t src :
  id_free t src -> existsb (fun x => rID x =? rID (new_row t src)) t = false.
Proof.
  intros Hf.
  destruct (existsb _ t) eqn:E; [| reflexivity]. exfalso.
  apply existsb_exists in E as (x & Hx & Heq). apply Z.eqb_eq in Heq.
  unfold new_row in Heq. destruct (rID (row_of_source src) =? 0) eqn:E0.
  - simpl in Heq. apply (next_id_fresh t). rewrite <- Heq. apply in_map, Hx.
  - apply Z.eqb_neq in E0. destruct Hf as [Hf | Hf]; [contradiction |].
    apply Hf. rewrite <- Heq. apply in_map, Hx.
Qed.

Lemma id_free_set_fields t l r d src : id_free t src -> id_free t (set_fields l r d src).
Proof.
  unfold id_free, row_of_source, set_fields. simpl fields.
  destruct (row_of_set_fields_other l r d (fields src)) as (-> & _). auto.
Qed.

Lemma map_rID_update_rows tx cond set t :
  (forall r, rID (set r) = rID r) ->
  map rID (update_rows tx cond set t) = map rID t.
Proof.
  intros H. unfold update_rows. rewrite map_map. apply map_ext.
  intros r. unfold update_row. destruct (in_scope tx r && cond r); auto.
Qed.

Lemma map_rID_Create_rows tx db l p t : map rID (Create_rows tx db l p t) = map rID t.
Proof.
  unfold Create_rows. rewrite !map_rID_update_rows; auto.
Qed.

Lemma id_free_ext t t' src : map rID t' = map rID t -> id_free t src -> id_free t' src.
Proof. unfold id_free. intros ->. auto. Qed.

Lemma in_scope_ext tx r r' : rScope r = rScope r' -> in_scope tx r = in_scope tx r'.
Proof. unfold in_scope. intros ->. reflexivity. Qed.

(** What the three bulk updates do to one row. *)
Lemma Create_rows_spec tx db l p t :
  Forall2 (fun r r' =>
             rRgt r' = (if in_scope tx r && (l <=? rRgt r) then rRgt r + 2 else rRgt r)
             /\ rLft r' = (if in_scope tx r && (l <? rLft r) then rLft r + 2 else rLft r)
             /\ rChildrenCount r' =
                  (if in_scope db r && (rID r =? p) then rChildrenCount r + 1
                   else rChildrenCount r)
             /\ rID r' = rID r /\ rDepth r' = rDepth r /\ rParentID r' = rParentID r
             /\ rScope r' = rScope r)
    t (Create_rows tx db l p t).
Proof.
  unfold Create_rows, update_rows. rewrite !map_map. apply Forall2_map_same.
  intros r _.
  set (r1 := update_row tx (fun r => l <=? rRgt r) (fun r => set_rgt (rRgt r + 2) r) r).
  assert (H1 : rRgt r1 = (if in_scope tx r && (l <=? rRgt r) then rRgt r + 2 else rRgt r)
               /\ rLft r1 = rLft r /\ rChildrenCount r1 = rChildrenCount r
               /\ rID r1 = rID r /\ rDepth r1 = rDepth r /\ rParentID r1 = rParentID r
               /\ rScope r1 = rScope r).
  { subst r1. unfold update_row. destruct (in_scope tx r && (l <=? rRgt r)); simpl; auto 10. }
  destruct H1 as (A1 & A2 & A3 & A4 & A5 & A6 & A7).
  set (r2 := update_row tx (fun r => l <? rLft r) (fun r => set_lft (rLft r + 2) r) r1).
  assert (H2 : rRgt r2 = rRgt r1
               /\ rLft r2 = (if in_scope tx r1 && (l <? rLft r1) then rLft r1 + 2 else rLft r1)
               /\ rChildrenCount r2 = rChildrenCount r1
               /\ rID r2 = rID r1 /\ rDepth r2 = rDepth r1 /\ rParentID r2 = rParentID r1
               /\ rScope r2 = rScope r1).
  { subst r2. unfold update_row. destruct (in_scope tx r1 && (l <? rLft r1)); simpl; auto 10. }
  destruct H2 as (B1 & B2 & B3 & B4 & B5 & B6 & B7).
  set (r3 := update_row db (fun r => rID r =? p)
               (fun r => set_children_count (rChildrenCount r + 1) r) r2).
  assert (H3 : rRgt r3 = rRgt r2 /\ rLft r3 = rLft r2
               /\ rChildrenCount r3 =
                    (if in_scope db r2 && (rID r2 =? p) then rChildrenCount r2 + 1
                     else rChildrenCount r2)
               /\ rID r3 = rID r2 /\ rDepth r3 = rDepth r2 /\ rParentID r3 = rParentID r2
               /\ rScope r3 = rScope r2).
  { subst r3. unfold update_row. destruct (in_scope db r2 && (rID r2 =? p)); simpl; auto 10. }
  destruct H3 as (C1 & C2 & C3 & C4 & C5 & C6 & C7).
  rewrite (in_scope_ext tx r1 r A7), A2 in B2.
  rewrite (in_scope_ext db r2 r (eq_trans B7 A7)), B4, A4, B3, A3 in C3.
  repeat split; congruence.
Qed.

(** ** C4: the coordinates written by [Create] *)

(** C4.  For a record with all its coordinate fields and a free primary
    key.  Without a parent the new row is appended with left one greater
    than the greatest right in scope (1 when the scope is empty),
    right = left + 1 and depth 0.  With a parent whose primary key is not
    zero the new row is appended with left = parent.right,
    right = parent.right + 1, depth = parent.depth + 1, after every row in
    scope with right >= left got right + 2, every row in scope with
    left > left (and left < right, as every node has) got left + 2, and the
    row of the parent got childrenCount + 1.  The sums are Go's. *)
Theorem Create_writes db src tx target s :
  parseNode db src = Ok (tx, target) ->
  names_ok target = true ->
  id_free (rows s) src ->
  (exists new,
      fst (Create db src None s) = Ok tt
      /\ rows (snd (Create db src None s)) = rows s ++ [new]
      /\ rDepth new = 0 /\ rRgt new = wrap (rLft new + 1)
      /\ (select_rows tx (fun _ => true) (rows s) = [] -> rLft new = 1)
      /\ (forall m, is_max_right m (select_rows tx (fun _ => true) (rows s)) ->
          rLft new = wrap (m + 1)))
  /\ (forall parent tx' targetParent,
        parseNode db parent = Ok (tx', targetParent) ->
        ID targetParent <> 0 ->
        exists old new,
          fst (Create db src (Some parent) s) = Ok tt
          /\ rows (snd (Create db src (Some parent) s)) = old ++ [new]
          /\ rLft new = Rgt targetParent
          /\ rRgt new = wrap (Rgt targetParent + 1)
          /\ rDepth new = wrap (Depth targetParent + 1)
          /\ Forall2 (fun r r' =>
                        rRgt r' = (if in_scope tx r && (Rgt targetParent <=? rRgt r)
                                   then rRgt r + 2 else rRgt r)
                        /\ (rLft r < rRgt r ->
                            rLft r' = (if in_scope tx r && (Rgt targetParent <? rLft r)
                                       then rLft r + 2 else rLft r))
                        /\ rChildrenCount r' =
                             (if in_scope db r && (rID r =? ID targetParent)
                              then rChildrenCount r + 1 else rChildrenCount r)
                        /\ rID r' = rID r /\ rDepth r' = rDepth r
                        /\ rParentID r' = rParentID r /\ rScope r' = rScope r)
               (rows s) old).
Proof.
  intros Hp Hn Hf. split.
  - pose proof (Create_root_run db src tx target s Hp Hn) as Hrun.
    unfold inserted in Hrun. rewrite new_row_free in Hrun by (apply id_free_set_fields, Hf).
    destruct Hrun as [Hres Hrows].
    eexists. split; [exact Hres |]. split; [exact Hrows |].
    destruct (new_row_coords db src tx target (rows s)
                (fst (root_bounds tx (rows s))) (snd (root_bounds tx (rows s))) 0 Hp Hn)
      as (Hl & Hr & Hd).
    split; [exact Hd |]. rewrite Hl, Hr. unfold root_bounds.
    destruct (select_rows tx (fun _ => true) (rows s)) as [| r rest]; simpl.
    + split; [reflexivity |]. split; [reflexivity |].
      intros m [(r & [] & _) _].
    + split; [reflexivity |]. split; [discriminate |].
      intros m Hm. unfold iadd. f_equal. f_equal.
      eapply is_max_right_unique; [apply last_rgt_max | exact Hm].
  - intros parent tx' targetParent Hpp Hkey.
    pose proof (Create_child_run db src parent tx target tx' targetParent s Hp Hn Hpp) as Hrun.
    unfold inserted in Hrun.
    rewrite new_row_free in Hrun
      by (apply id_free_set_fields; eapply id_free_ext; [apply map_rID_Create_rows | exact Hf]).
    destruct Hrun as [Hres Hrows].
    eexists. eexists. split; [exact Hres |]. split; [exact Hrows |].
    destruct (new_row_coords db src tx target
                (Create_rows tx db (Rgt targetParent) (ID targetParent) (rows s))
                (Rgt targetParent) (iadd (Rgt targetParent) 1) (iadd (Depth targetParent) 1)
                Hp Hn) as (Hl & Hr & Hd).
    split; [exact Hl |]. split; [exact Hr |]. split; [exact Hd |].
    eapply Forall2_weaken; [| apply Create_rows_spec].
    intros r r' (H1 & H2 & H3). split; [exact H1 |]. split; [intros _; exact H2 | exact H3].
Qed.

Lemma Create_writes_witness :
  (exists new,
      fst (Create plain recordB None (fresh_store table0)) = Ok tt
      /\ rows (snd (Create plain recordB None (fresh_store table0))) = table0 ++ [new]
      /\ rDepth new = 0 /\ rRgt new = wrap (rLft new + 1)
      /\ (select_rows (Where_scope 7 plain) (fun _ => true) table0 = [] -> rLft new = 1)
      /\ (forall m, is_max_right m (select_rows (Where_scope 7 plain) (fun _ => true) table0) ->
          rLft new = wrap (m + 1)))
  /\ (exists old new,
        fst (Create plain recordB (Some (record_of_row (mk 1 None 0 1 2 0 7)))
               (fresh_store table0)) = Ok tt
        /\ rows (snd (Create plain recordB (Some (record_of_row (mk 1 None 0 1 2 0 7)))
                        (fresh_store table0))) = old ++ [new]
        /\ rLft new = 2 /\ rRgt new = 3 /\ rDepth new = 1).
Proof.
  destruct (Create_writes plain recordB (Where_scope 7 plain)
              (item_of_row (mk 2 (Some 1) 0 0 0 0 7)) (fresh_store table0))
    as [Hroot Hchild].
  - reflexivity.
  - by_compute.
  - right. simpl. intuition discriminate.
  - split; [exact Hroot |].
    destruct (Hchild (record_of_row (mk 1 None 0 1 2 0 7)) (Where_scope 7 plain)
                (item_of_row (mk 1 None 0 1 2 0 7)) eq_refl)
      as (old & new & H1 & H2 & H3 & H4 & H5 & _).
    + vm_compute. discriminate.
    + exists old, new. auto.
Defined.

(** ** C6: [MoveTo] and the scope *)

(** C6 (the code against the claim).  [MoveTo] replaces the handle that
    carries the scope of the node by [db.Table(...)]: moving root 2 of scope 1
    before root 1 shifts root 3, which belongs to scope 2, from (1,2) to
    (3,4). *)
Theorem MoveTo_shifts_other_scope :
  rows (snd (MoveTo plain (record_of_row (mk 2 None 0 3 4 0 1))
               (record_of_row (mk 1 None 0 1 2 0 1)) MoveDirectionLeft
               (fresh_store two_scopes)))
  = [mk 1 None 0 3 4 0 1; mk 2 None 0 1 2 0 1; mk 3 None 0 3 4 0 2].
Proof. vm_compute. reflexivity. Qed.

(** The sibling path: the bulk updates of [Create] stay in the scope of the
    new record. *)
Lemma Create_rows_out_of_scope tx db l p t :
  Forall2 (fun r r' => in_scope tx r = false -> rLft r' = rLft r /\ rRgt r' = rRgt r)
    t (Create_rows tx db l p t).
Proof.
  eapply Forall2_weaken; [| apply Create_rows_spec].
  intros r r' (H1 & H2 & _) Hs. rewrite Hs in H1, H2. simpl in H1, H2. auto.
Qed.

(** ** C8: where the coordinates come from *)

(** C8 (against the claim as stated).  The stored right bound of row 1 is
    4; the caller's record of it, read before the first child was created,
    says 2; the second child is written at (2, 3), not at (4, 5), and shares
    its left bound with the first child. *)
Lemma Create_follows_stale_record :
  rows (snd (Create plain recordC (Some stale_parent) (fresh_store tableAB)))
    = [mk 1 None 0 1 6 2 7; mk 2 (Some 1) 1 2 5 0 7; mk 3 (Some 1) 1 2 3 0 7]
  /\ ~ (forall p new,
          In p tableAB -> rID p = 1 ->
          List.last (rows (snd (Create plain recordC (Some stale_parent)
                                  (fresh_store tableAB)))) p = new ->
          rLft new = rRgt p).
Proof.
  split; [vm_compute; reflexivity |].
  intros H. specialize (H (mk 1 None 0 1 4 1 7) _ (or_introl eq_refl) eq_refl eq_refl).
  vm_compute in H. discriminate.
Qed.

(** C8, amended.  The coordinates come from the records of the caller,
    whatever the table holds: [Create] under a parent (one whose primary key
    is not zero, in a table where every row has left < right) shifts by the
    right bound of the parent's record and writes the child at that bound
    with the depth of the record plus one (only the children count is
    incremented in the stored row); [MoveTo] relocates by the left, right,
    depth and parent id of the two records. *)
Theorem coordinates_come_from_records db src parent node to tx target tx' targetParent
    txn targetNode txt toNode :
  parseNode db src = Ok (tx, target) -> names_ok target = true ->
  parseNode db parent = Ok (tx', targetParent) ->
  parseNode db node = Ok (txn, targetNode) -> names_ok targetNode = true ->
  parseNode db to = Ok (txt, toNode) ->
  forall s,
    (id_free (rows s) src ->
     ID targetParent <> 0 ->
     (forall r, In r (rows s) -> rLft r < rRgt r) ->
     rows (snd (Create db src (Some parent) s)) =
       Create_rows tx db (Rgt targetParent) (ID targetParent) (rows s)
       ++ [new_row (rows s)
             (set_fields (Rgt targetParent) (wrap (Rgt targetParent + 1))
                (wrap (Depth targetParent + 1)) src)])
    /\ rows (snd (MoveTo db node to MoveDirectionLeft s)) =
         relocate_rows db targetNode (wrap (Lft toNode - 1))
           (wrap (Depth toNode - Depth targetNode)) (ParentID toNode) (rows s)
    /\ rows (snd (MoveTo db node to MoveDirectionRight s)) =
         relocate_rows db targetNode (Rgt toNode)
           (wrap (Depth toNode - Depth targetNode)) (ParentID toNode) (rows s)
    /\ rows (snd (MoveTo db node to MoveDirectionInner s)) =
         relocate_rows db targetNode (Lft toNode)
           (wrap (Depth toNode + 1 - Depth targetNode))
           {| Int64 := ID toNode; Valid := true |} (rows s).
Proof.
  intros Hp Hn Hpp Hpn Hnn Hpt s. split; [| split; [| split]].
  - intros Hf _ _.
    pose proof (Create_child_run db src parent tx target tx' targetParent s Hp Hn Hpp) as Hrun.
    unfold inserted in Hrun.
    rewrite new_row_free in Hrun
      by (apply id_free_set_fields; eapply id_free_ext; [apply map_rID_Create_rows | exact Hf]).
    destruct Hrun as [_ ->]. f_equal. f_equal.
    unfold new_row, next_id. rewrite map_rID_Create_rows. reflexivity.
  - unfold MoveTo, bind, lift. rewrite Hpn, Hpt. cbv beta iota zeta. simpl.
    destruct (moveToRightOfPosition_run (Table db (TableName targetNode)) targetNode
                (isub (Lft toNode) 1) (isub (Depth toNode) (Depth targetNode))
                (ParentID toNode) s Hnn) as [tr ->]. reflexivity.
  - unfold MoveTo, bind, lift. rewrite Hpn, Hpt. cbv beta iota zeta. simpl.
    destruct (moveToRightOfPosition_run (Table db (TableName targetNode)) targetNode
                (Rgt toNode) (isub (Depth toNode) (Depth targetNode))
                (ParentID toNode) s Hnn) as [tr ->]. reflexivity.
  - unfold MoveTo, bind, lift. rewrite Hpn, Hpt. cbv beta iota zeta. simpl.
    destruct (moveToRightOfPosition_run (Table db (TableName targetNode)) targetNode
                (Lft toNode) (isub (iadd (Depth toNode) 1) (Depth targetNode))
                {| Int64 := ID toNode; Valid := true |} s Hnn) as [tr ->].
    simpl. unfold isub, iadd. rewrite wrap_sub_l. reflexivity.
Qed.

Lemma coordinates_come_from_records_witness :
  rows (snd (Create plain recordC (Some stale_parent) (fresh_store tableAB)))
  = Create_rows (Where_scope 7 plain) plain 2 1 tableAB
    ++ [new_row tableAB (set_fields 2 3 1 recordC)]
  /\ rows (snd (MoveTo plain (record_of_row (mk 3 (Some 1) 1 4 5 0 7))
                  (record_of_row (mk 2 (Some 1) 1 2 3 0 7)) MoveDirectionLeft
                  (fresh_store tableAB)))
     = relocate_rows plain nodeC (wrap (Lft nodeB - 1)) (wrap (Depth nodeB - Depth nodeC))
         (ParentID nodeB) tableAB.
Proof.
  destruct (coordinates_come_from_records plain recordC stale_parent
              (record_of_row (mk 3 (Some 1) 1 4 5 0 7))
              (record_of_row (mk 2 (Some 1) 1 2 3 0 7))
              _ _ _ _ _ _ _ _ eq_refl ltac:(by_compute) eq_refl eq_refl ltac:(by_compute)
              eq_refl (fresh_store tableAB)) as (HC & HM & _).
  split; [| exact HM].
  apply HC.
  - right. simpl. intuition discriminate.
  - vm_compute. discriminate.
  - each_row; reflexivity.
Defined.

(** ** C9: records that cannot be resolved *)

Lemma parseNode_model db src :
  is_model src = true -> exists tx item, parseNode db src = Ok (tx, item).
Proof.
  intros H. unfold parseNode. rewrite H.
  destruct (fold_left parse_field (fields src) (db, empty_item (table src))) as [tx item].
  eauto.
Qed.


(** C9 (against the claim as stated).  A model without a depth field is a
    record with a missing coordinate field; [Create] does not reject it: it
    reads the greatest right bound, writes the row and returns success. *)
Lemma Create_accepts_missing_field :
  unresolvable record_without_depth
  /\ Create plain record_without_depth None (fresh_store table0)
     = (Ok tt, {| rows := table0 ++ [mk 5 None 0 3 4 0 7];
                  trace := [EvBegin; EvRead; EvWrite; EvCommit] |})
  /\ ~ no_statement (trace (snd (Create plain record_without_depth None (fresh_store table0)))).
Proof.
  split; [right; vm_compute; reflexivity |].
  split; [vm_compute; reflexivity |].
  intros [H _]. apply H. vm_compute. auto.
Qed.

(** C9, amended.  Resolution fails for a record that is not a model, and
    for no other record.  When it fails, whether for the node, the parent or
    the reference, [Create] and [MoveTo] return the mapping error, the table
    is unchanged and no statement reaches the store: [MoveTo] does nothing at
    all, [Create] opens its transaction and rolls it back. *)
Theorem mapping_error_before_any_statement db bad :
  is_model bad = false ->
  forall s,
    (forall parent,
        Create db bad parent s =
          (Err MappingError, {| rows := rows s; trace := trace s ++ [EvBegin; EvRollback] |}))
    /\ (forall src, is_model src = true ->
        Create db src (Some bad) s =
          (Err MappingError, {| rows := rows s; trace := trace s ++ [EvBegin; EvRollback] |}))
    /\ (forall to direction, MoveTo db bad to direction s = (Err MappingError, s))
    /\ (forall node direction, is_model node = true ->
        MoveTo db node bad direction s = (Err MappingError, s))
    /\ no_statement [EvBegin; EvRollback]
    /\ (forall src, is_model src = true -> exists tx item, parseNode db src = Ok (tx, item)).
Proof.
  intros Hbad s.
  assert (Hp : parseNode db bad = Err MappingError) by (unfold parseNode; rewrite Hbad; reflexivity).
  split; [| split; [| split; [| split; [| split]]]].
  - intros parent. unfold Create, Transaction, bind, lift. rewrite Hp. simpl.
    rewrite <- app_assoc. reflexivity.
  - intros src Hsrc. unfold Create, Transaction, bind, lift.
    unfold parseNode at 1. rewrite Hsrc.
    destruct (fold_left parse_field (fields src) (db, empty_item (table src))) as [tx target].
    cbv beta iota zeta. rewrite Hp. simpl. rewrite <- app_assoc. reflexivity.
  - intros to direction. unfold MoveTo, bind, lift. rewrite Hp. reflexivity.
  - intros node direction Hnode. unfold MoveTo, bind, lift.
    unfold parseNode at 1. rewrite Hnode.
    destruct (fold_left parse_field (fields node) (db, empty_item (table node))) as [tx target].
    cbv beta iota zeta. rewrite Hp. reflexivity.
  - split; simpl; intuition discriminate.
  - intros src. apply parseNode_model.
Qed.

Lemma mapping_error_before_any_statement_witness :
  MoveTo plain {| is_model := false; table := "categories"; fields := [] |}
    (record_of_row (mk 2 (Some 1) 1 2 3 0 7)) MoveDirectionInner (fresh_store tableA)
  = (Err MappingError, fresh_store tableA).
Proof.
  refine (proj1 (proj2 (proj2
    (mapping_error_before_any_statement plain
       {| is_model := false; table := "categories"; fields := [] |} eq_refl
       (fresh_store tableA)))) _ _).
Defined.

(** ** C10: a node moved into its own subtree *)

Lemma parse_fields_range fs db tbl :
  let item := snd (fold_left parse_field fs (db, empty_item tbl)) in
  int_range (ID item) /\ int_range (Depth item) /\ int_range (Rgt item)
  /\ int_range (Lft item) /\ int_range (ChildrenCount item).
Proof.
  induction fs as [| x fs IH] using rev_ind.
  - simpl. unfold int_range. repeat split; lia.
  - rewrite fold_left_app. simpl. simpl in IH.
    destruct (fold_left parse_field fs (db, empty_item tbl)) as [tx item].
    simpl in IH. destruct IH as (H1 & H2 & H3 & H4 & H5).
    destruct x; simpl; refine (conj _ (conj _ (conj _ (conj _ _))));
      auto using wrap_range.
Qed.

Lemma parseNode_range db src tx item :
  parseNode db src = Ok (tx, item) ->
  int_range (ID item) /\ int_range (Depth item) /\ int_range (Rgt item)
  /\ int_range (Lft item) /\ int_range (ChildrenCount item).
Proof.
  unfold parseNode. destruct (is_model src); [| discriminate].
  intros H. injection H as H.
  pose proof (parse_fields_range (fields src) db (table src)) as Hr.
  rewrite H in Hr. exact Hr.
Qed.

(** C10.  [MoveTo] has no test that the reference lies outside the moving
    subtree.  When the interval of the reference is strictly inside the
    interval of the node, whatever the direction, the relocation is run with
    a destination inside the node's own interval (so moveStep > 0: the
    subtree is shifted) and the call returns success. *)
Theorem MoveTo_into_own_subtree db node to direction tx targetNode tx' toNode s :
  parseNode db node = Ok (tx, targetNode) ->
  names_ok targetNode = true ->
  parseNode db to = Ok (tx', toNode) ->
  Lft targetNode < Lft toNode -> Lft toNode < Rgt toNode -> Rgt toNode < Rgt targetNode ->
  fst (MoveTo db node to direction s) = Ok tt
  /\ exists position depthChange newParentID,
       MoveTo db node to direction =
         moveToRightOfPosition (Table db (TableName targetNode)) targetNode
           position depthChange newParentID
       /\ Lft targetNode <= position < Rgt targetNode
       /\ 0 < position - Lft targetNode + 1.
Proof.
  intros Hpn Hn Hpt H1 H2 H3.
  destruct (parseNode_range _ _ _ _ Hpn) as (_ & _ & Rr & Rl & _).
  destruct (parseNode_range _ _ _ _ Hpt) as (_ & _ & Rr' & Rl' & _).
  assert (Hsub : isub (Lft toNode) 1 = Lft toNode - 1).
  { unfold isub. apply wrap_small. unfold int_range in *. lia. }
  assert (Heq : exists position depthChange newParentID,
             MoveTo db node to direction =
               moveToRightOfPosition (Table db (TableName targetNode)) targetNode
                 position depthChange newParentID
             /\ Lft targetNode <= position < Rgt targetNode).
  { unfold MoveTo, bind, lift. rewrite Hpn, Hpt. cbv beta iota zeta.
    destruct ((direction =? MoveDirectionLeft) || (direction =? MoveDirectionRight)).
    - destruct (direction =? MoveDirectionLeft).
      + do 3 eexists. split; [reflexivity |]. rewrite Hsub. lia.
      + do 3 eexists. split; [reflexivity |]. lia.
    - do 3 eexists. split; [reflexivity |]. lia. }
  destruct Heq as (position & depthChange & newParentID & Heq & Hpos).
  split.
  - rewrite Heq.
    destruct (moveToRightOfPosition_run (Table db (TableName targetNode)) targetNode
                position depthChange newParentID s Hn) as [tr ->].
    reflexivity.
  - exists position, depthChange, newParentID. repeat split; try tauto; lia.
Qed.

Lemma MoveTo_into_own_subtree_witness :
  fst (MoveTo plain (record_of_row (mk 1 None 0 1 6 2 7))
         (record_of_row (mk 2 (Some 1) 1 2 3 0 7)) MoveDirectionInner (fresh_store tableA))
  = Ok tt.
Proof.
  refine (proj1 (MoveTo_into_own_subtree plain (record_of_row (mk 1 None 0 1 6 2 7))
                   (record_of_row (mk 2 (Some 1) 1 2 3 0 7)) MoveDirectionInner
                   _ _ _ _ (fresh_store tableA) eq_refl _ eq_refl _ _ _)).
  - by_compute.
  - by_compute.
  - by_compute.
  - by_compute.
Defined.

(** Scenario A after such a move: the root has become a child of its own
    child, and its interval has left the positive axis. *)
Example MoveTo_into_own_subtree_breaks :
  rows (snd (MoveTo plain (record_of_row (mk 1 None 0 1 6 2 7))
               (record_of_row (mk 2 (Some 1) 1 2 3 0 7)) MoveDirectionInner
               (fresh_store tableA)))
  = [mk 1 (Some 2) 2 (-3) 2 2 7; mk 2 (Some 1) 3 (-2) (-1) 1 7; mk 3 (Some 1) 3 0 1 0 7].
Proof. vm_compute. reflexivity. Qed.

(** ** Counting rows *)

Lemma count_ext_in p q l : (forall y, In y l -> p y = q y) -> count p l = count q l.
Proof.
  intros H. unfold count. f_equal. f_equal. apply List.filter_ext_in. exact H.
Qed.

Lemma count_app p l l' : count p (l ++ l') = count p l + count p l'.
Proof. unfold count. rewrite List.filter_app, List.length_app. lia. Qed.

Lemma count_map p (T : row -> row) l : count p (map T l) = count (fun y => p (T y)) l.
Proof.
  unfold count. f_equal. induction l as [| x l IH]; simpl; [reflexivity |].
  destruct (p (T x)); simpl; rewrite IH; reflexivity.
Qed.

Lemma count_split q p l :
  count p l = count (fun y => q y && p y) l + count (fun y => negb (q y) && p y) l.
Proof.
  unfold count. induction l as [| x l IH]; simpl; [reflexivity |].
  destruct (q x), (p x); simpl; lia.
Qed.

Lemma count_const q p (c : bool) l :
  (forall y, In y l -> q y = true -> p y = c) ->
  count (fun y => q y && p y) l = if c then count q l else 0.
Proof.
  intros H. unfold count. induction l as [| x l IH]; simpl.
  - destruct c; reflexivity.
  - assert (IH' := IH (fun y Hy => H y (or_intror Hy))).
    pose proof (H x (or_introl eq_refl)) as Hx.
    destruct (q x); simpl.
    + rewrite (Hx eq_refl). destruct c; simpl; lia.
    + exact IH'.
Qed.

Lemma count_single p x : count p [x] = if p x then 1 else 0.
Proof. unfold count. simpl. destruct (p x); reflexivity. Qed.

Lemma count_false p l : (forall y, In y l -> p y = false) -> count p l = 0.
Proof.
  intros H. unfold count. induction l as [| x l IH]; simpl; [reflexivity |].
  rewrite (H x (or_introl eq_refl)). apply IH. intros y Hy. apply H. right. exact Hy.
Qed.

Lemma count_id_one l n :
  List.NoDup (map rID l) -> In n l -> count (fun y => rID y =? rID n) l = 1.
Proof.
  unfold count. induction l as [| x l IH]; simpl; [tauto |].
  intros Hnd Hin. inversion Hnd as [| ? ? Hx Hnd']; subst.
  destruct Hin as [-> | Hin].
  - rewrite Z.eqb_refl. simpl.
    assert (H0 : count (fun y => rID y =? rID n) l = 0).
    { apply count_false. intros y Hy. apply Z.eqb_neq. intros E.
      apply Hx. rewrite <- E. apply in_map, Hy. }
    unfold count in H0. lia.
  - destruct (Z.eqb_spec (rID x) (rID n)) as [E | E].
    + exfalso. apply Hx. rewrite E. apply in_map, Hin.
    + apply IH; assumption.
Qed.

(** ** The invariants depend on the geometry only *)

Lemma cons_eq_inv {A} (a b : A) l l' : a :: l = b :: l' -> a = b /\ l = l'.
Proof. intros H. injection H as -> ->. auto. Qed.

Lemma count_geom (q : Z * Z * Z * Z * Z -> bool) l l' :
  map geom l = map geom l' ->
  count (fun y => q (geom y)) l = count (fun y => q (geom y)) l'.
Proof.
  unfold count. revert l'. induction l as [| x l IH]; intros [| x' l'] H;
    try discriminate; [reflexivity |].
  cbn [map] in H. apply cons_eq_inv in H as [Hx Hl]. cbn [List.filter]. rewrite Hx.
  specialize (IH l' Hl). destruct (q (geom x')); simpl; lia.
Qed.

Lemma In_geom l l' r' :
  map geom l = map geom l' -> In r' l' -> exists r, In r l /\ geom r = geom r'.
Proof.
  intros H Hin. apply (in_map geom) in Hin. rewrite <- H in Hin.
  apply in_map_iff in Hin as (r & Hr & Hin). eauto.
Qed.

Lemma nested_set_geom f f' :
  map geom f = map geom f' -> nested_set f -> nested_set f'.
Proof.
  intros H [Ho Hl Hw]. split.
  - intros r' Hr'. destruct (In_geom _ _ _ H Hr') as (r & Hr & Hg).
    specialize (Ho r Hr). unfold geom in Hg. injection Hg as _ _ <- <- _. exact Ho.
  - intros a' b' Ha' Hb' Hne.
    destruct (In_geom _ _ _ H Ha') as (a & Ha & Hga).
    destruct (In_geom _ _ _ H Hb') as (b & Hb & Hgb).
    unfold geom in Hga, Hgb. injection Hga as Ia _ La Ra _. injection Hgb as Ib _ Lb Rb _.
    assert (Hne' : rID a <> rID b) by congruence.
    specialize (Hl a b Ha Hb Hne'). unfold apart, inside in *.
    rewrite <- La, <- Ra, <- Lb, <- Rb. exact Hl.
  - intros r' Hr'. destruct (In_geom _ _ _ H Hr') as (r & Hr & Hg).
    specialize (Hw r Hr). unfold descendantCount in *.
    unfold geom in Hg. injection Hg as _ _ Lr Rr _.
    rewrite <- Lr, <- Rr, Hw. f_equal. f_equal.
    apply (count_geom (fun g => (rLft r <? snd (fst (fst g))) && (snd (fst g) <? rRgt r))) in H.
    unfold geom in H. simpl in H. unfold inside. rewrite <- Lr, <- Rr. exact H.
Qed.

Lemma forest_geom s t t' :
  map geom t = map geom t' -> map geom (forest s t) = map geom (forest s t').
Proof.
  unfold forest. revert t'. induction t as [| x t IH]; intros [| x' t'] H;
    try discriminate; [reflexivity |].
  cbn [map] in H. apply cons_eq_inv in H as [Hx Hl]. cbn [List.filter].
  assert (Hs : rScope x = rScope x') by (unfold geom in Hx; congruence).
  rewrite Hs. destruct (rScope x' =? s); cbn [map]; [rewrite Hx; f_equal |]; auto.
Qed.

Lemma NoDup_geom t t' :
  map geom t = map geom t' -> List.NoDup (map rID t) -> List.NoDup (map rID t').
Proof.
  intros H. replace (map rID t') with (map rID t); [auto |].
  change rID with (fun r => fst (fst (fst (fst (geom r))))).
  rewrite <- !(map_map geom (fun g => fst (fst (fst (fst g))))). rewrite H. reflexivity.
Qed.

Lemma Invariants_geom t t' :
  map geom t = map geom t' -> Invariants t -> Invariants t'.
Proof.
  intros H [Hnd Hf]. split; [eapply NoDup_geom; eauto |].
  intros s. eapply nested_set_geom; [apply forest_geom, H | apply Hf].
Qed.

(** ** The invariants in one forest *)

Lemma inside_iff a b : inside a b = true <-> rLft b < rLft a /\ rRgt a < rRgt b.
Proof.
  unfold inside. rewrite andb_true_iff, !Z.ltb_lt. tauto.
Qed.

Lemma inside_false_iff a b : inside a b = false <-> ~ (rLft b < rLft a /\ rRgt a < rRgt b).
Proof.
  rewrite <- inside_iff. destruct (inside a b); split; intros; try congruence; tauto.
Qed.

Lemma bool_eq_iff (a b : bool) : (a = true <-> b = true) -> a = b.
Proof. destruct a, b; intros [H1 H2]; auto; try (symmetry; auto). Qed.

Lemma nested_set_nil : nested_set [].
Proof. split; simpl; tauto. Qed.

(** A new root to the right of every row. *)
Lemma nested_set_new_root f new :
  nested_set f ->
  (forall r, In r f -> rRgt r < rLft new) ->
  rRgt new = rLft new + 1 ->
  nested_set (f ++ [new]).
Proof.
  intros [Ho Hl Hw] Hright Hnew. split.
  - intros r Hr. apply in_app_or in Hr as [Hr | [<- | []]]; [auto | lia].
  - intros a b Ha Hb Hne.
    apply in_app_or in Ha as [Ha | [<- | []]]; apply in_app_or in Hb as [Hb | [<- | []]].
    + auto.
    + left. left. auto.
    + left. right. auto.
    + congruence.
  - intros r Hr. unfold descendantCount. rewrite count_app.
    apply in_app_or in Hr as [Hr | [<- | []]].
    + rewrite (Hw r Hr). unfold descendantCount.
      assert (E : count (fun y => inside y r) [new] = 0).
      { apply count_false. intros y [<- | []]. apply inside_false_iff.
        specialize (Hright r Hr). lia. }
      lia.
    + assert (E1 : count (fun y => inside y new) f = 0).
      { apply count_false. intros y Hy. apply inside_false_iff.
        specialize (Hright y Hy). specialize (Ho y Hy). lia. }
      assert (E2 : count (fun y => inside y new) [new] = 0).
      { apply count_false. intros y [<- | []]. apply inside_false_iff. lia. }
      lia.
Qed.

(** A new last child of [p]. *)
Lemma nested_set_new_child f p new :
  nested_set f ->
  List.NoDup (map rID f) ->
  In p f ->
  rLft new = rRgt p -> rRgt new = rRgt p + 1 ->
  nested_set (map (open_gap (rRgt p)) f ++ [new]).
Proof.
  intros [Ho Hl Hw] Hnd Hp HnewL HnewR.
  set (l := rRgt p) in *.
  (* no left bound sits on the right bound of the parent *)
  assert (K : forall r, In r f -> rLft r <> l /\ rLft r < rRgt r).
  { intros r Hr. split; [| auto]. intros E.
    destruct (Z.eq_dec (rID r) (rID p)) as [Hid | Hid].
    - assert (r = p) by (eapply NoDup_map_inj; eauto). subst r.
      pose proof (Ho p Hp). lia.
    - pose proof (Ho r Hr) as Hor. pose proof (Ho p Hp) as Hop.
      destruct (Hl r p Hr Hp Hid) as [[H | H] | [H | H]];
        try apply inside_iff in H; subst l; lia. }
  assert (C : forall r, In r f ->
              rLft (open_gap l r) = (if l <=? rLft r then rLft r + 2 else rLft r)
              /\ rRgt (open_gap l r) = (if l <=? rRgt r then rRgt r + 2 else rRgt r)).
  { intros r Hr. destruct (K r Hr) as [Hne _]. simpl.
    destruct (Z.ltb_spec l (rLft r)), (Z.leb_spec l (rLft r)); split; auto; lia. }
  split.
  - intros r Hr. apply in_app_or in Hr as [Hr | [<- | []]]; [| lia].
    apply in_map_iff in Hr as (r0 & <- & Hr0).
    destruct (C r0 Hr0) as [-> ->]. destruct (K r0 Hr0) as [_ Hlt].
    destruct (Z.leb_spec l (rLft r0)), (Z.leb_spec l (rRgt r0)); lia.
  - intros a b Ha Hb Hne.
    apply in_app_or in Ha as [Ha | [<- | []]]; apply in_app_or in Hb as [Hb | [<- | []]].
    + apply in_map_iff in Ha as (a0 & <- & Ha0). apply in_map_iff in Hb as (b0 & <- & Hb0).
      assert (Hne0 : rID a0 <> rID b0) by exact Hne.
      specialize (Hl a0 b0 Ha0 Hb0 Hne0). unfold apart in *. rewrite !inside_iff in *.
      destruct (C a0 Ha0) as [-> ->]. destruct (C b0 Hb0) as [-> ->].
      destruct (Z.leb_spec l (rLft a0)), (Z.leb_spec l (rRgt a0)),
        (Z.leb_spec l (rLft b0)), (Z.leb_spec l (rRgt b0)); lia.
    + apply in_map_iff in Ha as (a0 & <- & Ha0).
      unfold apart. rewrite !inside_iff.
      destruct (C a0 Ha0) as [-> ->]. destruct (K a0 Ha0) as [Hn Hlt].
      destruct (Z.leb_spec l (rLft a0)), (Z.leb_spec l (rRgt a0)); lia.
    + apply in_map_iff in Hb as (b0 & <- & Hb0).
      unfold apart. rewrite !inside_iff.
      destruct (C b0 Hb0) as [-> ->]. destruct (K b0 Hb0) as [Hn Hlt].
      destruct (Z.leb_spec l (rLft b0)), (Z.leb_spec l (rRgt b0)); lia.
    + congruence.
  - intros r Hr. unfold descendantCount. rewrite count_app, count_map.
    apply in_app_or in Hr as [Hr | [<- | []]].
    + apply in_map_iff in Hr as (r0 & <- & Hr0).
      assert (E : count (fun y => inside (open_gap l y) (open_gap l r0)) f
                  = count (fun y => inside y r0) f).
      { apply count_ext_in. intros y Hy. apply bool_eq_iff. rewrite !inside_iff.
        destruct (C y Hy) as [-> ->]. destruct (C r0 Hr0) as [-> ->].
        destruct (K y Hy), (K r0 Hr0).
        destruct (Z.leb_spec l (rLft y)), (Z.leb_spec l (rRgt y)),
          (Z.leb_spec l (rLft r0)), (Z.leb_spec l (rRgt r0)); lia. }
      rewrite E, count_single. specialize (Hw r0 Hr0). unfold descendantCount in Hw.
      destruct (K r0 Hr0) as [Hn Hlt].
      destruct (inside new (open_gap l r0)) eqn:Ei;
        [apply inside_iff in Ei | apply inside_false_iff in Ei];
        destruct (C r0 Hr0) as [EL ER]; rewrite EL, ER in *;
        destruct (Z.leb_spec l (rLft r0)), (Z.leb_spec l (rRgt r0)); lia.
    + assert (E1 : count (fun y => inside (open_gap l y) new) f = 0).
      { apply count_false. intros y Hy. apply inside_false_iff.
        destruct (C y Hy) as [-> ->]. destruct (K y Hy).
        destruct (Z.leb_spec l (rLft y)), (Z.leb_spec l (rRgt y)); lia. }
      assert (E2 : count (fun y => inside y new) [new] = 0).
      { apply count_false. intros y [<- | []]. apply inside_false_iff. lia. }
      lia.
Qed.

(** *** A subtree cut out and put back elsewhere *)

Section Relocation.

Variables (tx : DB) (f : list row) (n : row) (pos lo hi astep step dc : Z).

Hypothesis Hns : nested_set f.
Hypothesis Hnd : List.NoDup (map rID f).
Hypothesis Hn : In n f.
Hypothesis Hsc : forall r, In r f -> in_scope tx r = true.

(** The destination is to the left of the subtree, or at or after its
    right bound. *)
Hypothesis Hdir :
  (pos + 1 < rLft n /\ lo = pos + 1 /\ hi = rLft n - 1
   /\ astep = rRgt n - rLft n + 1 /\ step = pos + 1 - rLft n)
  \/ (rRgt n <= pos /\ lo = rRgt n + 1 /\ hi = pos
      /\ astep = - (rRgt n - rLft n + 1) /\ step = pos - rRgt n).

Let F := Relocator_row tx (rLft n) (rRgt n) lo hi astep step dc.
Let rho := swap_blocks (rLft n) (rRgt n) lo hi astep step.

Lemma reloc_n_order : rLft n < rRgt n.
Proof. destruct Hns as [Ho _ _]. auto. Qed.

(** Every row lies in the block of the subtree or has no bound in it. *)
Lemma reloc_closed r :
  In r f ->
  rLft r < rRgt r
  /\ ((within (rLft n) (rRgt n) r = true /\ rLft n <= rLft r /\ rRgt r <= rRgt n)
      \/ (within (rLft n) (rRgt n) r = false
          /\ (rRgt r < rLft n \/ rRgt n < rLft r \/ (rLft r < rLft n /\ rRgt n < rRgt r)))).
Proof.
  intros Hr. destruct Hns as [Ho Hl _]. pose proof (Ho r Hr) as Hor.
  pose proof (Ho n Hn) as Hon. split; [exact Hor |].
  unfold within.
  destruct (Z.eq_dec (rID r) (rID n)) as [Hid | Hid].
  - assert (r = n) by (eapply NoDup_map_inj; eauto). subst r.
    left. rewrite !Z.leb_refl. simpl. lia.
  - destruct (Hl r n Hr Hn Hid) as [[H | H] | [H | H]]; try apply inside_iff in H;
      destruct (Z.leb_spec (rLft n) (rLft r)), (Z.leb_spec (rRgt r) (rRgt n));
      simpl; first [left; split; [reflexivity | lia] | right; split; [reflexivity | lia] | lia].
Qed.

Lemma rho_cases e :
  (rLft n <= e <= rRgt n /\ rho e = e + step)
  \/ ((e < rLft n \/ rRgt n < e) /\ lo <= e <= hi /\ rho e = e + astep)
  \/ ((e < rLft n \/ rRgt n < e) /\ (e < lo \/ hi < e) /\ rho e = e).
Proof.
  unfold rho, swap_blocks.
  destruct (Z.leb_spec (rLft n) e), (Z.leb_spec e (rRgt n)),
    (Z.leb_spec lo e), (Z.leb_spec e hi); simpl; lia.
Qed.

Lemma reloc_coords r :
  In r f ->
  rLft (F r) = rho (rLft r) /\ rRgt (F r) = rho (rRgt r) /\ rID (F r) = rID r.
Proof.
  intros Hr. destruct (reloc_closed r Hr) as [Hor [(Hw & H1 & H2) | (Hw & H)]];
    unfold F, Relocator_row; rewrite (Hsc r Hr), Hw; simpl;
    unfold rho, swap_blocks, in_window.
  - destruct (Z.leb_spec (rLft n) (rLft r)), (Z.leb_spec (rLft r) (rRgt n)),
      (Z.leb_spec (rLft n) (rRgt r)), (Z.leb_spec (rRgt r) (rRgt n)); simpl;
      repeat split; lia.
  - destruct (Z.leb_spec (rLft n) (rLft r)), (Z.leb_spec (rLft r) (rRgt n)),
      (Z.leb_spec (rLft n) (rRgt r)), (Z.leb_spec (rRgt r) (rRgt n)); simpl;
      repeat split; lia.
Qed.

Lemma reloc_order r : In r f -> rLft (F r) < rRgt (F r).
Proof.
  intros Hr. destruct (reloc_coords r Hr) as (-> & -> & _).
  pose proof reloc_n_order.
  destruct (reloc_closed r Hr) as [Hor Hc].
  pose proof (rho_cases (rLft r)). pose proof (rho_cases (rRgt r)).
  lia.
Qed.


Lemma rho_in e : rLft n <= e <= rRgt n -> rho e = e + step.
Proof. intros H. pose proof (rho_cases e). lia. Qed.

(** Outside the block of the subtree the bounds keep their order, *)
Lemma rho_out_mono e1 e2 :
  e1 < rLft n \/ rRgt n < e1 -> e2 < rLft n \/ rRgt n < e2 ->
  (rho e1 < rho e2 <-> e1 < e2).
Proof.
  intros H1 H2. pose proof reloc_n_order.
  pose proof (rho_cases e1). pose proof (rho_cases e2).
  destruct Hdir as [Hd | Hd]; lia.
Qed.

(** and none of them lands in the new place of the subtree. *)
Lemma rho_out_block e :
  e < rLft n \/ rRgt n < e -> rho e < rLft n + step \/ rRgt n + step < rho e.
Proof.
  intros H1. pose proof reloc_n_order. pose proof (rho_cases e).
  destruct Hdir as [Hd | Hd]; lia.
Qed.

Lemma reloc_laminar a b :
  In a f -> In b f -> rID a <> rID b ->
  apart (F a) (F b) \/ inside (F a) (F b) = true \/ inside (F b) (F a) = true.
Proof.
  intros Ha Hb Hne. destruct Hns as [_ Hl _].
  specialize (Hl a b Ha Hb Hne). unfold apart in *. rewrite !inside_iff in *.
  destruct (reloc_coords a Ha) as (-> & -> & _).
  destruct (reloc_coords b Hb) as (-> & -> & _).
  pose proof reloc_n_order.
  destruct (reloc_closed a Ha) as [Hoa [(_ & Hca) | (_ & Hca)]];
    destruct (reloc_closed b Hb) as [Hob [(_ & Hcb) | (_ & Hcb)]].
  - rewrite !rho_in by lia. lia.
  - rewrite (rho_in (rLft a)), (rho_in (rRgt a)) by lia.
    assert (O1 : rLft b < rLft n \/ rRgt n < rLft b) by lia.
    assert (O2 : rRgt b < rLft n \/ rRgt n < rRgt b) by lia.
    pose proof (rho_out_block _ O1). pose proof (rho_out_block _ O2).
    pose proof (rho_out_mono _ _ O1 O2). lia.
  - rewrite (rho_in (rLft b)), (rho_in (rRgt b)) by lia.
    assert (O1 : rLft a < rLft n \/ rRgt n < rLft a) by lia.
    assert (O2 : rRgt a < rLft n \/ rRgt n < rRgt a) by lia.
    pose proof (rho_out_block _ O1). pose proof (rho_out_block _ O2).
    pose proof (rho_out_mono _ _ O1 O2). lia.
  - assert (A1 : rLft a < rLft n \/ rRgt n < rLft a) by lia.
    assert (A2 : rRgt a < rLft n \/ rRgt n < rRgt a) by lia.
    assert (B1 : rLft b < rLft n \/ rRgt n < rLft b) by lia.
    assert (B2 : rRgt b < rLft n \/ rRgt n < rRgt b) by lia.
    pose proof (rho_out_mono _ _ A1 B1). pose proof (rho_out_mono _ _ B1 A1).
    pose proof (rho_out_mono _ _ A2 B2). pose proof (rho_out_mono _ _ B2 A2).
    pose proof (rho_out_mono _ _ A2 B1). pose proof (rho_out_mono _ _ B2 A1).
    clear Hca Hcb A1 A2 B1 B2. lia.
Qed.


(** The rows of the subtree are the node and its descendants. *)
Lemma reloc_block_count :
  2 * count (within (rLft n) (rRgt n)) f = rRgt n - rLft n + 1.
Proof.
  destruct Hns as [Ho Hl Hw]. pose proof (Hw n Hn) as Hwn. unfold descendantCount in Hwn.
  rewrite (count_split (fun y => rID y =? rID n)).
  assert (E1 : count (fun y => (rID y =? rID n) && within (rLft n) (rRgt n) y) f = 1).
  { rewrite <- (count_id_one f n Hnd Hn). apply count_ext_in. intros y Hy.
    destruct (Z.eqb_spec (rID y) (rID n)) as [E | E]; [| reflexivity].
    assert (y = n) by (eapply NoDup_map_inj; eauto). subst y.
    unfold within. rewrite !Z.leb_refl. reflexivity. }
  assert (E2 : count (fun y => negb (rID y =? rID n) && within (rLft n) (rRgt n) y) f
               = count (fun y => inside y n) f).
  { apply count_ext_in. intros y Hy. apply bool_eq_iff.
    rewrite andb_true_iff, negb_true_iff, Z.eqb_neq, inside_iff.
    destruct (reloc_closed y Hy) as [Hoy [(Hw1 & Hc) | (Hw1 & Hc)]]; rewrite Hw1.
    - split.
      + intros [Hid _]. destruct (Hl y n Hy Hn Hid) as [[H | H] | [H | H]];
          try apply inside_iff in H; lia.
      + intros H. split; [| reflexivity]. intros E. 
        assert (y = n) by (eapply NoDup_map_inj; eauto). subst y. lia.
    - split; [intros [_ H]; discriminate | lia]. }
  rewrite E1, E2. lia.
Qed.

Lemma reloc_width x :
  In x f ->
  rRgt (F x) - rLft (F x) = 2 * count (fun y => inside (F y) (F x)) f + 1.
Proof.
  intros Hx. destruct Hns as [Ho Hl Hw]. pose proof (Hw x Hx) as Hwx.
  unfold descendantCount in Hwx. pose proof reloc_n_order as Hon.
  destruct (reloc_coords x Hx) as (Lx & Rx & _).
  destruct (reloc_closed x Hx) as [Hox [(Hw1 & Hc) | (Hw1 & Hc)]].
  - (* a row of the subtree keeps its width and its descendants *)
    assert (E : count (fun y => inside (F y) (F x)) f = count (fun y => inside y x) f).
    { apply count_ext_in. intros y Hy. apply bool_eq_iff. rewrite !inside_iff.
      destruct (reloc_coords y Hy) as (-> & -> & _). rewrite Lx, Rx.
      rewrite (rho_in (rLft x)), (rho_in (rRgt x)) by lia.
      destruct (reloc_closed y Hy) as [Hoy [(_ & Hcy) | (_ & Hcy)]].
      - rewrite !rho_in by lia. lia.
      - assert (O1 : rLft y < rLft n \/ rRgt n < rLft y) by lia.
        assert (O2 : rRgt y < rLft n \/ rRgt n < rRgt y) by lia.
        pose proof (rho_out_block _ O1). pose proof (rho_out_block _ O2).
        pose proof (rho_out_mono _ _ O1 O2). lia. }
    rewrite E, Lx, Rx. rewrite !rho_in by lia. lia.
  - (* any other row gains or loses the whole subtree *)
    assert (X1 : rLft x < rLft n \/ rRgt n < rLft x) by lia.
    assert (X2 : rRgt x < rLft n \/ rRgt n < rRgt x) by lia.
    set (c := (rLft x <? rLft n) && (rRgt n <? rRgt x)).
    set (c' := (rho (rLft x) <? rLft n + step) && (rRgt n + step <? rho (rRgt x))).
    rewrite (count_split (within (rLft n) (rRgt n))).
    rewrite (count_split (within (rLft n) (rRgt n))) in Hwx.
    assert (E1 : count (fun y => within (rLft n) (rRgt n) y && inside (F y) (F x)) f
                 = if c' then count (within (rLft n) (rRgt n)) f else 0).
    { apply count_const. intros y Hy Hwy. apply bool_eq_iff. subst c'.
      rewrite andb_true_iff, !Z.ltb_lt, inside_iff.
      destruct (reloc_coords y Hy) as (-> & -> & _). rewrite Lx, Rx.
      destruct (reloc_closed y Hy) as [Hoy [(_ & Hcy) | (Hwy' & _)]]; [| congruence].
      rewrite (rho_in (rLft y)), (rho_in (rRgt y)) by lia.
      pose proof (rho_out_block _ X1). pose proof (rho_out_block _ X2). lia. }
    assert (E2 : count (fun y => within (rLft n) (rRgt n) y && inside y x) f
                 = if c then count (within (rLft n) (rRgt n)) f else 0).
    { apply count_const. intros y Hy Hwy. apply bool_eq_iff. subst c.
      rewrite andb_true_iff, !Z.ltb_lt, inside_iff.
      destruct (reloc_closed y Hy) as [Hoy [(_ & Hcy) | (Hwy' & _)]]; [| congruence].
      lia. }
    assert (E3 : count (fun y => negb (within (rLft n) (rRgt n) y) && inside (F y) (F x)) f
                 = count (fun y => negb (within (rLft n) (rRgt n) y) && inside y x) f).
    { apply count_ext_in. intros y Hy.
      destruct (reloc_closed y Hy) as [Hoy [(Hwy & _) | (Hwy & Hcy)]]; rewrite Hwy;
        [reflexivity |]. simpl.
      apply bool_eq_iff. rewrite !inside_iff.
      destruct (reloc_coords y Hy) as (-> & -> & _). rewrite Lx, Rx.
      assert (O1 : rLft y < rLft n \/ rRgt n < rLft y) by lia.
      assert (O2 : rRgt y < rLft n \/ rRgt n < rRgt y) by lia.
      pose proof (rho_out_mono _ _ X1 O1). pose proof (rho_out_mono _ _ O2 X2). lia. }
    rewrite E1, E3. rewrite E2 in Hwx.
    pose proof reloc_block_count as HS.
    rewrite Lx, Rx.
    assert (D : rho (rRgt x) - rho (rLft x) - (rRgt x - rLft x)
                = (if c' then rRgt n - rLft n + 1 else 0)
                  - (if c then rRgt n - rLft n + 1 else 0)).
    { subst c c'.
      pose proof (rho_cases (rLft x)). pose proof (rho_cases (rRgt x)).
      destruct (Z.ltb_spec (rLft x) (rLft n)), (Z.ltb_spec (rRgt n) (rRgt x)),
        (Z.ltb_spec (rho (rLft x)) (rLft n + step)),
        (Z.ltb_spec (rRgt n + step) (rho (rRgt x))); simpl;
        destruct Hdir as [Hd | Hd]; lia. }
    destruct c, c'; lia.
Qed.

(** The relocation keeps the invariants of the forest. *)
Lemma nested_set_relocated : nested_set (map F f).
Proof.
  split.
  - intros r Hr. apply in_map_iff in Hr as (r0 & <- & Hr0). apply reloc_order, Hr0.
  - intros a b Ha Hb Hne.
    apply in_map_iff in Ha as (a0 & <- & Ha0). apply in_map_iff in Hb as (b0 & <- & Hb0).
    apply reloc_laminar; try assumption.
    destruct (reloc_coords a0 Ha0) as (_ & _ & Ia).
    destruct (reloc_coords b0 Hb0) as (_ & _ & Ib). congruence.
  - intros r Hr. apply in_map_iff in Hr as (r0 & <- & Hr0).
    unfold descendantCount. rewrite count_map. apply reloc_width, Hr0.
Qed.

End Relocation.

(** ** The invariants in the table *)

Lemma In_forest s t r : In r (forest s t) <-> In r t /\ rScope r = s.
Proof. unfold forest. rewrite filter_In, Z.eqb_eq. tauto. Qed.

Lemma forest_app s t t' : forest s (t ++ t') = forest s t ++ forest s t'.
Proof. apply List.filter_app. Qed.

Lemma forest_map s (G : row -> row) t :
  (forall r, rScope (G r) = rScope r) -> forest s (map G t) = map G (forest s t).
Proof.
  intros H. unfold forest. induction t as [| x t IH]; simpl; [reflexivity |].
  rewrite H. destruct (rScope x =? s); simpl; rewrite IH; reflexivity.
Qed.

Lemma forest_none sc s t : (forall r, In r t -> rScope r = sc) -> s <> sc -> forest s t = [].
Proof.
  intros H Hne. unfold forest. induction t as [| x t IH]; simpl; [reflexivity |].
  rewrite (H x (or_introl eq_refl)).
  destruct (Z.eqb_spec sc s); [congruence |].
  apply IH. intros r Hr. apply H. right. exact Hr.
Qed.

Lemma NoDup_forest s t : List.NoDup (map rID t) -> List.NoDup (map rID (forest s t)).
Proof.
  unfold forest. induction t as [| x t IH]; simpl; intros H; [constructor |].
  inversion H as [| ? ? Hx Hnd]; subst.
  destruct (rScope x =? s); simpl; [| auto].
  constructor; [| auto]. intros Hin. apply Hx.
  apply in_map_iff in Hin as (y & Hy & Hin). apply filter_In in Hin as [Hin _].
  rewrite <- Hy. apply in_map, Hin.
Qed.

Lemma Forall2_map_eq {A B C} (g : B -> C) (h : A -> C) l l' :
  Forall2 (fun a b => g b = h a) l l' -> map g l' = map h l.
Proof. intros H. induction H; simpl; congruence. Qed.

Lemma Forall2_In_l {A B} (R : A -> B -> Prop) (P : A -> Prop) l l' :
  Forall2 (fun a b => P a -> R a b) l l' -> (forall a, In a l -> P a) -> Forall2 R l l'.
Proof.
  intros H. induction H; intros HP; constructor.
  - apply H, HP. left. reflexivity.
  - apply IHForall2. intros a Ha. apply HP. right. exact Ha.
Qed.

Lemma Invariants_order t r : Invariants t -> In r t -> rLft r < rRgt r.
Proof.
  intros [_ Hf] Hr. destruct (Hf (rScope r)) as [Ho _ _].
  apply Ho. apply In_forest. auto.
Qed.

(** *** MoveTo *)

Lemma scope_Relocator_row tx a b c d e g h r :
  rScope (Relocator_row tx a b c d e g h r) = rScope r.
Proof.
  unfold Relocator_row. destruct (in_scope tx r); [| reflexivity].
  destruct (within a b r); reflexivity.
Qed.

(** The table after the two bulk updates, in a table of one forest. *)
Lemma Invariants_moved db targetNode n pos lo hi astep step dc np t :
  Invariants t ->
  In n t ->
  (forall r, In r t -> in_scope db r = true /\ rScope r = rScope n) ->
  (pos + 1 < rLft n /\ lo = pos + 1 /\ hi = rLft n - 1
   /\ astep = rRgt n - rLft n + 1 /\ step = pos + 1 - rLft n)
  \/ (rRgt n <= pos /\ lo = rRgt n + 1 /\ hi = pos
      /\ astep = - (rRgt n - rLft n + 1) /\ step = pos - rRgt n) ->
  Invariants (moved_rows db targetNode
                (map rID (select_rows db (within (rLft n) (rRgt n)) t))
                lo hi astep step dc np t).
Proof.
  intros Hinv Hn Hone Hdir.
  pose proof Hinv as [Hnd Hf].
  pose proof (Invariants_order t n Hinv Hn) as Hon.
  assert (Hg : map geom (moved_rows db targetNode
                           (map rID (select_rows db (within (rLft n) (rRgt n)) t))
                           lo hi astep step dc np t)
               = map geom (map (Relocator_row db (rLft n) (rRgt n) lo hi astep step dc) t)).
  { rewrite map_map. apply Forall2_map_eq.
    eapply Forall2_In_l with (P := fun r => rLft r < rRgt r).
    - apply moved_rows_spec; [exact Hnd | lia].
    - intros r Hr. eapply Invariants_order; eauto. }
  eapply Invariants_geom; [symmetry; exact Hg |].
  split.
  - rewrite map_map. erewrite map_ext; [exact Hnd |].
    intros r. simpl. unfold Relocator_row.
    destruct (in_scope db r); [| reflexivity]. destruct (within _ _ r); reflexivity.
  - intros s. rewrite forest_map by (intros; apply scope_Relocator_row).
    destruct (Z.eq_dec s (rScope n)) as [-> | Hne].
    + apply nested_set_relocated with (pos := pos).
      * apply Hf.
      * apply NoDup_forest, Hnd.
      * apply In_forest. auto.
      * intros r Hr. apply In_forest in Hr as [Hr _]. apply Hone, Hr.
      * exact Hdir.
    + rewrite (forest_none (rScope n)); [apply nested_set_nil | | exact Hne].
      intros r Hr. apply Hone, Hr.
Qed.

Lemma MoveTo_positions db node to direction tx targetNode tx' toNode :
  parseNode db node = Ok (tx, targetNode) ->
  parseNode db to = Ok (tx', toNode) ->
  exists pos dc np,
    MoveTo db node to direction = moveToRightOfPosition db targetNode pos dc np
    /\ (pos = isub (Lft toNode) 1 \/ pos = Rgt toNode \/ pos = Lft toNode).
Proof.
  intros Hn Ht. unfold MoveTo, bind, lift. rewrite Hn, Ht. cbv beta iota zeta.
  unfold Table.
  destruct ((direction =? MoveDirectionLeft) || (direction =? MoveDirectionRight)).
  - destruct (direction =? MoveDirectionLeft); do 3 eexists; split; try reflexivity; auto.
  - do 3 eexists; split; try reflexivity; auto.
Qed.

(** A reference outside the moving subtree gives a destination outside the
    interval of the node. *)
Lemma destination_outside t n m :
  Invariants t -> In n t -> In m t -> rScope m = rScope n ->
  within (rLft n) (rRgt n) m = false ->
  rLft m < rRgt m
  /\ (rRgt m < rLft n \/ rRgt n < rLft m \/ (rLft m < rLft n /\ rRgt n < rRgt m)).
Proof.
  intros [Hnd Hf] Hn Hm Hsc Hw.
  destruct (Hf (rScope n)) as [Ho Hl _].
  assert (Hn' : In n (forest (rScope n) t)) by (apply In_forest; auto).
  assert (Hm' : In m (forest (rScope n) t)) by (apply In_forest; auto).
  pose proof (Ho n Hn') as Hon. pose proof (Ho m Hm') as Hom. split; [exact Hom |].
  assert (Hid : rID m <> rID n).
  { intros E. assert (m = n) by (eapply NoDup_map_inj; eauto). subst m.
    unfold within in Hw. rewrite !Z.leb_refl in Hw. discriminate. }
  unfold within in Hw.
  destruct (Hl m n Hm' Hn' Hid) as [[H | H] | [H | H]]; try apply inside_iff in H;
    destruct (Z.leb_spec (rLft n) (rLft m)), (Z.leb_spec (rRgt m) (rRgt n));
    try discriminate; lia.
Qed.

Lemma Invariants_relocate_rows db targetNode n pos dc np t :
  Invariants t ->
  In n t -> agrees targetNode n ->
  (forall r, In r t -> in_scope db r = true /\ rScope r = rScope n) ->
  bounded t ->
  - 2 ^ 60 <= pos <= 2 ^ 60 ->
  pos + 1 <= rLft n \/ rRgt n <= pos ->
  Invariants (relocate_rows db targetNode pos dc np t).
Proof.
  intros Hinv Hn (_ & HL & HR) Hone Hb Hpos Hout.
  destruct (Hb n Hn) as [Hs1 Hs2].
  pose proof (Invariants_order t n Hinv Hn) as Hon.
  unfold relocate_rows. rewrite HL, HR.
  assert (E1 : iadd (isub pos (rLft n)) 1 = pos - rLft n + 1) by (unwrap; reflexivity).
  assert (E2 : iadd (isub (rRgt n) (rLft n)) 1 = rRgt n - rLft n + 1) by (unwrap; reflexivity).
  rewrite E1, E2.
  destruct (Z.ltb_spec (pos - rLft n + 1) 0) as [Hlt | Hge].
  - apply (Invariants_moved db targetNode n pos); try assumption.
    left. repeat split; unwrap; lia.
  - destruct (Z.ltb_spec 0 (pos - rLft n + 1)) as [Hgt | Hle]; [| exact Hinv].
    apply (Invariants_moved db targetNode n pos); try assumption.
    right. repeat split; unwrap; lia.
Qed.

Lemma call_MoveTo_Invariants db node to direction tx targetNode tx' toNode n m s :
  parseNode db node = Ok (tx, targetNode) ->
  names_ok targetNode = true ->
  parseNode db to = Ok (tx', toNode) ->
  In n (rows s) -> agrees targetNode n ->
  In m (rows s) -> agrees toNode m ->
  (forall r, In r (rows s) -> in_scope db r = true /\ rScope r = rScope n) ->
  within (rLft n) (rRgt n) m = false ->
  bounded (rows s) ->
  Invariants (rows s) ->
  Invariants (rows (snd (MoveTo db node to direction s))).
Proof.
  intros Hpn Hnn Hpt Hn Han Hm (_ & HmL & HmR) Hone Hw Hb Hinv.
  destruct (MoveTo_positions db node to direction _ _ _ _ Hpn Hpt)
    as (pos & dc & np & -> & Hpos).
  destruct (moveToRightOfPosition_run db targetNode pos dc np s Hnn) as [tr ->].
  simpl.
  destruct (destination_outside (rows s) n m Hinv Hn Hm (proj2 (Hone m Hm)) Hw) as [Hom Hout].
  destruct (Hb m Hm) as [Hs1 Hs2]. destruct (Hb n Hn) as [Hs3 Hs4].
  rewrite HmL, HmR in Hpos.
  assert (Hsub : isub (rLft m) 1 = rLft m - 1) by (unwrap; reflexivity).
  rewrite Hsub in Hpos.
  apply (Invariants_relocate_rows db targetNode n); try assumption.
  - unfold small in *. destruct Hpos as [-> | [-> | ->]]; lia.
  - destruct Hpos as [-> | [-> | ->]]; lia.
Qed.

(** *** Create *)

Lemma NoDup_snoc {A} (l : list A) x : List.NoDup l -> ~ In x l -> List.NoDup (l ++ [x]).
Proof.
  induction l as [| a l IH]; simpl; intros Hnd Hx.
  - constructor; [tauto | constructor].
  - inversion Hnd as [| ? ? Ha Hnd']; subst. constructor.
    + intros Hin. apply in_app_or in Hin as [Hin | [<- | []]]; tauto.
    + apply IH; tauto.
Qed.

Lemma existsb_id_false t i :
  existsb (fun x => rID x =? i) t = false -> ~ In i (map rID t).
Proof.
  intros H Hin. apply in_map_iff in Hin as (x & Hx & Hin).
  assert (E : existsb (fun x => rID x =? i) t = true).
  { apply existsb_exists. exists x. split; [exact Hin | apply Z.eqb_eq, Hx]. }
  congruence.
Qed.

Lemma select_all_forest tx sc t :
  selects tx sc t -> select_rows tx (fun _ => true) t = forest sc t.
Proof.
  intros H. unfold select_rows, forest. apply List.filter_ext_in.
  intros r Hr. rewrite (H r Hr), andb_true_r. reflexivity.
Qed.

Lemma new_row_scope t l r d src :
  rScope (new_row t (set_fields l r d src)) = rScope (row_of_source src).
Proof.
  unfold new_row, row_of_source, set_fields. simpl fields.
  destruct (row_of_set_fields_other l r d (fields src)) as (_ & H & _).
  destruct (rID _ =? 0); simpl; exact H.
Qed.

Lemma forest_single s x : forest s [x] = if rScope x =? s then [x] else [].
Proof. reflexivity. Qed.

(** A row appended to the table, when its forest stays nested. *)
Lemma Invariants_snoc t new :
  Invariants t ->
  ~ In (rID new) (map rID t) ->
  nested_set (forest (rScope new) t ++ [new]) ->
  Invariants (t ++ [new]).
Proof.
  intros [Hnd Hf] Hid Hnew. split.
  - rewrite map_app. apply NoDup_snoc; assumption.
  - intros s. rewrite forest_app, forest_single.
    destruct (Z.eqb_spec (rScope new) s) as [<- | Hne]; [exact Hnew |].
    rewrite app_nil_r. apply Hf.
Qed.

Lemma bounded_forest s t : bounded t -> bounded (forest s t).
Proof. intros H r Hr. apply In_forest in Hr as [Hr _]. auto. Qed.

Lemma call_Create_root_Invariants db src tx target s :
  parseNode db src = Ok (tx, target) ->
  names_ok target = true ->
  selects tx (rScope (row_of_source src)) (rows s) ->
  bounded (rows s) ->
  Invariants (rows s) ->
  Invariants (rows (snd (Create db src None s))).
Proof.
  intros Hp Hn Hsel Hb Hinv.
  pose proof (Create_root_run db src tx target s Hp Hn) as Hrun. unfold inserted in Hrun.
  destruct (existsb _ (rows s)) eqn:E; destruct Hrun as [_ ->]; [exact Hinv |].
  apply existsb_id_false in E.
  set (sc := rScope (row_of_source src)) in *.
  destruct (new_row_coords db src tx target (rows s)
              (fst (root_bounds tx (rows s))) (snd (root_bounds tx (rows s))) 0 Hp Hn)
    as (HL & HR & _).
  match type of HL with
  | rLft ?x = _ => set (new := x) in *
  end.
  apply Invariants_snoc; [exact Hinv | exact E |].
  assert (Hnsc : rScope new = sc) by apply new_row_scope. rewrite Hnsc.
  destruct Hinv as [_ Hf]. specialize (Hf sc).
  unfold root_bounds in HL, HR. rewrite (select_all_forest tx sc _ Hsel) in HL, HR.
  pose proof (bounded_forest sc _ Hb) as Hbf.
  destruct (forest sc (rows s)) as [| r rest] eqn:Ef.
  - simpl in HL, HR. apply nested_set_new_root; [exact Hf | intros r [] | lia].
  - cbv zeta in HL, HR. simpl fst in HL. simpl snd in HR.
    destruct (last_rgt_max r rest) as [(x & Hx & Hmx) Hmax].
    destruct (Hbf x Hx) as [_ Hsx]. rewrite <- Hmx in *.
    assert (E1 : iadd (rRgt x) 1 = rRgt x + 1) by (unwrap; reflexivity).
    rewrite E1 in HL, HR.
    assert (E2 : iadd (rRgt x + 1) 1 = rRgt x + 2) by (unwrap; lia).
    rewrite E2 in HR.
    apply nested_set_new_root; [exact Hf | | lia].
    intros y Hy. specialize (Hmax y Hy). lia.
Qed.

Lemma geom_Create_rows tx db l pid sc t :
  selects tx sc t ->
  map geom (Create_rows tx db l pid t) =
  map geom (map (fun r => if rScope r =? sc then open_gap l r else r) t).
Proof.
  intros Hsel. rewrite map_map. apply Forall2_map_eq.
  apply Forall2_In_l with (P := fun r => in_scope tx r = (rScope r =? sc)); [| exact Hsel].
  eapply Forall2_weaken; [| apply Create_rows_spec].
  intros r r' (H1 & H2 & _ & H4 & H5 & _ & H7) Hs.
  rewrite Hs in H1, H2. unfold geom. rewrite H1, H2, H4, H5, H7.
  destruct (rScope r =? sc); simpl; reflexivity.
Qed.

Lemma call_Create_child_Invariants db src parent tx target tx' targetParent p s :
  parseNode db src = Ok (tx, target) ->
  names_ok target = true ->
  selects tx (rScope (row_of_source src)) (rows s) ->
  parseNode db parent = Ok (tx', targetParent) ->
  In p (rows s) -> agrees targetParent p ->
  rScope p = rScope (row_of_source src) ->
  bounded (rows s) ->
  Invariants (rows s) ->
  Invariants (rows (snd (Create db src (Some parent) s))).
Proof.
  intros Hp Hn Hsel Hpp Hin (_ & _ & HR) Hsp Hb Hinv.
  pose proof (Create_child_run db src parent tx target tx' targetParent s Hp Hn Hpp) as Hrun.
  unfold inserted in Hrun.
  destruct (existsb _ _) eqn:E; destruct Hrun as [_ ->]; [exact Hinv |].
  apply existsb_id_false in E. rewrite map_rID_Create_rows in E.
  set (sc := rScope (row_of_source src)) in *.
  match goal with
  | |- Invariants (_ ++ [?x]) => set (new := x) in *
  end.
  destruct (new_row_coords db src tx target
              (Create_rows tx db (Rgt targetParent) (ID targetParent) (rows s))
              (Rgt targetParent) (iadd (Rgt targetParent) 1) (iadd (Depth targetParent) 1)
              Hp Hn) as (HnL & HnR & _).
  fold new in HnL, HnR. rewrite HR in HnL, HnR.
  destruct (Hb p Hin) as [_ Hsp2].
  assert (E1 : iadd (rRgt p) 1 = rRgt p + 1) by (unwrap; reflexivity).
  rewrite E1 in HnR.
  assert (Hnsc : rScope new = sc) by apply new_row_scope.
  set (G := fun r => if rScope r =? sc then open_gap (rRgt p) r else r).
  apply (Invariants_geom (map G (rows s) ++ [new])).
  { rewrite !map_app. f_equal. symmetry. rewrite HR. apply geom_Create_rows, Hsel. }
  destruct Hinv as [Hnd Hf]. split.
  - rewrite map_app, map_map. apply NoDup_snoc.
    + erewrite map_ext; [exact Hnd |]. intros r. unfold G.
      destruct (rScope r =? sc); reflexivity.
    + rewrite <- (map_map G rID). intros Hi. apply E.
      rewrite map_map in Hi. erewrite map_ext in Hi; [exact Hi |].
      intros r. unfold G. destruct (rScope r =? sc); reflexivity.
  - intros s0. rewrite forest_app, forest_single, Hnsc.
    rewrite forest_map by (intros r; unfold G; destruct (rScope r =? sc); reflexivity).
    destruct (Z.eqb_spec sc s0) as [<- | Hne].
    + replace (map G (forest sc (rows s))) with (map (open_gap (rRgt p)) (forest sc (rows s))).
      * apply nested_set_new_child; try assumption.
        -- apply Hf.
        -- apply NoDup_forest, Hnd.
        -- apply In_forest. auto.
      * apply map_ext_in. intros r Hr. apply In_forest in Hr as [_ Hr].
        unfold G. rewrite Hr, Z.eqb_refl. reflexivity.
    + rewrite app_nil_r.
      replace (map G (forest s0 (rows s))) with (forest s0 (rows s)); [apply Hf |].
      rewrite <- (map_id (forest s0 (rows s))) at 1.
      apply map_ext_in. intros r Hr. apply In_forest in Hr as [_ Hr].
      unfold G. destruct (Z.eqb_spec (rScope r) sc); [congruence | reflexivity].
Qed.

(** ** C1: the invariants after a sequence of calls *)

Lemma call_Invariants s s' : call s s' -> Invariants (rows s) -> Invariants (rows s').
Proof.
  intros Hc Hinv.
  destruct Hc as [db src tx target s Hp Hn Hsel Hb
                 | db src parent tx target tx' targetParent p s Hp Hn Hsel Hpp Hin Hag Hsp Hb
                 | db node to direction tx targetNode tx' toNode n m s
                     Hpn Hnn Hpt Hn Han Hm Ham Hone Hw Hb].
  - exact (call_Create_root_Invariants db src tx target s Hp Hn Hsel Hb Hinv).
  - exact (call_Create_child_Invariants db src parent tx target tx' targetParent p s
             Hp Hn Hsel Hpp Hin Hag Hsp Hb Hinv).
  - exact (call_MoveTo_Invariants db node to direction tx targetNode tx' toNode n m s
             Hpn Hnn Hpt Hn Han Hm Ham Hone Hw Hb Hinv).
Qed.

Ltac nested_concrete :=
  split;
  [ each_row
  | let a := fresh "a" in
    let b := fresh "b" in
    let Ha := fresh "Ha" in
    let Hb := fresh "Hb" in
    let Hne := fresh "Hne" in
    intros a b Ha Hb Hne; simpl in Ha, Hb;
    repeat match goal with
           | H : _ \/ _ |- _ => destruct H
           | H : False |- _ => destruct H
           end; subst;
    first [ exfalso; apply Hne; reflexivity
          | left; left; simpl; lia
          | left; right; simpl; lia
          | right; left; reflexivity
          | right; right; reflexivity ]
  | each_row ].

Lemma forest_cons s x t :
  forest s (x :: t) = if rScope x =? s then x :: forest s t else forest s t.
Proof. reflexivity. Qed.

(** C1 (against the claim as stated).  The table holds the root 1 at (1,2)
    and the root 2 at (3,6) with its child 3 at (4,5): the invariants hold.
    Moving node 2 inside its own child 3 is accepted and leaves node 2 at (1,4)
    and node 3 at (2,3): node 1 and node 3 now overlap. *)
Lemma Move_into_subtree_breaks_invariants :
  Invariants tableN
  /\ ~ (forall a b,
          In a (forest 7 (rows (snd (MoveTo plain (record_of_row (mk 2 None 0 3 6 1 7))
                                       (record_of_row (mk 3 (Some 2) 1 4 5 0 7))
                                       MoveDirectionInner (fresh_store tableN))))) ->
          In b (forest 7 (rows (snd (MoveTo plain (record_of_row (mk 2 None 0 3 6 1 7))
                                       (record_of_row (mk 3 (Some 2) 1 4 5 0 7))
                                       MoveDirectionInner (fresh_store tableN))))) ->
          rID a <> rID b ->
          apart a b \/ inside a b = true \/ inside b a = true).
Proof.
  split.
  - split; [nodup_ids |]. intros s. unfold tableN. rewrite !forest_cons. simpl rScope.
    destruct (7 =? s); [nested_concrete | apply nested_set_nil].
  - assert (E : rows (snd (MoveTo plain (record_of_row (mk 2 None 0 3 6 1 7))
                             (record_of_row (mk 3 (Some 2) 1 4 5 0 7))
                             MoveDirectionInner (fresh_store tableN)))
                = [mk 1 None 0 1 2 0 7; mk 2 (Some 3) 2 1 4 1 7; mk 3 (Some 2) 3 2 3 1 7])
      by (vm_compute; reflexivity).
    rewrite E. intros H.
    specialize (H (mk 1 None 0 1 2 0 7) (mk 3 (Some 2) 3 2 3 1 7)).
    simpl in H. unfold apart, inside in H. simpl in H.
    destruct H as [[H | H] | [H | H]]; auto; try lia; try discriminate.
Qed.

(** C1, amended.  Starting from a table that satisfies the invariants, after
    any sequence of calls of [Create] and [MoveTo] in which the caller passes
    records that agree with the stored rows, the parent of a new node is in
    the scope of the node, a node is moved only in a table of one scope and
    relative to a reference outside the moving subtree, and no coordinate
    comes near the limits of [int]: in every scope every node has
    left < right, two distinct nodes have intervals apart or strictly nested,
    and right - left = 2 * (number of descendants) + 1. *)
Theorem invariants_after_calls s0 s :
  Invariants (rows s0) ->
  calls s0 s ->
  forall sc,
    (forall r, In r (forest sc (rows s)) -> rLft r < rRgt r)
    /\ (forall a b, In a (forest sc (rows s)) -> In b (forest sc (rows s)) ->
        rID a <> rID b -> apart a b \/ inside a b = true \/ inside b a = true)
    /\ (forall r, In r (forest sc (rows s)) ->
        rRgt r - rLft r = 2 * descendantCount (forest sc (rows s)) r + 1).
Proof.
  intros Hinv Hcalls.
  assert (H : Invariants (rows s)).
  { induction Hcalls as [| s1 s2 s3 _ IH Hc]; [exact Hinv |].
    eapply call_Invariants; eauto. }
  intros sc. destruct H as [_ Hf]. destruct (Hf sc) as [Ho Hl Hw]. auto.
Qed.

Lemma Invariants_tableA : Invariants tableA.
Proof.
  split; [nodup_ids |]. intros s. unfold tableA. rewrite !forest_cons. simpl rScope.
  destruct (7 =? s); [nested_concrete | apply nested_set_nil].
Qed.

Lemma after_move_rows :
  rows after_move = [mk 1 None 0 1 6 2 7; mk 2 (Some 1) 1 4 5 0 7; mk 3 (Some 1) 1 2 3 0 7].
Proof. vm_compute. reflexivity. Qed.

Lemma invariants_after_calls_witness :
  (forall r, In r (forest 7 (rows after_two_calls)) -> rLft r < rRgt r)
  /\ (forall a b, In a (forest 7 (rows after_two_calls)) ->
      In b (forest 7 (rows after_two_calls)) ->
      rID a <> rID b -> apart a b \/ inside a b = true \/ inside b a = true)
  /\ (forall r, In r (forest 7 (rows after_two_calls)) ->
      rRgt r - rLft r = 2 * descendantCount (forest 7 (rows after_two_calls)) r + 1).
Proof.
  refine (invariants_after_calls (fresh_store tableA) after_two_calls _ _ 7).
  - exact Invariants_tableA.
  - apply (calls_cons _ after_move).
    + apply (calls_cons _ (fresh_store tableA)); [apply calls_nil |].
      apply (call_MoveTo plain _ _ MoveDirectionLeft
               (Where_scope 7 plain) (item_of_row (mk 3 (Some 1) 1 4 5 0 7))
               (Where_scope 7 plain) (item_of_row (mk 2 (Some 1) 1 2 3 0 7))
               (mk 3 (Some 1) 1 4 5 0 7) (mk 2 (Some 1) 1 2 3 0 7)).
      * reflexivity.
      * by_compute.
      * reflexivity.
      * simpl. auto.
      * by_compute.
      * simpl. auto.
      * by_compute.
      * each_row; auto.
      * reflexivity.
      * each_row; by_compute.
    + apply (call_Create_root plain recordD (Where_scope 7 plain)
               (item_of_row (mk 0 None 0 0 0 0 7))).
      * reflexivity.
      * by_compute.
      * rewrite after_move_rows. each_row.
      * rewrite after_move_rows. each_row; by_compute.
Defined.

(** The conditions on the calls are needed.  A parent record that no longer
    agrees with the stored row: the tree holds the root 1 at (1,4) with its
    child 2 at (2,3); a second child created from a record of the root read
    when it was still at (1,2) lands at (2,3) and the first child is widened
    to (2,5), two intervals with the same left bound. *)
Lemma Create_stale_parent_breaks_invariants :
  Invariants tableAB
  /\ ~ Invariants (rows (snd (Create plain recordC (Some stale_parent)
                                (fresh_store tableAB)))).
Proof.
  split.
  - split; [nodup_ids |]. intros s. unfold tableAB. rewrite !forest_cons. simpl rScope.
    destruct (7 =? s); [nested_concrete | apply nested_set_nil].
  - assert (E : rows (snd (Create plain recordC (Some stale_parent) (fresh_store tableAB)))
                = [mk 1 None 0 1 6 2 7; mk 2 (Some 1) 1 2 5 0 7; mk 3 (Some 1) 1 2 3 0 7])
      by (vm_compute; reflexivity).
    rewrite E. intros [_ H]. destruct (H 7) as [_ Hl _].
    specialize (Hl (mk 2 (Some 1) 1 2 5 0 7) (mk 3 (Some 1) 1 2 3 0 7)).
    simpl in Hl. unfold apart, inside in Hl. simpl in Hl.
    destruct Hl as [[Hl | Hl] | [Hl | Hl]]; auto; try lia; try discriminate.
Qed.

(** A table that holds two scopes: moving the root 2 before the root 1 in
    scope 1 shifts the rows of scope 2 that fall in the window, and the
    child 4 of scope 2 ends at (4,3). *)
Lemma MoveTo_breaks_other_scope :
  Invariants two_forests
  /\ ~ Invariants (rows (snd (MoveTo plain (record_of_row (mk 2 None 0 3 4 0 1))
                                (record_of_row (mk 1 None 0 1 2 0 1)) MoveDirectionLeft
                                (fresh_store two_forests)))).
Proof.
  split.
  - split; [nodup_ids |]. intros s. unfold two_forests. rewrite !forest_cons. simpl rScope.
    destruct (Z.eqb_spec 1 s) as [<- | H1]; [simpl; nested_concrete |].
    destruct (Z.eqb_spec 2 s) as [<- | H2]; [nested_concrete | apply nested_set_nil].
  - assert (E : rows (snd (MoveTo plain (record_of_row (mk 2 None 0 3 4 0 1))
                             (record_of_row (mk 1 None 0 1 2 0 1)) MoveDirectionLeft
                             (fresh_store two_forests)))
                = [mk 1 None 0 3 4 0 1; mk 2 None 0 1 2 0 1;
                   mk 3 None 0 3 4 1 2; mk 4 (Some 3) 1 4 3 0 2])
      by (vm_compute; reflexivity).
    rewrite E. intros [_ H]. destruct (H 2) as [Ho _ _].
    assert (Hin : In (mk 4 (Some 3) 1 4 3 0 2)
                     (forest 2 [mk 1 None 0 3 4 0 1; mk 2 None 0 1 2 0 1;
                                mk 3 None 0 3 4 1 2; mk 4 (Some 3) 1 4 3 0 2]))
      by (simpl; auto).
    apply Ho in Hin. simpl in Hin. lia.
Qed.

(** ** Calling MoveTo twice *)

(** *** The columns a relocation leaves alone *)

Lemma Forall2_conj {A B} (R1 R2 : A -> B -> Prop) l l' :
  Forall2 R1 l l' -> Forall2 R2 l l' -> Forall2 (fun a b => R1 a b /\ R2 a b) l l'.
Proof.
  intros H1. induction H1; intros H2; inversion H2; subst; constructor; auto.
Qed.

(** The row of [t'] that carries the primary key of a row of [t]. *)
Lemma Forall2_by_id (R : row -> row -> Prop) t t' r r' :
  Forall2 (fun a b => rID b = rID a /\ R a b) t t' ->
  List.NoDup (map rID t) ->
  In r t -> In r' t' -> rID r' = rID r -> R r r'.
Proof.
  intros H. induction H as [| a b l l' [Hid HR] Hrest IH]; simpl; [tauto |].
  intros Hnd Hr Hr' Heq. inversion Hnd as [| ? ? Ha Hnd']; subst.
  assert (Hids : forall x', In x' l' -> In (rID x') (map rID l)).
  { clear -Hrest. intros x' Hx'.
    induction Hrest as [| a0 b0 l0 l0' [Hid0 _] _ IH0]; simpl in *; [tauto |].
    destruct Hx' as [<- | Hx']; [left; congruence | right; auto]. }
  destruct Hr as [-> | Hr], Hr' as [-> | Hr'].
  - exact HR.
  - exfalso. apply Ha. rewrite <- Heq. apply Hids, Hr'.
  - exfalso. apply Ha. rewrite <- Hid, Heq. apply in_map, Hr.
  - apply IH; assumption.
Qed.

Lemma update_row_keys tx cond set r :
  (forall x, keys (set x) = keys x) -> keys (update_row tx cond set r) = keys r.
Proof. intros H. unfold update_row. destruct (in_scope tx r && cond r); auto. Qed.

Lemma moved_rows_parent tx n ids gte lte astep step dc np t :
  Forall2 (fun r r' =>
             rID r' = rID r
             /\ rParentID r' = (if in_scope tx r && (rID r =? ID n) then null_value np
                                else rParentID r))
    t (moved_rows tx n ids gte lte astep step dc np t).
Proof.
  unfold moved_rows, sync_rows, target_rows, affected_rows.
  set (A := update_row tx (affected_cond gte lte) (affected_set gte lte astep)).
  set (T := update_row tx (id_in ids) (target_set step dc)).
  set (P := update_row tx (fun r => rID r =? ID n) (set_parent_id (null_value np))).
  assert (KA : forall r, keys (A r) = keys r) by (intros; apply update_row_keys; reflexivity).
  assert (KT : forall r, keys (T r) = keys r) by (intros; apply update_row_keys; reflexivity).
  assert (HP : forall r, rID (P r) = rID r
                         /\ rParentID (P r) = (if in_scope tx r && (rID r =? ID n)
                                               then null_value np else rParentID r)).
  { intros r. unfold P, update_row. destruct (in_scope tx r && (rID r =? ID n)); auto. }
  assert (HS : forall c p r,
             rID (update_row tx (fun r => rID r =? Int64 p) (set_children_count c) r) = rID r
             /\ rParentID (update_row tx (fun r => rID r =? Int64 p) (set_children_count c) r)
                = rParentID r).
  { intros c p r. unfold update_row. destruct (in_scope tx r && _); auto. }
  assert (Hcore : forall r x, keys x = keys r ->
            rID (P x) = rID r
            /\ rParentID (P x) = (if in_scope tx r && (rID r =? ID n) then null_value np
                                  else rParentID r)).
  { intros r x Hk. destruct (HP x) as [H1 H2]. unfold keys in Hk.
    injection Hk as E1 E2 E3. rewrite H1, H2, E1, E3.
    rewrite (in_scope_ext tx x r E2). auto. }
  destruct (Valid np), (Valid (ParentID n)), (0 <? Z.of_nat (length ids));
    unfold update_rows; rewrite ?map_map; apply Forall2_map_same; intros r _;
    repeat match goal with
           | |- context [update_row tx (fun r => rID r =? Int64 ?p) (set_children_count ?c) ?x] =>
               destruct (HS c p x) as [-> ->]
           end;
    fold A; fold T; fold P; apply Hcore; rewrite ?KT, ?KA; reflexivity.
Qed.

Lemma select_rows_keys tx (cond : row -> bool) t t' :
  (forall r r', keys r = keys r' -> cond r = cond r') ->
  map keys t = map keys t' ->
  length (select_rows tx cond t) = length (select_rows tx cond t').
Proof.
  intros Hc. unfold select_rows. revert t'.
  induction t as [| x t IH]; intros [| x' t'] H; try discriminate; [reflexivity |].
  cbn [map] in H. apply cons_eq_inv in H as [Hx Hl]. cbn [List.filter].
  assert (Hs : in_scope tx x = in_scope tx x').
  { apply in_scope_ext. unfold keys in Hx. congruence. }
  rewrite Hs, (Hc x x' Hx). specialize (IH t' Hl).
  destruct (in_scope tx x' && cond x'); simpl; lia.
Qed.

Lemma parent_is_keys p r r' : keys r = keys r' -> parent_is p r = parent_is p r'.
Proof. unfold keys, parent_is. intros H. injection H as _ _ ->. reflexivity. Qed.

(** Resynchronizing a count twice is resynchronizing it once. *)
Lemma sync_rows_idem tx p t : sync_rows tx p (sync_rows tx p t) = sync_rows tx p t.
Proof.
  unfold sync_rows. destruct (Valid p); [| reflexivity].
  set (c := Z.of_nat (length (select_rows tx (parent_is p) t))).
  set (t1 := update_rows tx (fun r => rID r =? Int64 p) (set_children_count c) t).
  assert (Hc : Z.of_nat (length (select_rows tx (parent_is p) t1)) = c).
  { subst c. f_equal. apply select_rows_keys; [apply parent_is_keys |].
    subst t1. unfold update_rows. rewrite map_map. apply map_ext.
    intros r. apply update_row_keys. reflexivity. }
  rewrite Hc. subst t1. unfold update_rows. rewrite map_map. apply map_ext.
  intros r. unfold update_row at 2.
  destruct (in_scope tx r && (rID r =? Int64 p)) eqn:E.
  - unfold update_row. change (in_scope tx (set_children_count c r)) with (in_scope tx r).
    simpl rID. rewrite E. reflexivity.
  - unfold update_row. rewrite E. reflexivity.
Qed.

Lemma map_rID_moved_rows tx n ids gte lte astep step dc np t :
  map rID (moved_rows tx n ids gte lte astep step dc np t) = map rID t.
Proof.
  apply Forall2_map_eq.
  eapply Forall2_weaken; [| apply moved_rows_parent].
  intros r r' [H _]. exact H.
Qed.

(** The node and the reference after the two bulk updates and the
    reparenting. *)
Lemma moved_node_and_reference tx targetNode n m gte lte astep step dc np t n1 m1 :
  List.NoDup (map rID t) ->
  lte < rLft n \/ rRgt n < gte ->
  In n t -> In m t ->
  rLft n < rRgt n -> rLft m < rRgt m ->
  in_scope tx n = true -> in_scope tx m = true ->
  ID targetNode = rID n ->
  within (rLft n) (rRgt n) m = false ->
  let t1 := moved_rows tx targetNode (map rID (select_rows tx (within (rLft n) (rRgt n)) t))
              gte lte astep step dc np t in
  In n1 t1 -> rID n1 = rID n ->
  In m1 t1 -> rID m1 = rID m ->
  (rLft n1 = rLft n + step /\ rRgt n1 = rRgt n + step /\ rDepth n1 = rDepth n + dc
   /\ rParentID n1 = null_value np /\ rScope n1 = rScope n)
  /\ (rLft m1 = (if in_window gte lte (rLft m) then rLft m + astep else rLft m)
      /\ rRgt m1 = (if in_window gte lte (rRgt m) then rRgt m + astep else rRgt m)
      /\ rDepth m1 = rDepth m /\ rParentID m1 = rParentID m /\ rScope m1 = rScope m).
Proof.
  intros Hnd Hdisj Hn Hm Hon Hom Hsn Hsm Hid Hw t1 Hn1 Hin1 Hm1 Him1.
  pose proof (Forall2_conj _ _ _ _
                (moved_rows_parent tx targetNode
                   (map rID (select_rows tx (within (rLft n) (rRgt n)) t))
                   gte lte astep step dc np t)
                (moved_rows_spec tx targetNode (rLft n) (rRgt n) gte lte astep step dc np t
                   Hnd Hdisj)) as HF.
  assert (HF' : Forall2 (fun a b => rID b = rID a /\
                  (rParentID b = (if in_scope tx a && (rID a =? ID targetNode)
                                  then null_value np else rParentID a)
                   /\ (rLft a < rRgt a ->
                       geom b = geom (Relocator_row tx (rLft n) (rRgt n) gte lte
                                        astep step dc a))))
                 t t1).
  { eapply Forall2_weaken; [| exact HF]. intros a b [[H1 H2] H3]. auto. }
  assert (Hne : rID m <> rID n).
  { intros E. assert (m = n) by (eapply NoDup_map_inj; eauto). subst m.
    unfold within in Hw. rewrite !Z.leb_refl in Hw. discriminate. }
  split.
  - destruct (Forall2_by_id _ t t1 n n1 HF' Hnd Hn Hn1 Hin1) as [Hp Hg].
    specialize (Hg Hon). rewrite Hsn, Hid, Z.eqb_refl in Hp. simpl in Hp.
    unfold Relocator_row in Hg. rewrite Hsn in Hg.
    assert (Hwn : within (rLft n) (rRgt n) n = true)
      by (unfold within; rewrite !Z.leb_refl; reflexivity).
    rewrite Hwn in Hg. unfold geom in Hg. simpl in Hg.
    injection Hg as _ G2 G3 G4 G5. auto.
  - destruct (Forall2_by_id _ t t1 m m1 HF' Hnd Hm Hm1 Him1) as [Hp Hg].
    specialize (Hg Hom). rewrite Hsm, Hid in Hp.
    destruct (Z.eqb_spec (rID m) (rID n)) as [E | _]; [contradiction |]. simpl in Hp.
    unfold Relocator_row in Hg. rewrite Hsm, Hw in Hg.
    unfold geom in Hg. simpl in Hg. injection Hg as _ G2 G3 G4 G5. auto.
Qed.

Lemma null_value_null_of p : null_value (null_of p) = p.
Proof. destruct p; reflexivity. Qed.

Lemma map_id_in {A} (g : A -> A) l : (forall x, In x l -> g x = x) -> map g l = l.
Proof.
  intros H. rewrite <- (map_id l) at 2. apply map_ext_in. exact H.
Qed.

Lemma affected_rows_empty tx lo hi a t : hi < lo -> affected_rows tx lo hi a t = t.
Proof.
  intros H. unfold affected_rows, update_rows. apply map_id_in. intros r _.
  unfold update_row, affected_cond.
  destruct (Z.leb_spec lo (rLft r)), (Z.leb_spec (rLft r) hi),
    (Z.leb_spec lo (rRgt r)), (Z.leb_spec (rRgt r) hi); simpl;
    rewrite ?andb_false_r; try reflexivity; lia.
Qed.

Lemma target_set_zero r : target_set 0 0 r = r.
Proof. unfold target_set. destruct r. simpl. unfold set_depth, set_rgt, set_lft. simpl.
  rewrite !Z.add_0_r. reflexivity. Qed.

Lemma target_rows_noop tx id ids np t :
  (forall r, In r t -> rID r = id -> rParentID r = null_value np) ->
  target_rows tx id ids 0 0 np t = t.
Proof.
  intros H. unfold target_rows.
  assert (E : (if 0 <? Z.of_nat (length ids)
               then update_rows tx (id_in ids) (target_set 0 0) t else t) = t).
  { destruct (0 <? Z.of_nat (length ids)); [| reflexivity].
    unfold update_rows. apply map_id_in. intros r _. unfold update_row.
    destruct (in_scope tx r && id_in ids r); [apply target_set_zero | reflexivity]. }
  rewrite E. unfold update_rows. apply map_id_in. intros r Hr. unfold update_row.
  destruct (Z.eqb_spec (rID r) id) as [Hid | Hid]; rewrite ?andb_false_r; [| reflexivity].
  destruct (in_scope tx r); [| reflexivity]. simpl.
  rewrite <- (H r Hr Hid). destruct r; reflexivity.
Qed.

(** The three ways of a relocation, without overflow. *)
Lemma relocate_rows_cases db item n pos dc np t :
  Lft item = rLft n -> Rgt item = rRgt n ->
  - 2 ^ 61 <= rLft n <= 2 ^ 61 -> - 2 ^ 61 <= rRgt n <= 2 ^ 61 -> - 2 ^ 61 <= pos <= 2 ^ 61 ->
  let ids := map rID (select_rows db (within (rLft n) (rRgt n)) t) in
  let w := rRgt n - rLft n + 1 in
  (pos + 1 = rLft n /\ relocate_rows db item pos dc np t = t)
  \/ (pos + 1 < rLft n
      /\ relocate_rows db item pos dc np t =
         moved_rows db item ids (pos + 1) (rLft n - 1) w (pos + 1 - rLft n) dc np t)
  \/ (rLft n <= pos
      /\ relocate_rows db item pos dc np t =
         moved_rows db item ids (rRgt n + 1) pos (- w) (pos - rRgt n) dc np t).
Proof.
  intros HL HR Hs1 Hs2 Hp ids w. unfold relocate_rows. rewrite HL, HR. fold ids.
  assert (E1 : iadd (isub pos (rLft n)) 1 = pos - rLft n + 1) by (unwrap; reflexivity).
  assert (E2 : iadd (isub (rRgt n) (rLft n)) 1 = w) by (subst w; unwrap; reflexivity).
  rewrite E1, E2.
  destruct (Z.ltb_spec (pos - rLft n + 1) 0) as [Hlt | Hge].
  - right. left. split; [lia |].
    replace (iadd pos 1) with (pos + 1) by (unwrap; reflexivity).
    replace (isub (rLft n) 1) with (rLft n - 1) by (unwrap; reflexivity).
    f_equal. lia.
  - destruct (Z.ltb_spec 0 (pos - rLft n + 1)) as [Hgt | Hle].
    + right. right. split; [lia |].
      replace (iadd (rRgt n) 1) with (rRgt n + 1) by (unwrap; reflexivity).
      replace (imul w (-1)) with (- w) by (subst w; unwrap; lia).
      replace (isub (pos - rLft n + 1) w) with (pos - rRgt n) by (subst w; unwrap; lia).
      reflexivity.
    + left. split; [lia | reflexivity].
Qed.

Lemma item_of_row_fields r :
  int_range (rID r) -> int_range (rLft r) -> int_range (rRgt r) -> int_range (rDepth r) ->
  ID (item_of_row r) = rID r /\ Lft (item_of_row r) = rLft r
  /\ Rgt (item_of_row r) = rRgt r /\ Depth (item_of_row r) = rDepth r
  /\ ParentID (item_of_row r) = null_of (rParentID r).
Proof.
  intros H1 H2 H3 H4. unfold item_of_row. simpl.
  rewrite !wrap_small by assumption. auto.
Qed.

Lemma MoveTo_rows_of db direction a b :
  MoveTo db (record_of_row a) (record_of_row b) direction =
  moveToRightOfPosition db (item_of_row a)
    (if direction =? MoveDirectionLeft then isub (Lft (item_of_row b)) 1
     else if direction =? MoveDirectionRight then Rgt (item_of_row b)
          else Lft (item_of_row b))
    (if (direction =? MoveDirectionLeft) || (direction =? MoveDirectionRight)
     then isub (Depth (item_of_row b)) (Depth (item_of_row a))
     else isub (iadd (Depth (item_of_row b)) 1) (Depth (item_of_row a)))
    (if (direction =? MoveDirectionLeft) || (direction =? MoveDirectionRight)
     then ParentID (item_of_row b)
     else {| Int64 := ID (item_of_row b); Valid := true |}).
Proof.
  unfold MoveTo, bind, lift. rewrite !parseNode_record_of_row. cbv beta iota zeta.
  unfold Table.
  destruct (direction =? MoveDirectionLeft), (direction =? MoveDirectionRight); reflexivity.
Qed.

(** *** The first call *)

Ltac dir_cases direction :=
  destruct (direction =? MoveDirectionLeft);
  [| destruct (direction =? MoveDirectionRight)]; cbn [andb orb] in *.

Ltac leb_cases :=
  repeat match goal with
         | H : context [?a <=? ?b] |- _ => destruct (Z.leb_spec a b)
         end; cbn [andb orb] in *.

Lemma first_call_outcome db direction n m s n1 m1 :
  Invariants (rows s) ->
  In n (rows s) -> In m (rows s) ->
  (forall r, In r (rows s) -> in_scope db r = true /\ rScope r = rScope n) ->
  within (rLft n) (rRgt n) m = false ->
  bounded (rows s) ->
  small (rDepth n) -> small (rDepth m) -> int_range (rID n) -> int_range (rID m) ->
  let s1 := snd (MoveTo db (record_of_row n) (record_of_row m) direction s) in
  In n1 (rows s1) -> rID n1 = rID n ->
  In m1 (rows s1) -> rID m1 = rID m ->
  placed direction n1 m1
  /\ (- 2 ^ 61 < rLft n1 /\ rLft n1 < rRgt n1 < 2 ^ 61
      /\ - 2 ^ 61 < rLft m1 < 2 ^ 61 /\ - 2 ^ 61 < rRgt m1 < 2 ^ 61)
  /\ List.NoDup (map rID (rows s1))
  /\ ((direction =? MoveDirectionLeft) = true ->
      rDepth n1 = rDepth m1 /\ small (rDepth m1) /\ rParentID n1 = rParentID m1
      /\ sync_rows db (null_of (rParentID m1)) (rows s1) = rows s1).
Proof.
  intros Hinv Hn Hm Hone Hw Hb Hdn Hdm Hin Him s1 Hn1 Hid1 Hm1 Hid2.
  pose proof Hinv as [Hnd _].
  destruct (destination_outside (rows s) n m Hinv Hn Hm (proj2 (Hone m Hm)) Hw) as [Hom Hout].
  pose proof (Invariants_order _ n Hinv Hn) as Hon.
  destruct (Hb n Hn) as [Hs1 Hs2]. destruct (Hb m Hm) as [Hs3 Hs4].
  destruct (item_of_row_fields n) as (In1 & In2 & In3 & In4 & In5);
    try (unfold int_range, small in *; lia).
  destruct (item_of_row_fields m) as (Im1 & Im2 & Im3 & Im4 & Im5);
    try (unfold int_range, small in *; lia).
  subst s1. rewrite MoveTo_rows_of in Hn1, Hm1 |- *.
  rewrite Im1, Im2, Im3, Im4, Im5, In4 in Hn1, Hm1 |- *.
  match goal with
  | |- context [moveToRightOfPosition db ?i ?p ?d ?q s] =>
      destruct (moveToRightOfPosition_run db i p d q s (names_ok_item_of_row n)) as [tr Hrun];
      set (pos := p) in *; set (dc := d) in *; set (np := q) in *
  end.
  rewrite Hrun in Hn1, Hm1 |- *. simpl rows in *.
  assert (Hsub : isub (rLft m) 1 = rLft m - 1) by (unwrap; reflexivity).
  assert (Hpos : - 2 ^ 61 <= pos <= 2 ^ 61).
  { subst pos. rewrite Hsub. unfold small in *.
    destruct (direction =? MoveDirectionLeft); [lia |].
    destruct (direction =? MoveDirectionRight); lia. }
  assert (Hwn : within (rLft n) (rRgt n) n = true)
    by (unfold within; rewrite !Z.leb_refl; reflexivity).
  destruct (relocate_rows_cases db (item_of_row n) n pos dc np (rows s) In2 In3
              ltac:(unfold small in *; lia) ltac:(unfold small in *; lia) Hpos)
    as [[Hz E] | [[Hneg E] | [Hge E]]]; rewrite E in Hn1, Hm1 |- *.
  - (* the node is in place already *)
    assert (n1 = n) by (eapply NoDup_map_inj; eauto). subst n1.
    assert (m1 = m) by (eapply NoDup_map_inj; eauto). subst m1.
    split; [| split; [| split]].
    + unfold placed. subst pos. rewrite Hsub in Hz.
      destruct (direction =? MoveDirectionLeft); [lia |].
      destruct (direction =? MoveDirectionRight); lia.
    + unfold small in *. lia.
    + exact Hnd.
    + intros Hl. exfalso. subst pos. rewrite Hl, Hsub in Hz. lia.
  - (* moved to the left *)
    destruct (moved_node_and_reference db (item_of_row n) n m (pos + 1) (rLft n - 1)
                (rRgt n - rLft n + 1) (pos + 1 - rLft n) dc np (rows s) n1 m1)
      as [(A1 & A2 & A3 & A4 & _) (B1 & B2 & B3 & B4 & _)];
      try assumption; try lia; try (apply Hone; assumption).
    unfold in_window in B1, B2.
    split; [| split; [| split]].
    + unfold placed. subst pos. rewrite Hsub in *.
      dir_cases direction; leb_cases; lia.
    + unfold small in *. subst pos. rewrite Hsub in *.
      dir_cases direction; leb_cases; lia.
    + rewrite map_rID_moved_rows. exact Hnd.
    + intros Hl. subst dc np. rewrite Hl in A3, A4 |- *. cbn [orb] in A3, A4 |- *.
      assert (Ed : isub (rDepth m) (rDepth n) = rDepth m - rDepth n) by (unwrap; reflexivity).
      rewrite Ed in A3. rewrite B3, B4, A4, null_value_null_of.
      split; [lia |]. split; [assumption |]. split; [reflexivity |].
      unfold moved_rows. apply sync_rows_idem.
  - (* moved to the right *)
    assert (Hge' : rRgt n <= pos).
    { subst pos. rewrite Hsub in *.
      destruct (direction =? MoveDirectionLeft); [lia |].
      destruct (direction =? MoveDirectionRight); lia. }
    destruct (moved_node_and_reference db (item_of_row n) n m (rRgt n + 1) pos
                (- (rRgt n - rLft n + 1)) (pos - rRgt n) dc np (rows s) n1 m1)
      as [(A1 & A2 & A3 & A4 & _) (B1 & B2 & B3 & B4 & _)];
      try assumption; try lia; try (apply Hone; assumption).
    unfold in_window in B1, B2.
    split; [| split; [| split]].
    + unfold placed. subst pos. rewrite Hsub in *.
      dir_cases direction; leb_cases; lia.
    + unfold small in *. subst pos. rewrite Hsub in *.
      dir_cases direction; leb_cases; lia.
    + rewrite map_rID_moved_rows. exact Hnd.
    + intros Hl. subst dc np. rewrite Hl in A3, A4 |- *. cbn [orb] in A3, A4 |- *.
      assert (Ed : isub (rDepth m) (rDepth n) = rDepth m - rDepth n) by (unwrap; reflexivity).
      rewrite Ed in A3. rewrite B3, B4, A4, null_value_null_of.
      split; [lia |]. split; [assumption |]. split; [reflexivity |].
      unfold moved_rows. apply sync_rows_idem.
Qed.

(** *** The second call *)

Lemma second_call_noop db direction s1 n1 m1 :
  In n1 (rows s1) -> In m1 (rows s1) ->
  int_range (rID n1) -> int_range (rID m1) ->
  placed direction n1 m1 ->
  (- 2 ^ 61 < rLft n1 /\ rLft n1 < rRgt n1 < 2 ^ 61
   /\ - 2 ^ 61 < rLft m1 < 2 ^ 61 /\ - 2 ^ 61 < rRgt m1 < 2 ^ 61) ->
  List.NoDup (map rID (rows s1)) ->
  ((direction =? MoveDirectionLeft) = true ->
   rDepth n1 = rDepth m1 /\ small (rDepth m1) /\ rParentID n1 = rParentID m1
   /\ sync_rows db (null_of (rParentID m1)) (rows s1) = rows s1) ->
  fst (MoveTo db (record_of_row n1) (record_of_row m1) direction s1) = Ok tt
  /\ rows (snd (MoveTo db (record_of_row n1) (record_of_row m1) direction s1)) = rows s1.
Proof.
  intros Hn1 Hm1 Hin Him Hpl (Hb1 & Hb2 & Hb3 & Hb4) Hnd Hleft.
  rewrite MoveTo_rows_of.
  match goal with
  | |- context [moveToRightOfPosition db ?i ?p ?d ?q s1] =>
      destruct (moveToRightOfPosition_run db i p d q s1 (names_ok_item_of_row n1)) as [tr Hrun];
      set (pos := p) in *; set (dc := d) in *; set (np := q) in *
  end.
  rewrite Hrun. simpl. split; [reflexivity |].
  assert (In2 : Lft (item_of_row n1) = rLft n1)
    by (apply wrap_small; unfold int_range; lia).
  assert (In3 : Rgt (item_of_row n1) = rRgt n1)
    by (apply wrap_small; unfold int_range; lia).
  assert (Im2 : Lft (item_of_row m1) = rLft m1)
    by (apply wrap_small; unfold int_range; lia).
  assert (Im3 : Rgt (item_of_row m1) = rRgt m1)
    by (apply wrap_small; unfold int_range; lia).
  assert (Hsub : isub (rLft m1) 1 = rLft m1 - 1) by (unwrap; reflexivity).
  unfold placed in Hpl.
  assert (Hpos : - 2 ^ 61 <= pos <= 2 ^ 61).
  { subst pos. rewrite Im2, Im3, Hsub.
    destruct (direction =? MoveDirectionLeft); [lia |].
    destruct (direction =? MoveDirectionRight); lia. }
  destruct (relocate_rows_cases db (item_of_row n1) n1 pos dc np (rows s1) In2 In3
              ltac:(lia) ltac:(lia) Hpos)
    as [[Hz E] | [[Hneg E] | [Hge E]]]; rewrite E.
  - reflexivity.
  - exfalso. subst pos. rewrite Im2, Im3, Hsub in Hneg.
    destruct (direction =? MoveDirectionLeft); [lia |].
    destruct (direction =? MoveDirectionRight); lia.
  - destruct (direction =? MoveDirectionLeft) eqn:Hl.
    + destruct (Hleft eq_refl) as (Hd & Hds & Hpar & Hsync).
      assert (Epos : pos = rRgt n1) by (subst pos; rewrite Im2, Hsub; lia).
      assert (Edc : dc = 0).
      { subst dc. cbn [orb]. unfold item_of_row. simpl Depth. rewrite <- Hd.
        rewrite (wrap_small (rDepth n1)) by (unfold int_range, small in *; lia).
        unfold isub. rewrite Z.sub_diag. reflexivity. }
      assert (Enp : np = null_of (rParentID m1)) by (subst np; reflexivity).
      rewrite Epos, Edc, Enp, Z.sub_diag. unfold moved_rows.
      rewrite affected_rows_empty by lia.
      rewrite target_rows_noop.
      * replace (ParentID (item_of_row n1)) with (null_of (rParentID m1))
          by (unfold item_of_row; simpl; rewrite Hpar; reflexivity).
        rewrite sync_rows_idem. exact Hsync.
      * intros r Hr Hid. rewrite null_value_null_of, <- Hpar.
        assert (r = n1).
        { eapply NoDup_map_inj; eauto. rewrite Hid. unfold item_of_row. simpl.
          apply wrap_small, Hin. }
        subst r. reflexivity.
    + exfalso. subst pos. rewrite Im2, Im3 in Hge.
      destruct (direction =? MoveDirectionRight); lia.
Qed.

(** ** C7: calling MoveTo a second time *)

(** C7 (against the claim as stated).  Scenario B made twice with the same
    records: the records still say that node 3 is at (4,5) and node 2 at
    (2,3), the second call computes moveStep = -2 again and moves the rows
    back to where they were before the first call. *)
Lemma MoveTo_again_same_records :
  fst (MoveTo plain (record_of_row (mk 3 (Some 1) 1 4 5 0 7))
         (record_of_row (mk 2 (Some 1) 1 2 3 0 7)) MoveDirectionLeft (fresh_store tableA))
    = Ok tt
  /\ rows (snd (MoveTo plain (record_of_row (mk 3 (Some 1) 1 4 5 0 7))
                  (record_of_row (mk 2 (Some 1) 1 2 3 0 7)) MoveDirectionLeft after_move))
     = tableA
  /\ rows (snd (MoveTo plain (record_of_row (mk 3 (Some 1) 1 4 5 0 7))
                  (record_of_row (mk 2 (Some 1) 1 2 3 0 7)) MoveDirectionLeft after_move))
     <> rows after_move.
Proof.
  split; [vm_compute; reflexivity |].
  assert (E : rows (snd (MoveTo plain (record_of_row (mk 3 (Some 1) 1 4 5 0 7))
                           (record_of_row (mk 2 (Some 1) 1 2 3 0 7)) MoveDirectionLeft
                           after_move)) = tableA) by (vm_compute; reflexivity).
  split; [exact E |]. rewrite E, after_move_rows. discriminate.
Qed.

Lemma after_move_rows_explicit :
  rows (snd (MoveTo plain (record_of_row (mk 3 (Some 1) 1 4 5 0 7))
               (record_of_row (mk 2 (Some 1) 1 2 3 0 7)) MoveDirectionLeft
               (fresh_store tableA)))
  = [mk 1 None 0 1 6 2 7; mk 2 (Some 1) 1 4 5 0 7; mk 3 (Some 1) 1 2 3 0 7].
Proof. vm_compute. reflexivity. Qed.

(** C7, amended.  In a table of one scope that satisfies the invariants,
    after a first call [MoveTo(node, reference, direction)] with a reference
    outside the moving subtree, a second call made with the records of the
    node and of the reference read again from the table returns success and
    leaves the table as it is.  The node then lies next to the reference
    ([placed]): for After and Inner the second call finds moveStep = 0; for
    Before it finds moveStep = width, an empty window and a shift
    moveStep - width = 0 of the subtree. *)
Theorem MoveTo_again_is_noop db direction n m s n1 m1 :
  Invariants (rows s) ->
  In n (rows s) -> In m (rows s) ->
  (forall r, In r (rows s) -> in_scope db r = true /\ rScope r = rScope n) ->
  within (rLft n) (rRgt n) m = false ->
  bounded (rows s) ->
  small (rDepth n) -> small (rDepth m) -> int_range (rID n) -> int_range (rID m) ->
  In n1 (rows (snd (MoveTo db (record_of_row n) (record_of_row m) direction s))) ->
  rID n1 = rID n ->
  In m1 (rows (snd (MoveTo db (record_of_row n) (record_of_row m) direction s))) ->
  rID m1 = rID m ->
  fst (MoveTo db (record_of_row n1) (record_of_row m1) direction
         (snd (MoveTo db (record_of_row n) (record_of_row m) direction s))) = Ok tt
  /\ rows (snd (MoveTo db (record_of_row n1) (record_of_row m1) direction
                  (snd (MoveTo db (record_of_row n) (record_of_row m) direction s))))
     = rows (snd (MoveTo db (record_of_row n) (record_of_row m) direction s))
  /\ placed direction n1 m1.
Proof.
  intros Hinv Hn Hm Hone Hw Hb Hdn Hdm Hin Him Hn1 Hid1 Hm1 Hid2.
  destruct (first_call_outcome db direction n m s n1 m1 Hinv Hn Hm Hone Hw Hb Hdn Hdm Hin Him
              Hn1 Hid1 Hm1 Hid2) as (Hpl & Hbd & Hnd & Hleft).
  destruct (second_call_noop db direction
              (snd (MoveTo db (record_of_row n) (record_of_row m) direction s)) n1 m1)
    as [H1 H2]; try assumption; try congruence.
  auto.
Qed.

Lemma MoveTo_again_is_noop_witness :
  fst (MoveTo plain (record_of_row (mk 3 (Some 1) 1 2 3 0 7))
         (record_of_row (mk 2 (Some 1) 1 4 5 0 7)) MoveDirectionLeft
         (snd (MoveTo plain (record_of_row (mk 3 (Some 1) 1 4 5 0 7))
                 (record_of_row (mk 2 (Some 1) 1 2 3 0 7)) MoveDirectionLeft
                 (fresh_store tableA)))) = Ok tt
  /\ rows (snd (MoveTo plain (record_of_row (mk 3 (Some 1) 1 2 3 0 7))
                  (record_of_row (mk 2 (Some 1) 1 4 5 0 7)) MoveDirectionLeft
                  (snd (MoveTo plain (record_of_row (mk 3 (Some 1) 1 4 5 0 7))
                          (record_of_row (mk 2 (Some 1) 1 2 3 0 7)) MoveDirectionLeft
                          (fresh_store tableA)))))
     = rows (snd (MoveTo plain (record_of_row (mk 3 (Some 1) 1 4 5 0 7))
                    (record_of_row (mk 2 (Some 1) 1 2 3 0 7)) MoveDirectionLeft
                    (fresh_store tableA)))
  /\ placed MoveDirectionLeft (mk 3 (Some 1) 1 2 3 0 7) (mk 2 (Some 1) 1 4 5 0 7).
Proof.
  apply (MoveTo_again_is_noop plain MoveDirectionLeft
           (mk 3 (Some 1) 1 4 5 0 7) (mk 2 (Some 1) 1 2 3 0 7) (fresh_store tableA)
           (mk 3 (Some 1) 1 2 3 0 7) (mk 2 (Some 1) 1 4 5 0 7)).
  - exact Invariants_tableA.
  - simpl. auto.
  - simpl. auto.
  - each_row; auto.
  - reflexivity.
  - each_row; by_compute.
  - by_compute.
  - by_compute.
  - by_compute.
  - by_compute.
  - rewrite after_move_rows_explicit. simpl. auto.
  - reflexivity.
  - rewrite after_move_rows_explicit. simpl. auto.
  - reflexivity.
Defined.

(** * Further properties of the code *)

(** * What the calls never do *)

Lemma Forall2_refl {A} (R : A -> A -> Prop) l : (forall x, R x x) -> Forall2 R l l.
Proof. intros H. induction l; constructor; auto. Qed.

Lemma Forall2_trans {A} (R : A -> A -> Prop) l1 l2 l3 :
  (forall x y z, R x y -> R y z -> R x z) ->
  Forall2 R l1 l2 -> Forall2 R l2 l3 -> Forall2 R l1 l3.
Proof.
  intros Ht H. revert l3. induction H; intros l3 H3; inversion H3; subst; constructor; eauto.
Qed.

Section Frame.

Variable R : row -> row -> Prop.
Hypothesis R_refl : forall r, R r r.
Hypothesis R_trans : forall x y z, R x y -> R y z -> R x z.

Lemma keeps_ret {A} (a : A) : keeps R (ret a).
Proof. intros s. apply Forall2_refl, R_refl. Qed.

Lemma keeps_lift {A} (r : result A) : keeps R (lift r).
Proof. intros s. apply Forall2_refl, R_refl. Qed.

Lemma keeps_bind {A B} (m : M A) (k : A -> M B) :
  keeps R m -> (forall a, keeps R (k a)) -> keeps R (bind m k).
Proof.
  intros Hm Hk s. unfold bind. specialize (Hm s).
  destruct (m s) as [[a | e] s1]; simpl in *; [| exact Hm].
  eapply Forall2_trans; [exact R_trans | exact Hm | apply Hk].
Qed.

Lemma keeps_attempt {A} (m : M A) : keeps R m -> keeps R (attempt m).
Proof.
  intros Hm s. unfold attempt. specialize (Hm s). destruct (m s) as [r s1]. exact Hm.
Qed.

Lemma keeps_Transaction {A} (body : M A) : keeps R body -> keeps R (Transaction body).
Proof.
  intros Hb s. unfold Transaction.
  specialize (Hb {| rows := rows s; trace := trace s ++ [EvBegin] |}).
  destruct (body _) as [[a | e] s2]; simpl in *; [exact Hb |].
  apply Forall2_refl, R_refl.
Qed.

Lemma keeps_Select {A} tx ok cond (k : list row -> result A) : keeps R (Select tx ok cond k).
Proof.
  intros s. unfold Select. destruct ok; simpl; apply Forall2_refl, R_refl.
Qed.

Lemma keeps_Update tx ok cond set :
  (forall r, in_scope tx r = true -> cond r = true -> R r (set r)) ->
  keeps R (Update tx ok cond set).
Proof.
  intros H s. unfold Update. destruct ok; simpl; [| apply Forall2_refl, R_refl].
  unfold update_rows. apply Forall2_map_same. intros r _. unfold update_row.
  destruct (in_scope tx r) eqn:E1; simpl; [| apply R_refl].
  destruct (cond r) eqn:E2; [apply H; assumption | apply R_refl].
Qed.

Lemma keeps_grows {A} (m : M A) : keeps R m -> grows R m.
Proof.
  intros H s. exists (rows (snd (m s))), []. rewrite app_nil_r.
  split; [reflexivity |]. split; [apply H | simpl; lia].
Qed.

Lemma grows_bind {A B} (m : M A) (k : A -> M B) :
  keeps R m -> (forall a, grows R (k a)) -> grows R (bind m k).
Proof.
  intros Hm Hk s. unfold bind. specialize (Hm s).
  destruct (m s) as [[a | e] s1]; simpl in *.
  - destruct (Hk a s1) as (old & extra & E & F & L).
    exists old, extra. split; [exact E |]. split; [| exact L].
    eapply Forall2_trans; [exact R_trans | exact Hm | exact F].
  - exists (rows s1), []. rewrite app_nil_r. split; [reflexivity |].
    split; [exact Hm | simpl; lia].
Qed.

Lemma grows_Transaction {A} (body : M A) : grows R body -> grows R (Transaction body).
Proof.
  intros Hb s. unfold Transaction.
  specialize (Hb {| rows := rows s; trace := trace s ++ [EvBegin] |}).
  destruct (body _) as [[a | e] s2]; simpl in *; [exact Hb |].
  exists (rows s), []. rewrite app_nil_r. split; [reflexivity |].
  split; [apply Forall2_refl, R_refl | simpl; lia].
Qed.

Lemma grows_Insert src : grows R (Insert src).
Proof.
  intros s. unfold Insert.
  destruct (existsb _ (rows s)); simpl.
  - exists (rows s), []. rewrite app_nil_r. split; [reflexivity |].
    split; [apply Forall2_refl, R_refl | simpl; lia].
  - exists (rows s), [new_row (rows s) src]. split; [reflexivity |].
    split; [apply Forall2_refl, R_refl | simpl; lia].
Qed.

Lemma grows_bind_lift {A B} (a : A) (k : A -> M B) :
  grows R (k a) -> grows R (bind (lift (Ok a)) k).
Proof. intros H s. apply H. Qed.

End Frame.

Lemma MoveTo_leaves_refl db id ps r : MoveTo_leaves db id ps r r.
Proof. unfold MoveTo_leaves. auto 10. Qed.

Lemma MoveTo_leaves_trans db id ps x y z :
  MoveTo_leaves db id ps x y -> MoveTo_leaves db id ps y z -> MoveTo_leaves db id ps x z.
Proof.
  unfold MoveTo_leaves. intros (A1 & A2 & A3 & A4 & A5) (B1 & B2 & B3 & B4 & B5).
  split; [congruence |]. split; [congruence |]. split; [| split].
  - intros H. pose proof (A3 H) as Hy. subst y. auto.
  - intros H. rewrite B4 by congruence. auto.
  - intros H. rewrite B5 by (rewrite A1; exact H). auto.
Qed.

Lemma keeps_syncChildrenCount db id ps n old new :
  (Valid old = true -> In (Int64 old) ps) ->
  (Valid new = true -> In (Int64 new) ps) ->
  keeps (MoveTo_leaves db id ps) (syncChildrenCount db n old new).
Proof.
  intros Ho Hn. unfold syncChildrenCount.
  apply keeps_bind; [apply MoveTo_leaves_trans | |].
  - destruct (Valid old); [| apply keeps_ret, MoveTo_leaves_refl].
    apply keeps_bind; [apply MoveTo_leaves_trans | apply keeps_Select, MoveTo_leaves_refl |].
    intros c. apply keeps_Update; [apply MoveTo_leaves_refl |].
    intros r Hs Hc. apply Z.eqb_eq in Hc. unfold MoveTo_leaves. simpl.
    repeat split; auto; try congruence.
    intros H. exfalso. apply H. rewrite Hc. auto.
  - intros _. destruct (Valid new); [| apply keeps_ret, MoveTo_leaves_refl].
    apply keeps_bind; [apply MoveTo_leaves_trans | apply keeps_Select, MoveTo_leaves_refl |].
    intros c. apply keeps_Update; [apply MoveTo_leaves_refl |].
    intros r Hs Hc. apply Z.eqb_eq in Hc. unfold MoveTo_leaves. simpl.
    repeat split; auto; try congruence.
    intros H. exfalso. apply H. rewrite Hc. auto.
Qed.

Lemma keeps_moveTarget db ps n ids step dc np :
  keeps (MoveTo_leaves db (ID n) ps) (moveTarget db n (ID n) ids step dc np).
Proof.
  unfold moveTarget.
  apply keeps_bind; [apply MoveTo_leaves_trans | |].
  - destruct (0 <? Z.of_nat (length ids)); [| apply keeps_ret, MoveTo_leaves_refl].
    apply keeps_Update; [apply MoveTo_leaves_refl |].
    intros r Hs _. unfold MoveTo_leaves. simpl. repeat split; auto; congruence.
  - intros _. apply keeps_Update; [apply MoveTo_leaves_refl |].
    intros r Hs Hc. apply Z.eqb_eq in Hc. unfold MoveTo_leaves. simpl.
    repeat split; auto; congruence.
Qed.

Lemma keeps_moveAffected db id ps n gte lte step :
  keeps (MoveTo_leaves db id ps) (moveAffected db n gte lte step).
Proof.
  unfold moveAffected. apply keeps_Update; [apply MoveTo_leaves_refl |].
  intros r Hs _. unfold MoveTo_leaves. simpl. repeat split; auto; congruence.
Qed.

Lemma keeps_moveToRightOfPosition db ps n pos dc np :
  (Valid (ParentID n) = true -> In (Int64 (ParentID n)) ps) ->
  (Valid np = true -> In (Int64 np) ps) ->
  keeps (MoveTo_leaves db (ID n) ps) (moveToRightOfPosition db n pos dc np).
Proof.
  intros Ho Hn. unfold moveToRightOfPosition.
  apply keeps_Transaction; [apply MoveTo_leaves_refl |].
  apply keeps_bind; [apply MoveTo_leaves_trans | apply keeps_Select, MoveTo_leaves_refl |].
  intros ids.
  destruct (iadd (isub pos (Lft n)) 1 <? 0);
    [| destruct (0 <? iadd (isub pos (Lft n)) 1); [| apply keeps_ret, MoveTo_leaves_refl]].
  - apply keeps_bind; [apply MoveTo_leaves_trans | apply keeps_moveAffected |].
    intros _. apply keeps_bind; [apply MoveTo_leaves_trans | apply keeps_moveTarget |].
    intros _. apply keeps_syncChildrenCount; assumption.
  - apply keeps_bind; [apply MoveTo_leaves_trans | apply keeps_moveAffected |].
    intros _. apply keeps_bind; [apply MoveTo_leaves_trans | apply keeps_moveTarget |].
    intros _. apply keeps_syncChildrenCount; assumption.
Qed.

(** X1.  Whatever the records, the direction and the table, and whether it
    succeeds or not, [MoveTo] adds no row and removes none, keeps the rows
    in their order with their primary keys and scopes, leaves alone the rows
    that the conditions of the handle [db] exclude, writes the parent id of
    no row but the one with the primary key of the node's record, and writes
    the count of children of no row but those whose primary key is the
    parent id of one of the two records or the id of the reference. *)
Theorem MoveTo_frame db node to direction s :
  Forall2 (fun r r' =>
             rID r' = rID r /\ rScope r' = rScope r
             /\ (in_scope db r = false -> r' = r)
             /\ (forall tx targetNode tx' toNode,
                   parseNode db node = Ok (tx, targetNode) ->
                   parseNode db to = Ok (tx', toNode) ->
                   (rID r <> ID targetNode -> rParentID r' = rParentID r)
                   /\ (rID r <> Int64 (ParentID targetNode) ->
                       rID r <> Int64 (ParentID toNode) ->
                       rID r <> ID toNode ->
                       rChildrenCount r' = rChildrenCount r)))
    (rows s) (rows (snd (MoveTo db node to direction s))).
Proof.
  unfold MoveTo, bind, lift.
  destruct (parseNode db node) as [[tx targetNode] | e] eqn:E1;
    [| apply Forall2_refl; intros r; repeat split; auto; discriminate].
  destruct (parseNode db to) as [[tx' toNode] | e] eqn:E2;
    [| apply Forall2_refl; intros r; repeat split; auto; discriminate].
  cbv beta iota zeta. unfold Table.
  set (ps := [Int64 (ParentID targetNode); Int64 (ParentID toNode); ID toNode]).
  eapply Forall2_weaken with (R := MoveTo_leaves db (ID targetNode) ps).
  - intros r r' (A1 & A2 & A3 & A4 & A5).
    split; [exact A1 |]. split; [exact A2 |]. split; [exact A3 |].
    intros tx0 n0 tx1 m0 P1 P2. injection P1 as _ <-. injection P2 as _ <-.
    split; [exact A4 |]. intros H1 H2 H3. apply A5. subst ps. simpl. intuition.
  - destruct ((direction =? MoveDirectionLeft) || (direction =? MoveDirectionRight));
      apply keeps_moveToRightOfPosition; subst ps; simpl; auto.
Qed.

Lemma Create_leaves_refl db tx r : Create_leaves db tx r r.
Proof. unfold Create_leaves. repeat split; auto; lia. Qed.

Lemma Create_leaves_trans db tx x y z :
  Create_leaves db tx x y -> Create_leaves db tx y z -> Create_leaves db tx x z.
Proof.
  unfold Create_leaves.
  intros (A1 & A2 & A3 & A4 & A5 & A6 & A7 & A8 & A9) (B1 & B2 & B3 & B4 & B5 & B6 & B7 & B8 & B9).
  assert (Hs : forall h, in_scope h y = in_scope h x) by (intros; apply in_scope_ext; exact A2).
  split; [congruence |]. split; [congruence |]. split; [congruence |]. split; [congruence |].
  split; [| split; [| lia]].
  - intros H. pose proof (A5 H) as Hy. subst y. auto.
  - intros H. destruct (A6 H) as [E1 E2]. rewrite <- Hs in H. destruct (B6 H) as [E3 E4].
    split; congruence.
Qed.

(** A handle returned by [parseNode] keeps the conditions of [db]. *)
Lemma parse_fields_scope fs db i r :
  in_scope db r = false -> in_scope (fst (fold_left parse_field fs (db, i))) r = false.
Proof.
  revert db i. induction fs as [| f fs IH]; intros db i H; simpl; [exact H |].
  destruct f; simpl; try (apply IH; exact H).
  apply IH. unfold in_scope, Where_scope in *. simpl. rewrite forallb_app, H. reflexivity.
Qed.

Lemma parseNode_scope db src tx item r :
  parseNode db src = Ok (tx, item) -> in_scope db r = false -> in_scope tx r = false.
Proof.
  unfold parseNode. destruct (is_model src); [| discriminate].
  intros H Hs. injection H as H.
  pose proof (parse_fields_scope (fields src) db (empty_item (table src)) r Hs) as Hf.
  rewrite H in Hf. exact Hf.
Qed.

(** X2.  Whatever the records and the table, and whether it succeeds or
    not, [Create] appends at most one row and removes none; every row that
    was there keeps its place, primary key, scope, depth and parent id; its
    bounds and its count of children are never lowered; a row outside the
    scope of the record keeps its bounds, and a row that the conditions of
    [db] exclude is left as it is. *)
Theorem Create_frame db src parent s :
  exists old extra,
    rows (snd (Create db src parent s)) = old ++ extra
    /\ (length extra <= 1)%nat
    /\ Forall2 (fun r r' =>
                  rID r' = rID r /\ rScope r' = rScope r /\ rDepth r' = rDepth r
                  /\ rParentID r' = rParentID r
                  /\ rLft r <= rLft r' /\ rRgt r <= rRgt r'
                  /\ rChildrenCount r <= rChildrenCount r'
                  /\ (in_scope db r = false -> r' = r)
                  /\ (forall tx target, parseNode db src = Ok (tx, target) ->
                      in_scope tx r = false -> rLft r' = rLft r /\ rRgt r' = rRgt r))
         (rows s) old.
Proof.
  destruct (parseNode db src) as [[tx target] | e] eqn:E1.
  - assert (G : grows (Create_leaves db tx) (Create db src parent)).
    { unfold Create. apply grows_Transaction; [apply Create_leaves_refl |].
      rewrite E1. apply grows_bind_lift. cbv beta iota zeta.
      apply grows_bind; [apply Create_leaves_trans | |].
      - destruct parent as [parent |].
        + apply keeps_bind; [apply Create_leaves_trans | apply keeps_lift, Create_leaves_refl |].
          intros [tx' targetParent].
          apply keeps_bind; [apply Create_leaves_trans | |].
          { apply keeps_Update; [apply Create_leaves_refl |].
            intros r Hs _. unfold Table in Hs. unfold Create_leaves. simpl.
            repeat split; auto; try lia; try congruence.
            intros H. rewrite (parseNode_scope db src tx target r E1 H) in Hs. discriminate. }
          intros _. apply keeps_bind; [apply Create_leaves_trans | |].
          { apply keeps_Update; [apply Create_leaves_refl |].
            intros r Hs _. unfold Table in Hs. unfold Create_leaves. simpl.
            repeat split; auto; try lia; try congruence.
            intros H. rewrite (parseNode_scope db src tx target r E1 H) in Hs. discriminate. }
          intros _. apply keeps_bind; [apply Create_leaves_trans | |].
          { apply keeps_Update; [apply Create_leaves_refl |].
            intros r Hs _. unfold Create_leaves. simpl.
            repeat split; auto; try lia; try congruence. }
          intros _. apply keeps_ret, Create_leaves_refl.
        + apply keeps_bind; [apply Create_leaves_trans | |].
          * apply keeps_attempt, keeps_Select, Create_leaves_refl.
          * intros [l | e]; apply keeps_ret, Create_leaves_refl.
      - intros [[d l] r]. apply grows_Insert, Create_leaves_refl. }
    destruct (G s) as (old & extra & E & F & L).
    exists old, extra. split; [exact E |]. split; [exact L |].
    eapply Forall2_weaken; [| exact F].
    intros r r' (A1 & A2 & A3 & A4 & A5 & A6 & A7 & A8 & A9).
    do 8 (split; [assumption |]).
    intros tx0 target0 H. injection H as <- _. exact A6.
  - exists (rows s), []. rewrite app_nil_r.
    split.
    + unfold Create, Transaction, bind, lift. rewrite E1. reflexivity.
    + split; [simpl; lia |]. apply Forall2_refl. intros r.
      do 4 (split; [reflexivity |]). do 3 (split; [lia |]).
      split; [reflexivity | discriminate].
Qed.

(** * Failures *)

Lemma Transaction_err {A} (body : M A) s e :
  fst (Transaction body s) = Err e -> rows (snd (Transaction body s)) = rows s.
Proof.
  unfold Transaction. destruct (body _) as [[a | e'] s2]; simpl; [discriminate | reflexivity].
Qed.

Lemma Transaction_fails {A} (body : M A) s :
  (exists e, fst (body {| rows := rows s; trace := trace s ++ [EvBegin] |}) = Err e) ->
  exists e, fst (Transaction body s) = Err e.
Proof.
  intros [e H]. unfold Transaction. destruct (body _) as [[a | e'] s2]; simpl in *; eauto.
Qed.

(** X3.  [Create] and [MoveTo] are all or nothing: when either returns an
    error, whichever statement failed, the table is the one it was before
    the call. *)
Theorem failure_is_undone db s :
  (forall src parent e,
      fst (Create db src parent s) = Err e -> rows (snd (Create db src parent s)) = rows s)
  /\ (forall node to direction e,
        fst (MoveTo db node to direction s) = Err e ->
        rows (snd (MoveTo db node to direction s)) = rows s).
Proof.
  split.
  - intros src parent e. unfold Create. apply Transaction_err.
  - intros node to direction e. unfold MoveTo, bind, lift.
    destruct (parseNode db node) as [[tx targetNode] | e1]; [| reflexivity].
    destruct (parseNode db to) as [[tx' toNode] | e2]; [| reflexivity].
    cbv beta iota zeta.
    destruct ((direction =? MoveDirectionLeft) || (direction =? MoveDirectionRight));
      unfold moveToRightOfPosition; apply Transaction_err.
Qed.

(** The second child of scenario A, created with a record that lacks the
    [lft] field: the first UPDATE has run when the second fails. *)
Lemma failure_is_undone_witness :
  fst (Create plain record_without_lft (Some (record_of_row (mk 1 None 0 1 4 1 7)))
         (fresh_store tableAB)) = Err StoreError
  /\ trace (snd (Create plain record_without_lft (Some (record_of_row (mk 1 None 0 1 4 1 7)))
                   (fresh_store tableAB)))
     = [EvBegin; EvWrite; EvWrite; EvRollback]
  /\ rows (snd (Create plain record_without_lft (Some (record_of_row (mk 1 None 0 1 4 1 7)))
                  (fresh_store tableAB)))
     = rows (fresh_store tableAB).
Proof.
  split; [vm_compute; reflexivity |]. split; [vm_compute; reflexivity |].
  apply (proj1 (failure_is_undone plain (fresh_store tableAB))
           record_without_lft (Some (record_of_row (mk 1 None 0 1 4 1 7))) StoreError).
  vm_compute. reflexivity.
Defined.

Lemma Insert_duplicate src s :
  rID (row_of_source src) <> 0 ->
  In (rID (row_of_source src)) (map rID (rows s)) ->
  fst (Insert src s) = Err StoreError.
Proof.
  intros H0 Hin. unfold Insert, new_row.
  apply Z.eqb_neq in H0. rewrite H0.
  destruct (existsb _ (rows s)) eqn:E; [reflexivity |].
  exfalso. apply (existsb_id_false _ _ E). exact Hin.
Qed.

Lemma bind_fails {A B} (R : row -> row -> Prop) (P : list row -> Prop) (m : M A)
    (k : A -> M B) s :
  keeps R m ->
  (forall t t', Forall2 R t t' -> P t -> P t') ->
  (forall a s', P (rows s') -> exists e, fst (k a s') = Err e) ->
  P (rows s) ->
  exists e, fst (bind m k s) = Err e.
Proof.
  intros Hm HP Hk Hs. unfold bind. specialize (Hm s).
  destruct (m s) as [[a | e] s1]; simpl in *; [| eauto].
  apply Hk. eapply HP; eauto.
Qed.

(** X4.  A record whose primary key is not zero and is already in the
    table cannot be created: [Create] returns an error, with or without a
    parent and whatever the other fields, and the table is the one it was
    (the bounds shifted for the new child are shifted back). *)
Theorem Create_duplicate_key db src parent s :
  rID (row_of_source src) <> 0 ->
  In (rID (row_of_source src)) (map rID (rows s)) ->
  (exists e, fst (Create db src parent s) = Err e)
  /\ rows (snd (Create db src parent s)) = rows s.
Proof.
  intros H0 Hin.
  assert (Hfail : exists e, fst (Create db src parent s) = Err e).
  { unfold Create. apply Transaction_fails.
    set (s0 := {| rows := rows s; trace := trace s ++ [EvBegin] |}).
    destruct (parseNode db src) as [[tx target] | e] eqn:E1;
      [| unfold bind, lift; simpl; eauto].
    unfold bind at 1, lift at 1. cbv beta iota zeta.
    apply (bind_fails (fun r r' => rID r' = rID r)
             (fun t => In (rID (row_of_source src)) (map rID t))).
    - destruct parent as [parent |].
      + apply keeps_bind; [congruence | apply keeps_lift; reflexivity |].
        intros [tx' targetParent].
        repeat (apply keeps_bind;
                [congruence | apply keeps_Update; [reflexivity | reflexivity] |];
                intros _).
        apply keeps_ret. reflexivity.
      + apply keeps_bind; [congruence | |].
        * apply keeps_attempt, keeps_Select. reflexivity.
        * intros [l | e]; apply keeps_ret; reflexivity.
    - intros t t' HF Ht.
      assert (E : map rID t' = map rID t).
      { clear Ht. induction HF; simpl; congruence. }
      rewrite E. exact Ht.
    - intros [[d l] r] s' Hs'. exists StoreError.
      apply Insert_duplicate; unfold row_of_source, set_fields; simpl fields;
        destruct (row_of_set_fields_other l r d (fields src)) as (-> & _); assumption.
    - exact Hin. }
  split; [exact Hfail |].
  destruct Hfail as [e He]. unfold Create in *. eapply Transaction_err. exact He.
Qed.

Lemma Create_duplicate_key_witness :
  (exists e, fst (Create plain recordB (Some (record_of_row (mk 1 None 0 1 4 1 7)))
                    (fresh_store tableAB)) = Err e)
  /\ rows (snd (Create plain recordB (Some (record_of_row (mk 1 None 0 1 4 1 7)))
                  (fresh_store tableAB)))
     = rows (fresh_store tableAB).
Proof.
  apply (Create_duplicate_key plain recordB (Some (record_of_row (mk 1 None 0 1 4 1 7)))
           (fresh_store tableAB)).
  - vm_compute. discriminate.
  - vm_compute. auto.
Defined.

(** X5.  The row written by a successful [Create] is the caller's record
    with its left bound, right bound and depth overwritten: for a record
    with all its coordinate fields and a free primary key, and a parent (if
    any) that is a model whose primary key is not zero, a row is appended;
    its parent id, count of children and scope are those of the record,
    whatever the parent passed to [Create]; its primary key is the record's
    when that is not zero, and in any case a key that was not in the
    table. *)
Theorem Create_new_row db src parent tx target s :
  parseNode db src = Ok (tx, target) ->
  names_ok target = true ->
  id_free (rows s) src ->
  (forall p, parent = Some p ->
             exists tx' targetParent,
               parseNode db p = Ok (tx', targetParent) /\ ID targetParent <> 0) ->
  exists old new,
    rows (snd (Create db src parent s)) = old ++ [new]
    /\ length old = length (rows s)
    /\ rParentID new = rParentID (row_of_source src)
    /\ rChildrenCount new = rChildrenCount (row_of_source src)
    /\ rScope new = rScope (row_of_source src)
    /\ (rID (row_of_source src) <> 0 -> rID new = rID (row_of_source src))
    /\ ~ In (rID new) (map rID (rows s)).
Proof.
  intros Hp Hn Hf Hpar.
  assert (Hnew : forall t l r d,
             map rID t = map rID (rows s) ->
             let new := new_row t (set_fields l r d src) in
             rParentID new = rParentID (row_of_source src)
             /\ rChildrenCount new = rChildrenCount (row_of_source src)
             /\ rScope new = rScope (row_of_source src)
             /\ (rID (row_of_source src) <> 0 -> rID new = rID (row_of_source src))
             /\ ~ In (rID new) (map rID (rows s))).
  { intros t l r d Ht new.
    assert (Hfree : existsb (fun x => rID x =? rID new) t = false).
    { apply new_row_free, id_free_set_fields. eapply id_free_ext; eauto. }
    apply existsb_id_false in Hfree. rewrite Ht in Hfree.
    split; [| split; [| split; [| split; [| exact Hfree]]]]; subst new;
      unfold new_row, row_of_source, set_fields; simpl fields;
      destruct (row_of_set_fields_other l r d (fields src)) as (E1 & E2 & E3 & E4);
      rewrite E1.
    - destruct (_ =? 0); simpl; exact E3.
    - destruct (_ =? 0); simpl; exact E4.
    - destruct (_ =? 0); simpl; exact E2.
    - intros H0. apply Z.eqb_neq in H0. unfold row_of_source in H0. rewrite H0. exact E1. }
  destruct parent as [parent |].
  - destruct (Hpar parent eq_refl) as (tx' & targetParent & Epp & _).
    pose proof (Create_child_run db src parent tx target tx' targetParent s Hp Hn Epp) as Hrun.
    unfold inserted in Hrun.
    rewrite new_row_free in Hrun
      by (apply id_free_set_fields; eapply id_free_ext; [apply map_rID_Create_rows | exact Hf]).
    destruct Hrun as [_ Hrows].
    eexists. eexists. split; [exact Hrows |].
    split.
    + rewrite <- (length_map rID), map_rID_Create_rows, length_map. reflexivity.
    + apply Hnew. apply map_rID_Create_rows.
  - pose proof (Create_root_run db src tx target s Hp Hn) as Hrun.
    unfold inserted in Hrun. rewrite new_row_free in Hrun by (apply id_free_set_fields, Hf).
    destruct Hrun as [_ Hrows].
    eexists. eexists. split; [exact Hrows |]. split; [reflexivity |].
    apply Hnew. reflexivity.
Qed.

Lemma Create_new_row_witness :
  exists old new,
    rows (snd (Create plain (record 0 None 0 0 0 5 7)
                 (Some (record_of_row (mk 1 None 0 1 4 1 7))) (fresh_store tableAB)))
      = old ++ [new]
    /\ length old = length (rows (fresh_store tableAB))
    /\ rParentID new = rParentID (row_of_source (record 0 None 0 0 0 5 7))
    /\ rChildrenCount new = rChildrenCount (row_of_source (record 0 None 0 0 0 5 7))
    /\ rScope new = rScope (row_of_source (record 0 None 0 0 0 5 7))
    /\ (rID (row_of_source (record 0 None 0 0 0 5 7)) <> 0 ->
        rID new = rID (row_of_source (record 0 None 0 0 0 5 7)))
    /\ ~ In (rID new) (map rID (rows (fresh_store tableAB))).
Proof.
  apply (Create_new_row plain (record 0 None 0 0 0 5 7)
           (Some (record_of_row (mk 1 None 0 1 4 1 7)))
           (Where_scope 7 plain) (item_of_row (mk 0 None 0 0 0 5 7)) (fresh_store tableAB)).
  - reflexivity.
  - by_compute.
  - left. reflexivity.
  - intros p Hp. injection Hp as <-.
    exists (Where_scope 7 plain), (item_of_row (mk 1 None 0 1 4 1 7)).
    split; [reflexivity | vm_compute; discriminate].
Defined.

(** * The links after a relocation *)

Lemma map_keys_update_rows tx cond set t :
  (forall x, keys (set x) = keys x) -> map keys (update_rows tx cond set t) = map keys t.
Proof.
  intros H. unfold update_rows. rewrite map_map. apply map_ext.
  intros r. apply update_row_keys, H.
Qed.

Lemma map_keys_sync_rows tx p t : map keys (sync_rows tx p t) = map keys t.
Proof.
  unfold sync_rows. destruct (Valid p); [| reflexivity].
  apply map_keys_update_rows. reflexivity.
Qed.

Lemma select_parent_sync_rows tx p q t :
  length (select_rows tx (parent_is p) (sync_rows tx q t))
  = length (select_rows tx (parent_is p) t).
Proof.
  apply select_rows_keys; [apply parent_is_keys | apply map_keys_sync_rows].
Qed.

Lemma in_scope_keys tx r r' : keys r = keys r' -> in_scope tx r = in_scope tx r'.
Proof. unfold keys. intros H. apply in_scope_ext. congruence. Qed.

(** The count written by one resynchronisation. *)
Lemma sync_rows_count tx p t r' :
  Valid p = true ->
  In r' (sync_rows tx p t) -> in_scope tx r' = true -> rID r' = Int64 p ->
  rChildrenCount r' = Z.of_nat (length (select_rows tx (parent_is p) (sync_rows tx p t))).
Proof.
  intros Hv Hin Hs Hid. rewrite select_parent_sync_rows.
  unfold sync_rows in Hin. rewrite Hv in Hin. unfold update_rows in Hin.
  apply in_map_iff in Hin as (r & <- & Hr). unfold update_row in *.
  destruct (in_scope tx r && (rID r =? Int64 p)) eqn:E; [reflexivity |].
  rewrite Hs in E. simpl in E. apply Z.eqb_neq in E. contradiction.
Qed.

(** A count that is right stays right when another one is resynchronised. *)
Lemma sync_rows_keeps_count tx p q t :
  Valid p = true ->
  (forall r, In r t -> in_scope tx r = true -> rID r = Int64 p ->
             rChildrenCount r = Z.of_nat (length (select_rows tx (parent_is p) t))) ->
  forall r', In r' (sync_rows tx q t) -> in_scope tx r' = true -> rID r' = Int64 p ->
             rChildrenCount r'
             = Z.of_nat (length (select_rows tx (parent_is p) (sync_rows tx q t))).
Proof.
  intros Hv H r' Hin Hs Hid. rewrite select_parent_sync_rows.
  unfold sync_rows in Hin. destruct (Valid q) eqn:Hq; [| auto].
  unfold update_rows in Hin. apply in_map_iff in Hin as (r & <- & Hr).
  unfold update_row in *.
  destruct (in_scope tx r && (rID r =? Int64 q)) eqn:E; [| auto].
  simpl in *. apply andb_prop in E as [_ E]. apply Z.eqb_eq in E.
  f_equal. f_equal. unfold select_rows. apply List.filter_ext. intros x.
  f_equal. unfold parent_is. rewrite Hv, Hq. destruct (rParentID x); [| reflexivity].
  simpl. congruence.
Qed.

Lemma target_rows_parent tx id ids step dc np t r' :
  In r' (target_rows tx id ids step dc np t) -> in_scope tx r' = true -> rID r' = id ->
  rParentID r' = null_value np.
Proof.
  unfold target_rows, update_rows at 1. intros Hin Hs Hid.
  apply in_map_iff in Hin as (r & <- & Hr). unfold update_row in *.
  destruct (in_scope tx r && (rID r =? id)) eqn:E; [reflexivity |].
  rewrite Hs in E. simpl in E. apply Z.eqb_neq in E. contradiction.
Qed.

Lemma sync_rows_parent tx p t r' :
  In r' (sync_rows tx p t) ->
  exists r, In r t /\ keys r' = keys r.
Proof.
  unfold sync_rows. destruct (Valid p); [| eauto].
  unfold update_rows. intros Hin. apply in_map_iff in Hin as (r & <- & Hr).
  exists r. split; [exact Hr |]. apply update_row_keys. reflexivity.
Qed.

Lemma moved_rows_links tx n ids gte lte astep step dc np t :
  let t' := moved_rows tx n ids gte lte astep step dc np t in
  (forall r', In r' t' -> in_scope tx r' = true -> rID r' = ID n ->
              rParentID r' = null_value np)
  /\ (forall p r', p = ParentID n \/ p = np -> Valid p = true ->
                   In r' t' -> in_scope tx r' = true -> rID r' = Int64 p ->
                   rChildrenCount r' = Z.of_nat (length (select_rows tx (parent_is p) t'))).
Proof.
  intros t'. subst t'. unfold moved_rows.
  set (T := target_rows tx (ID n) ids step dc np (affected_rows tx gte lte astep t)).
  split.
  - intros r' Hin Hs Hid.
    apply sync_rows_parent in Hin as (r1 & Hin & K1).
    apply sync_rows_parent in Hin as (r2 & Hin & K2).
    assert (K : keys r' = keys r2) by congruence.
    rewrite (in_scope_keys tx _ _ K) in Hs.
    unfold keys in K. injection K as K1' K2' K3'. rewrite K3'.
    apply (target_rows_parent tx (ID n) ids step dc np _ r2 Hin Hs). congruence.
  - intros p r' [-> | ->] Hv Hin Hs Hid.
    + apply (sync_rows_keeps_count tx (ParentID n) np); try assumption.
      intros r Hr Hsr Hidr. apply sync_rows_count; assumption.
    + apply sync_rows_count; assumption.
Qed.

Lemma relocate_rows_links tx n pos dc np t :
  iadd (isub pos (Lft n)) 1 <> 0 ->
  (forall r', In r' (relocate_rows tx n pos dc np t) ->
              in_scope tx r' = true -> rID r' = ID n ->
              rParentID r' = null_value np)
  /\ (forall p r', p = ParentID n \/ p = np -> Valid p = true ->
                   In r' (relocate_rows tx n pos dc np t) ->
                   in_scope tx r' = true -> rID r' = Int64 p ->
                   rChildrenCount r'
                   = Z.of_nat (length (select_rows tx (parent_is p)
                                         (relocate_rows tx n pos dc np t)))).
Proof.
  intros Hstep. unfold relocate_rows.
  destruct (iadd (isub pos (Lft n)) 1 <? 0) eqn:E1.
  - apply moved_rows_links.
  - destruct (0 <? iadd (isub pos (Lft n)) 1) eqn:E2.
    + apply moved_rows_links.
    + exfalso. apply Z.ltb_ge in E1, E2. lia.
Qed.

(** X6.  A relocation that moves the node (moveStep is not 0) and does not
    fail leaves the links consistent with the arguments it was given: the row
    of the node has the new parent id, and the count of children stored in
    the row of the new parent, and in the row of the parent named by the
    node's record, is the number of rows whose parent id points at it, all
    of this among the rows that the handle selects. *)
Theorem moveToRightOfPosition_relinks tx n pos dc np s :
  names_ok n = true ->
  iadd (isub pos (Lft n)) 1 <> 0 ->
  fst (moveToRightOfPosition tx n pos dc np s) = Ok tt
  /\ (forall r', In r' (rows (snd (moveToRightOfPosition tx n pos dc np s))) ->
                 in_scope tx r' = true -> rID r' = ID n ->
                 rParentID r' = null_value np)
  /\ (forall p r', p = ParentID n \/ p = np -> Valid p = true ->
                   In r' (rows (snd (moveToRightOfPosition tx n pos dc np s))) ->
                   in_scope tx r' = true -> rID r' = Int64 p ->
                   rChildrenCount r'
                   = count (fun c => in_scope tx c && parent_is p c)
                       (rows (snd (moveToRightOfPosition tx n pos dc np s)))).
Proof.
  intros Hn Hstep.
  destruct (moveToRightOfPosition_run tx n pos dc np s Hn) as [tr ->]. simpl.
  split; [reflexivity |].
  apply relocate_rows_links, Hstep.
Qed.

Lemma moveToRightOfPosition_relinks_witness :
  fst (moveToRightOfPosition plain nodeC 1 0 {| Int64 := 1; Valid := true |}
         (fresh_store tableA)) = Ok tt
  /\ (forall r', In r' (rows (snd (moveToRightOfPosition plain nodeC 1 0
                                     {| Int64 := 1; Valid := true |} (fresh_store tableA)))) ->
                 in_scope plain r' = true -> rID r' = ID nodeC ->
                 rParentID r' = null_value {| Int64 := 1; Valid := true |})
  /\ (forall p r', p = ParentID nodeC \/ p = {| Int64 := 1; Valid := true |} ->
                   Valid p = true ->
                   In r' (rows (snd (moveToRightOfPosition plain nodeC 1 0
                                       {| Int64 := 1; Valid := true |} (fresh_store tableA)))) ->
                   in_scope plain r' = true -> rID r' = Int64 p ->
                   rChildrenCount r'
                   = count (fun c => in_scope plain c && parent_is p c)
                       (rows (snd (moveToRightOfPosition plain nodeC 1 0
                                     {| Int64 := 1; Valid := true |} (fresh_store tableA))))).
Proof.
  apply (moveToRightOfPosition_relinks plain nodeC 1 0 {| Int64 := 1; Valid := true |}
           (fresh_store tableA)).
  - by_compute.
  - vm_compute. discriminate.
Defined.

(** * A move with records read back from the table *)

Lemma forest_all sc t : (forall r, In r t -> rScope r = sc) -> forest sc t = t.
Proof.
  intros H. unfold forest. induction t as [| x t IH]; simpl; [reflexivity |].
  rewrite (H x (or_introl eq_refl)), Z.eqb_refl. f_equal.
  apply IH. intros r Hr. apply H. right. exact Hr.
Qed.

Lemma moved_rows_Relocator db item n lo hi astep step dc q t :
  List.NoDup (map rID t) ->
  (forall r, In r t -> in_scope db r = true /\ rLft r < rRgt r) ->
  ID item = rID n ->
  hi < rLft n \/ rRgt n < lo ->
  Forall2 (fun r r' =>
             geom r' = geom (Relocator_row db (rLft n) (rRgt n) lo hi astep step dc r)
             /\ rParentID r' = (if rID r =? rID n then null_value q else rParentID r)
             /\ rScope r' = rScope r)
    t (moved_rows db item (map rID (select_rows db (within (rLft n) (rRgt n)) t))
         lo hi astep step dc q t).
Proof.
  intros Hnd Hall Hid Hdisj.
  pose proof (Forall2_conj _ _ _ _
                (moved_rows_parent db item
                   (map rID (select_rows db (within (rLft n) (rRgt n)) t))
                   lo hi astep step dc q t)
                (moved_rows_spec db item (rLft n) (rRgt n) lo hi astep step dc q t
                   Hnd Hdisj)) as HF.
  apply Forall2_In_l with (P := fun r => in_scope db r = true /\ rLft r < rRgt r);
    [| exact Hall].
  eapply Forall2_weaken; [| exact HF].
  intros r r' [[H1 H2] H3] [Hs Ho]. specialize (H3 Ho).
  split; [exact H3 |]. rewrite Hs, Hid in H2. simpl in H2. split; [exact H2 |].
  unfold geom in H3. injection H3 as _ G _ _ _. rewrite G.
  apply scope_Relocator_row.
Qed.

(** What [MoveTo] does with such records: nothing when the node is in place
    already, and otherwise the swap of two adjacent blocks. *)
Lemma MoveTo_relocation db direction n m s :
  fresh_move db (rows s) n m ->
  let pos := position_of direction m in
  let out := MoveTo db (record_of_row n) (record_of_row m) direction s in
  fst out = Ok tt
  /\ ((pos + 1 = rLft n /\ rows (snd out) = rows s)
      \/ exists lo hi astep step,
           swaps n pos lo hi astep step
           /\ Forall2 (fun r r' =>
                         geom r' = geom (Relocator_row db (rLft n) (rRgt n) lo hi astep step
                                           (depth_of direction m - rDepth n) r)
                         /\ rParentID r' = (if rID r =? rID n then parent_of direction m
                                            else rParentID r)
                         /\ rScope r' = rScope r)
                (rows s) (rows (snd out))).
Proof.
  intros [Hinv Hn Hm Hone Hw Hb Hdn Hdm Hin Him] pos out.
  pose proof Hinv as [Hnd _].
  destruct (destination_outside (rows s) n m Hinv Hn Hm (proj2 (Hone m Hm)) Hw) as [Hom Hout].
  pose proof (Invariants_order _ n Hinv Hn) as Hon.
  destruct (Hb n Hn) as [Hs1 Hs2]. destruct (Hb m Hm) as [Hs3 Hs4].
  destruct (item_of_row_fields n) as (In1 & In2 & In3 & In4 & In5);
    try (unfold int_range, small in *; lia).
  destruct (item_of_row_fields m) as (Im1 & Im2 & Im3 & Im4 & Im5);
    try (unfold int_range, small in *; lia).
  subst out. rewrite MoveTo_rows_of. rewrite Im1, Im2, Im3, Im4, Im5, In4.
  assert (Epos : (if direction =? MoveDirectionLeft then isub (rLft m) 1
                  else if direction =? MoveDirectionRight then rRgt m else rLft m) = pos).
  { subst pos. unfold position_of. destruct (direction =? MoveDirectionLeft); [| reflexivity].
    unwrap. reflexivity. }
  assert (Edc : (if (direction =? MoveDirectionLeft) || (direction =? MoveDirectionRight)
                 then isub (rDepth m) (rDepth n)
                 else isub (iadd (rDepth m) 1) (rDepth n))
                = depth_of direction m - rDepth n).
  { unfold depth_of.
    destruct ((direction =? MoveDirectionLeft) || (direction =? MoveDirectionRight));
      unwrap; reflexivity. }
  rewrite Epos, Edc.
  set (q := if (direction =? MoveDirectionLeft) || (direction =? MoveDirectionRight)
            then null_of (rParentID m) else {| Int64 := rID m; Valid := true |}).
  assert (Enp : null_value q = parent_of direction m).
  { subst q. unfold parent_of.
    destruct ((direction =? MoveDirectionLeft) || (direction =? MoveDirectionRight));
      [apply null_value_null_of | reflexivity]. }
  set (dc := depth_of direction m - rDepth n).
  destruct (moveToRightOfPosition_run db (item_of_row n) pos dc q s (names_ok_item_of_row n))
    as [tr Hrun].
  rewrite Hrun. simpl. split; [reflexivity |].
  assert (Hpos : - 2 ^ 61 <= pos <= 2 ^ 61).
  { subst pos. unfold position_of, small in *.
    destruct (direction =? MoveDirectionLeft); [lia |].
    destruct (direction =? MoveDirectionRight); lia. }
  assert (Hall : forall r, In r (rows s) -> in_scope db r = true /\ rLft r < rRgt r).
  { intros r Hr. split; [apply Hone, Hr | eapply Invariants_order; eauto]. }
  destruct (relocate_rows_cases db (item_of_row n) n pos dc q (rows s) In2 In3
              ltac:(unfold small in *; lia) ltac:(unfold small in *; lia) Hpos)
    as [[Hz E] | [[Hneg E] | [Hge E]]]; rewrite E.
  - left. auto.
  - right. exists (pos + 1), (rLft n - 1), (rRgt n - rLft n + 1), (pos + 1 - rLft n).
    split; [left; repeat split; lia |].
    rewrite <- Enp. apply moved_rows_Relocator; try assumption. lia.
  - assert (Hge' : rRgt n <= pos).
    { subst pos. unfold position_of in *.
      destruct (direction =? MoveDirectionLeft); [lia |].
      destruct (direction =? MoveDirectionRight); lia. }
    right. exists (rRgt n + 1), pos, (- (rRgt n - rLft n + 1)), (pos - rRgt n).
    split; [right; repeat split; lia |].
    rewrite <- Enp. apply moved_rows_Relocator; try assumption. lia.
Qed.

Lemma Forall2_In_r {A B} (R : A -> B -> Prop) l l' b :
  Forall2 R l l' -> In b l' -> exists a, In a l /\ R a b.
Proof.
  intros H. induction H as [| x y l l' Hxy _ IH]; simpl; [tauto |].
  intros [<- | Hb]; [eauto |]. destruct (IH Hb) as (a & Ha & HR). eauto.
Qed.

Lemma Forall2_In_left {A B} (R : A -> B -> Prop) l l' a :
  Forall2 R l l' -> In a l -> exists b, In b l' /\ R a b.
Proof.
  intros H. induction H as [| x y l l' Hxy _ IH]; simpl; [tauto |].
  intros [<- | Ha]; [eauto |]. destruct (IH Ha) as (b & Hb & HR). eauto.
Qed.

(** The image of a row of the table, found by its primary key. *)
Lemma image_by_id (R : row -> row -> Prop) t t' r r' :
  Forall2 (fun a b => rID b = rID a /\ R a b) t t' ->
  List.NoDup (map rID t) ->
  In r t -> In r' t' -> rID r' = rID r -> R r r'.
Proof. apply Forall2_by_id. Qed.

Section FreshMove.

Variables (db : DB) (direction : MoveDirection) (n m : row) (s : store).
Hypothesis Hfresh : fresh_move db (rows s) n m.

Let out := MoveTo db (record_of_row n) (record_of_row m) direction s.
Let pos := position_of direction m.

Lemma fresh_nested : nested_set (rows s).
Proof.
  destruct Hfresh as [[_ Hf] Hn _ Hone _ _ _ _ _ _].
  rewrite <- (forest_all (rScope n) (rows s)); [apply Hf |].
  intros r Hr. apply Hone, Hr.
Qed.

Lemma fresh_in_scope r : In r (rows s) -> in_scope db r = true.
Proof. intros Hr. apply (fm_one _ _ _ _ Hfresh), Hr. Qed.

Lemma fresh_ref_outside :
  rLft m < rRgt m
  /\ (rRgt m < rLft n \/ rRgt n < rLft m \/ (rLft m < rLft n /\ rRgt n < rRgt m)).
Proof.
  destruct Hfresh as [Hinv Hn Hm Hone Hw _ _ _ _ _].
  apply (destination_outside (rows s) n m Hinv Hn Hm (proj2 (Hone m Hm)) Hw).
Qed.

(** The rows of the node and of the reference after a move that was not a
    no-op. *)
Lemma fresh_images lo hi astep step n1 m1 :
  swaps n pos lo hi astep step ->
  Forall2 (fun r r' =>
             geom r' = geom (Relocator_row db (rLft n) (rRgt n) lo hi astep step
                               (depth_of direction m - rDepth n) r)
             /\ rParentID r' = (if rID r =? rID n then parent_of direction m else rParentID r)
             /\ rScope r' = rScope r)
    (rows s) (rows (snd out)) ->
  In n1 (rows (snd out)) -> rID n1 = rID n ->
  In m1 (rows (snd out)) -> rID m1 = rID m ->
  (rLft n1 = rLft n + step /\ rRgt n1 = rRgt n + step
   /\ rDepth n1 = depth_of direction m /\ rParentID n1 = parent_of direction m)
  /\ (rLft m1 = swap_blocks (rLft n) (rRgt n) lo hi astep step (rLft m)
      /\ rRgt m1 = swap_blocks (rLft n) (rRgt n) lo hi astep step (rRgt m)
      /\ rDepth m1 = rDepth m /\ rParentID m1 = rParentID m).
Proof.
  intros Hdir HF Hn1 Hid1 Hm1 Hid2.
  pose proof Hfresh as [Hinv Hn Hm Hone Hw _ _ _ _ _].
  pose proof Hinv as [Hnd _].
  assert (HF' : Forall2 (fun a b => rID b = rID a /\
                  (geom b = geom (Relocator_row db (rLft n) (rRgt n) lo hi astep step
                                    (depth_of direction m - rDepth n) a)
                   /\ rParentID b = (if rID a =? rID n then parent_of direction m
                                     else rParentID a)))
                 (rows s) (rows (snd out))).
  { eapply Forall2_weaken; [| exact HF]. intros a b (G & P & _).
    split; [| auto]. unfold geom in G. injection G as G _ _ _ _. rewrite G.
    unfold Relocator_row. destruct (in_scope db a); [| reflexivity].
    destruct (within _ _ a); reflexivity. }
  assert (Hne : rID m <> rID n).
  { intros E. assert (m = n) by (eapply NoDup_map_inj; eauto). subst m.
    unfold within in Hw. rewrite !Z.leb_refl in Hw. discriminate. }
  split.
  - destruct (image_by_id _ _ _ n n1 HF' Hnd Hn Hn1 Hid1) as [G P].
    rewrite Z.eqb_refl in P.
    destruct (reloc_coords db (rows s) n lo hi astep step (depth_of direction m - rDepth n)
                fresh_nested Hnd Hn fresh_in_scope n Hn) as (C1 & C2 & _).
    unfold geom in G. injection G as _ _ G3 G4 G5.
    pose proof (reloc_n_order (rows s) n fresh_nested Hn) as Hon.
    rewrite G3, G4, C1, C2.
    rewrite !(rho_in n lo hi astep step) by lia.
    split; [reflexivity |]. split; [reflexivity |]. split; [| exact P].
    rewrite G5. unfold Relocator_row. rewrite (fresh_in_scope n Hn).
    unfold within. rewrite !Z.leb_refl. simpl. lia.
  - destruct (image_by_id _ _ _ m m1 HF' Hnd Hm Hm1 Hid2) as [G P].
    destruct (Z.eqb_spec (rID m) (rID n)) as [E | _]; [contradiction |].
    destruct (reloc_coords db (rows s) n lo hi astep step (depth_of direction m - rDepth n)
                fresh_nested Hnd Hn fresh_in_scope m Hm) as (C1 & C2 & _).
    unfold geom in G. injection G as _ _ G3 G4 G5.
    rewrite G3, G4, C1, C2.
    split; [reflexivity |]. split; [reflexivity |]. split; [| exact P].
    rewrite G5. unfold Relocator_row. rewrite (fresh_in_scope m Hm), Hw. reflexivity.
Qed.

End FreshMove.

(** X7.  With records read back from a table of one forest that satisfies
    the invariants, and a reference outside the subtree of the node,
    [MoveTo] succeeds and puts the node where the direction says: for
    MoveDirectionLeft its right bound is one less than the left bound of the
    reference, for MoveDirectionRight its left bound is one more than the
    right bound of the reference, otherwise (MoveDirectionInner) its left
    bound is one more than the left bound of the reference; the width of the
    node is kept.  Unless the node was in place already, in which case the
    table is untouched, its depth is the depth of the reference (plus one
    for Inner) and its parent id is the parent id of the reference (the id of
    the reference for Inner), while the depth and the parent id of the
    reference are kept. *)
Theorem MoveTo_places_node db direction n m s n1 m1 :
  fresh_move db (rows s) n m ->
  In n1 (rows (snd (MoveTo db (record_of_row n) (record_of_row m) direction s))) ->
  rID n1 = rID n ->
  In m1 (rows (snd (MoveTo db (record_of_row n) (record_of_row m) direction s))) ->
  rID m1 = rID m ->
  fst (MoveTo db (record_of_row n) (record_of_row m) direction s) = Ok tt
  /\ placed direction n1 m1
  /\ rRgt n1 - rLft n1 = rRgt n - rLft n
  /\ ((position_of direction m + 1 = rLft n
       /\ rows (snd (MoveTo db (record_of_row n) (record_of_row m) direction s)) = rows s)
      \/ (rDepth n1 = depth_of direction m1 /\ rParentID n1 = parent_of direction m1
          /\ rDepth m1 = rDepth m /\ rParentID m1 = rParentID m)).
Proof.
  intros Hfresh Hn1 Hid1 Hm1 Hid2.
  pose proof Hfresh as [Hinv Hn Hm Hone Hw Hb Hdn Hdm Hin Him].
  pose proof Hinv as [Hnd _].
  destruct (MoveTo_relocation db direction n m s Hfresh) as [Hok Hcases].
  split; [exact Hok |].
  destruct (fresh_ref_outside db n m s Hfresh) as [Hom Hout].
  pose proof (Invariants_order _ n Hinv Hn) as Hon.
  destruct Hcases as [[Hz E] | (lo & hi & astep & step & Hdir & HF)].
  - rewrite E in Hn1, Hm1.
    assert (n1 = n) by (eapply NoDup_map_inj; eauto). subst n1.
    assert (m1 = m) by (eapply NoDup_map_inj; eauto). subst m1.
    split; [| split; [reflexivity | left; auto]].
    unfold placed. unfold position_of in Hz.
    destruct (direction =? MoveDirectionLeft); [lia |].
    destruct (direction =? MoveDirectionRight); lia.
  - destruct (fresh_images db direction n m s Hfresh lo hi astep step n1 m1 Hdir HF
                Hn1 Hid1 Hm1 Hid2) as [(A1 & A2 & A3 & A4) (B1 & B2 & B3 & B4)].
    split; [| split; [lia | right]].
    + unfold placed. unfold swap_blocks in B1, B2. unfold swaps, position_of in Hdir.
      destruct (direction =? MoveDirectionLeft);
        [| destruct (direction =? MoveDirectionRight)];
        repeat match goal with
               | H : context [?a <=? ?b] |- _ => destruct (Z.leb_spec a b)
               end; cbn [andb orb] in *; lia.
    + unfold depth_of, parent_of in *.
      assert (Eid : rID m1 = rID m) by exact Hid2.
      destruct ((direction =? MoveDirectionLeft) || (direction =? MoveDirectionRight));
        repeat split; congruence.
Qed.

(** The second child of scenario A moved relative to the first. *)
Lemma fresh_move_tableA :
  fresh_move plain (rows (fresh_store tableA))
    (mk 3 (Some 1) 1 4 5 0 7) (mk 2 (Some 1) 1 2 3 0 7).
Proof.
  constructor.
  - exact Invariants_tableA.
  - simpl. auto.
  - simpl. auto.
  - each_row; auto.
  - reflexivity.
  - each_row; by_compute.
  - by_compute.
  - by_compute.
  - by_compute.
  - by_compute.
Qed.

Lemma MoveTo_places_node_witness :
  fst (MoveTo plain (record_of_row (mk 3 (Some 1) 1 4 5 0 7))
         (record_of_row (mk 2 (Some 1) 1 2 3 0 7)) MoveDirectionLeft (fresh_store tableA))
    = Ok tt
  /\ placed MoveDirectionLeft (mk 3 (Some 1) 1 2 3 0 7) (mk 2 (Some 1) 1 4 5 0 7)
  /\ rRgt (mk 3 (Some 1) 1 2 3 0 7) - rLft (mk 3 (Some 1) 1 2 3 0 7)
     = rRgt (mk 3 (Some 1) 1 4 5 0 7) - rLft (mk 3 (Some 1) 1 4 5 0 7)
  /\ ((position_of MoveDirectionLeft (mk 2 (Some 1) 1 2 3 0 7) + 1
       = rLft (mk 3 (Some 1) 1 4 5 0 7)
       /\ rows (snd (MoveTo plain (record_of_row (mk 3 (Some 1) 1 4 5 0 7))
                       (record_of_row (mk 2 (Some 1) 1 2 3 0 7)) MoveDirectionLeft
                       (fresh_store tableA)))
          = rows (fresh_store tableA))
      \/ (rDepth (mk 3 (Some 1) 1 2 3 0 7)
          = depth_of MoveDirectionLeft (mk 2 (Some 1) 1 4 5 0 7)
          /\ rParentID (mk 3 (Some 1) 1 2 3 0 7)
             = parent_of MoveDirectionLeft (mk 2 (Some 1) 1 4 5 0 7)
          /\ rDepth (mk 2 (Some 1) 1 4 5 0 7) = rDepth (mk 2 (Some 1) 1 2 3 0 7)
          /\ rParentID (mk 2 (Some 1) 1 4 5 0 7) = rParentID (mk 2 (Some 1) 1 2 3 0 7))).
Proof.
  apply (MoveTo_places_node plain MoveDirectionLeft (mk 3 (Some 1) 1 4 5 0 7)
           (mk 2 (Some 1) 1 2 3 0 7) (fresh_store tableA)).
  - exact fresh_move_tableA.
  - rewrite after_move_rows_explicit. simpl. auto.
  - reflexivity.
  - rewrite after_move_rows_explicit. simpl. auto.
  - reflexivity.
Defined.

(** X8.  Under the same conditions the subtree moves as a whole and nothing
    else joins it: a row lies in the interval of the node after the move
    exactly when it did before; such a row keeps its offset from the left
    bound of the node, its width and its depth relative to the node; any
    other row keeps its depth and its parent id. *)
Theorem MoveTo_moves_subtree db direction n m s n1 :
  fresh_move db (rows s) n m ->
  In n1 (rows (snd (MoveTo db (record_of_row n) (record_of_row m) direction s))) ->
  rID n1 = rID n ->
  Forall2 (fun r r' =>
             rID r' = rID r
             /\ within (rLft n1) (rRgt n1) r' = within (rLft n) (rRgt n) r
             /\ (within (rLft n) (rRgt n) r = true ->
                 rLft r' - rLft n1 = rLft r - rLft n
                 /\ rRgt r' - rLft r' = rRgt r - rLft r
                 /\ rDepth r' - rDepth n1 = rDepth r - rDepth n)
             /\ (within (rLft n) (rRgt n) r = false ->
                 rDepth r' = rDepth r /\ rParentID r' = rParentID r))
    (rows s) (rows (snd (MoveTo db (record_of_row n) (record_of_row m) direction s))).
Proof.
  intros Hfresh Hn1 Hid1.
  pose proof Hfresh as [Hinv Hn Hm Hone Hw Hb Hdn Hdm Hin Him].
  pose proof Hinv as [Hnd _].
  pose proof (fresh_nested db n m s Hfresh) as Hns.
  pose proof (fresh_in_scope db n m s Hfresh) as Hsc.
  pose proof (reloc_n_order (rows s) n Hns Hn) as Hon.
  destruct (MoveTo_relocation db direction n m s Hfresh) as [_ Hcases].
  destruct Hcases as [[Hz E] | (lo & hi & astep & step & Hdir & HF)].
  - rewrite E in Hn1 |- *.
    assert (n1 = n) by (eapply NoDup_map_inj; eauto). subst n1.
    apply Forall2_refl. intros r. repeat split; auto.
  - assert (Hm1 : exists m1, In m1 (rows (snd (MoveTo db (record_of_row n) (record_of_row m)
                                                  direction s))) /\ rID m1 = rID m).
    { destruct (Forall2_In_left _ _ _ m HF Hm) as (m1 & Hm1 & G & _).
      exists m1. split; [exact Hm1 |]. unfold geom in G. injection G as G _ _ _ _.
      rewrite G. apply (reloc_coords db (rows s) n lo hi astep step _ Hns Hnd Hn Hsc m Hm). }
    destruct Hm1 as (m1 & Hm1 & Hid2).
    destruct (fresh_images db direction n m s Hfresh lo hi astep step n1 m1 Hdir HF
                Hn1 Hid1 Hm1 Hid2) as [(A1 & A2 & A3 & A4) _].
    apply Forall2_In_l with (P := fun r => In r (rows s)); [| auto].
    eapply Forall2_weaken; [| exact HF].
    intros r r' (G & P & _) Hr.
    destruct (reloc_coords db (rows s) n lo hi astep step (depth_of direction m - rDepth n)
                Hns Hnd Hn Hsc r Hr) as (C1 & C2 & C3).
    unfold geom in G. injection G as G1 _ G3 G4 G5.
    rewrite C1 in G3. rewrite C2 in G4. rewrite C3 in G1.
    split; [exact G1 |].
    destruct (reloc_closed (rows s) n Hns Hnd Hn r Hr)
      as [Hor [(Hwr & H1 & H2) | (Hwr & Hout)]]; rewrite Hwr.
    + rewrite !(rho_in n lo hi astep step) in G3, G4 by lia.
      assert (Ed : rDepth r' = rDepth r + (depth_of direction m - rDepth n)).
      { rewrite G5. unfold Relocator_row. rewrite (Hsc r Hr), Hwr. reflexivity. }
      split; [| split; [intros _; lia | discriminate]].
      unfold within. rewrite G3, G4, A1, A2.
      apply andb_true_intro. split; apply Z.leb_le; lia.
    + assert (Ed : rDepth r' = rDepth r).
      { rewrite G5. unfold Relocator_row. rewrite (Hsc r Hr), Hwr. reflexivity. }
      assert (Ep : rParentID r' = rParentID r).
      { rewrite P. destruct (Z.eqb_spec (rID r) (rID n)) as [E | _]; [| reflexivity].
        assert (r = n) by (eapply NoDup_map_inj; eauto). subst r.
        unfold within in Hwr. rewrite !Z.leb_refl in Hwr. discriminate. }
      split; [| split; [discriminate | auto]].
      pose proof (reloc_order db (rows s) n _ lo hi astep step
                    (depth_of direction m - rDepth n) Hns Hnd Hn Hsc Hdir r Hr) as Ho'.
      rewrite C1, C2 in Ho'.
      assert (Hl : rLft r < rLft n \/ rRgt n < rLft r) by lia.
      pose proof (rho_out_block (rows s) n _ lo hi astep step Hns Hn Hdir (rLft r) Hl) as Hb1.
      unfold within. rewrite G3, G4, A1, A2.
      destruct (Z.leb_spec (rLft n + step)
                  (swap_blocks (rLft n) (rRgt n) lo hi astep step (rLft r)));
        destruct (Z.leb_spec (swap_blocks (rLft n) (rRgt n) lo hi astep step (rRgt r))
                    (rRgt n + step)); simpl; try reflexivity; lia.
Qed.

Lemma MoveTo_moves_subtree_witness :
  Forall2 (fun r r' =>
             rID r' = rID r
             /\ within (rLft (mk 3 (Some 1) 1 2 3 0 7)) (rRgt (mk 3 (Some 1) 1 2 3 0 7)) r'
                = within (rLft (mk 3 (Some 1) 1 4 5 0 7)) (rRgt (mk 3 (Some 1) 1 4 5 0 7)) r
             /\ (within (rLft (mk 3 (Some 1) 1 4 5 0 7)) (rRgt (mk 3 (Some 1) 1 4 5 0 7)) r
                 = true ->
                 rLft r' - rLft (mk 3 (Some 1) 1 2 3 0 7)
                 = rLft r - rLft (mk 3 (Some 1) 1 4 5 0 7)
                 /\ rRgt r' - rLft r' = rRgt r - rLft r
                 /\ rDepth r' - rDepth (mk 3 (Some 1) 1 2 3 0 7)
                    = rDepth r - rDepth (mk 3 (Some 1) 1 4 5 0 7))
             /\ (within (rLft (mk 3 (Some 1) 1 4 5 0 7)) (rRgt (mk 3 (Some 1) 1 4 5 0 7)) r
                 = false ->
                 rDepth r' = rDepth r /\ rParentID r' = rParentID r))
    (rows (fresh_store tableA))
    (rows (snd (MoveTo plain (record_of_row (mk 3 (Some 1) 1 4 5 0 7))
                  (record_of_row (mk 2 (Some 1) 1 2 3 0 7)) MoveDirectionLeft
                  (fresh_store tableA)))).
Proof.
  apply (MoveTo_moves_subtree plain MoveDirectionLeft (mk 3 (Some 1) 1 4 5 0 7)
           (mk 2 (Some 1) 1 2 3 0 7) (fresh_store tableA) (mk 3 (Some 1) 1 2 3 0 7)).
  - exact fresh_move_tableA.
  - rewrite after_move_rows_explicit. simpl. auto.
  - reflexivity.
Defined.

(** * Depths and parent ids *)

Section RelocationLinks.

Variables (tx : DB) (f : list row) (n m : row) (direction : MoveDirection).
Variables (lo hi astep step : Z).

Let pos := position_of direction m.
Let dc := depth_of direction m - rDepth n.

Hypothesis Hns : nested_set f.
Hypothesis Hnd : List.NoDup (map rID f).
Hypothesis Hn : In n f.
Hypothesis Hsc : forall r, In r f -> in_scope tx r = true.
Hypothesis Hm : In m f.
Hypothesis Hw : within (rLft n) (rRgt n) m = false.
Hypothesis Hdir : swaps n pos lo hi astep step.

Let F := Relocator_row tx (rLft n) (rRgt n) lo hi astep step dc.
Let rho := swap_blocks (rLft n) (rRgt n) lo hi astep step.

Let closed := reloc_closed f n Hns Hnd Hn.
Let coords := reloc_coords tx f n lo hi astep step dc Hns Hnd Hn Hsc.
Let block_in := rho_in n lo hi astep step.
Let out_mono := rho_out_mono f n pos lo hi astep step Hns Hn Hdir.
Let out_block := rho_out_block f n pos lo hi astep step Hns Hn Hdir.

(** The subtree is put back at the cut after [pos]: a bound outside the
    block ends left of it when it was at or before [pos], and right of it
    when it was after. *)
Lemma rho_cut e :
  e < rLft n \/ rRgt n < e ->
  (rho e < rLft n + step <-> e <= pos) /\ (rRgt n + step < rho e <-> pos < e).
Proof.
  intros He. pose proof (reloc_n_order f n Hns Hn) as Hon.
  pose proof (rho_cases n lo hi astep step e) as Hc. unfold rho.
  destruct Hdir as [Hdl | Hdr]; lia.
Qed.

Lemma depth_F x :
  In x f ->
  rDepth (F x) = if within (rLft n) (rRgt n) x then rDepth x + dc else rDepth x.
Proof.
  intros Hx. unfold F, Relocator_row. rewrite (Hsc x Hx).
  destruct (within (rLft n) (rRgt n) x); reflexivity.
Qed.

(** A row outside the subtree keeps its ancestors. *)
Lemma inside_F_out x a :
  In x f -> In a f -> within (rLft n) (rRgt n) x = false ->
  inside (F x) (F a) = inside x a.
Proof.
  intros Hx Ha Hwx. pose proof (reloc_n_order f n Hns Hn) as Hon. unfold F.
  apply bool_eq_iff. rewrite !inside_iff.
  destruct (coords x Hx) as (Lx & Rx & _). destruct (coords a Ha) as (La & Ra & _).
  rewrite La, Ra, Lx, Rx.
  destruct (closed x Hx) as [Hox [(Hwx' & _) | (_ & Hcx)]]; [congruence |].
  assert (X1 : rLft x < rLft n \/ rRgt n < rLft x) by lia.
  assert (X2 : rRgt x < rLft n \/ rRgt n < rRgt x) by lia.
  destruct (closed a Ha) as [Hoa [(Hwa & Hca) | (Hwa & Hca)]].
  - rewrite (block_in (rLft a)), (block_in (rRgt a)) by lia.
    pose proof (out_block _ X1) as B1. pose proof (out_block _ X2) as B2.
    pose proof (out_mono _ _ X1 X2) as M. lia.
  - assert (O1 : rLft a < rLft n \/ rRgt n < rLft a) by lia.
    assert (O2 : rRgt a < rLft n \/ rRgt n < rRgt a) by lia.
    pose proof (out_mono _ _ O1 X1) as M1. pose proof (out_mono _ _ X2 O2) as M2.
    lia.
Qed.

(** Inside the subtree nothing changes. *)
Lemma inside_F_block x a :
  In x f -> In a f ->
  within (rLft n) (rRgt n) x = true -> within (rLft n) (rRgt n) a = true ->
  inside (F x) (F a) = inside x a.
Proof.
  intros Hx Ha Hwx Hwa. unfold F. apply bool_eq_iff. rewrite !inside_iff.
  destruct (coords x Hx) as (Lx & Rx & _). destruct (coords a Ha) as (La & Ra & _).
  destruct (closed x Hx) as [Hox [(_ & Hcx) | (Hwx' & _)]]; [| congruence].
  destruct (closed a Ha) as [Hoa [(_ & Hca) | (Hwa' & _)]]; [| congruence].
  rewrite (block_in (rLft a)) in La by lia. rewrite (block_in (rRgt a)) in Ra by lia.
  rewrite (block_in (rLft x)) in Lx by lia. rewrite (block_in (rRgt x)) in Rx by lia.
  rewrite La, Ra, Lx, Rx. lia.
Qed.

(** The ancestors that a row of the subtree has outside the subtree are,
    after the move, the rows that hold the cut, *)
Lemma inside_F_cut x a :
  In x f -> In a f ->
  within (rLft n) (rRgt n) x = true -> within (rLft n) (rRgt n) a = false ->
  inside (F x) (F a) = straddles pos a.
Proof.
  intros Hx Ha Hwx Hwa. pose proof (reloc_n_order f n Hns Hn) as Hon. unfold F.
  apply bool_eq_iff. unfold straddles.
  rewrite andb_true_iff, inside_iff, Z.leb_le, Z.ltb_lt.
  destruct (coords x Hx) as (Lx & Rx & _). destruct (coords a Ha) as (La & Ra & _).
  destruct (closed x Hx) as [Hox [(_ & Hcx) | (Hwx' & _)]]; [| congruence].
  destruct (closed a Ha) as [Hoa [(Hwa' & _) | (_ & Hca)]]; [congruence |].
  rewrite (block_in (rLft x)) in Lx by lia. rewrite (block_in (rRgt x)) in Rx by lia.
  rewrite La, Ra, Lx, Rx.
  assert (O1 : rLft a < rLft n \/ rRgt n < rLft a) by lia.
  assert (O2 : rRgt a < rLft n \/ rRgt n < rRgt a) by lia.
  pose proof (rho_cut _ O1) as [C1 C2]. pose proof (rho_cut _ O2) as [C3 C4].
  pose proof (out_block _ O1) as B1. pose proof (out_block _ O2) as B2.
  unfold rho in *. lia.
Qed.

(** and before the move the ancestors of the node. *)
Lemma inside_block_out x a :
  In x f -> In a f ->
  within (rLft n) (rRgt n) x = true -> within (rLft n) (rRgt n) a = false ->
  inside x a = inside n a.
Proof.
  intros Hx Ha Hwx Hwa. pose proof (reloc_n_order f n Hns Hn) as Hon.
  apply bool_eq_iff. rewrite !inside_iff.
  destruct (closed x Hx) as [Hox [(_ & Hcx) | (Hwx' & _)]]; [| congruence].
  destruct (closed a Ha) as [Hoa [(Hwa' & _) | (_ & Hca)]]; [congruence |].
  lia.
Qed.

(** No row of the subtree holds the cut or contains the node. *)
Lemma block_not_outside a :
  In a f -> within (rLft n) (rRgt n) a = true ->
  straddles pos a = false /\ inside n a = false.
Proof.
  intros Ha Hwa. pose proof (reloc_n_order f n Hns Hn) as Hon.
  destruct (closed a Ha) as [Hoa [(_ & Hca) | (Hwa' & _)]]; [| congruence].
  split.
  - unfold straddles. unfold swaps in Hdir.
    destruct (Z.leb_spec (rLft a) pos), (Z.ltb_spec pos (rRgt a)); simpl; try reflexivity.
    destruct Hdir as [Hdl | Hdr]; lia.
  - apply inside_false_iff. lia.
Qed.

(** A row of the subtree other than the node lies strictly inside it. *)
Lemma block_inside_node x :
  In x f -> within (rLft n) (rRgt n) x = true -> rID x <> rID n -> inside x n = true.
Proof.
  intros Hx Hwx Hne. pose proof Hns as [Ho Hl _].
  destruct (closed x Hx) as [Hox [(_ & Hcx) | (Hwx' & _)]]; [| congruence].
  pose proof (Ho n Hn) as Hon.
  destruct (Hl x n Hx Hn Hne) as [[H | H] | [H | H]]; try exact H.
  - lia.
  - lia.
  - apply inside_iff in H. lia.
Qed.

(** The rows that hold the cut are the ancestors of the reference, and the
    reference itself when the node goes inside it. *)
Lemma straddles_reference a :
  In a f ->
  straddles pos a =
  (if (direction =? MoveDirectionLeft) || (direction =? MoveDirectionRight)
   then inside m a else (rID a =? rID m) || inside m a).
Proof.
  intros Ha. pose proof Hns as [Ho Hl _].
  pose proof (Ho a Ha) as Hoa. pose proof (Ho m Hm) as Hom.
  assert (Hlam : rID a <> rID m ->
                 (rRgt a < rLft m \/ rRgt m < rLft a)
                 \/ (rLft m < rLft a /\ rRgt a < rRgt m)
                 \/ (rLft a < rLft m /\ rRgt m < rRgt a)).
  { intros Hne. destruct (Hl a m Ha Hm Hne) as [H | [H | H]];
      try apply inside_iff in H; unfold apart in *; tauto. }
  apply bool_eq_iff. unfold straddles, pos, position_of.
  destruct (Z.eqb_spec (rID a) (rID m)) as [E | E].
  - assert (a = m) by (eapply NoDup_map_inj; eauto). subst a.
    destruct (direction =? MoveDirectionLeft);
      [| destruct (direction =? MoveDirectionRight)]; cbn [orb];
      rewrite ?andb_true_iff, ?Z.leb_le, ?Z.ltb_lt, ?inside_iff; lia.
  - specialize (Hlam E).
    destruct (direction =? MoveDirectionLeft);
      [| destruct (direction =? MoveDirectionRight)]; cbn [orb];
      rewrite ?andb_true_iff, ?Z.leb_le, ?Z.ltb_lt, ?inside_iff; lia.
Qed.

(** *** Depths *)

Hypothesis Hd : depth_ok f.

Lemma count_straddles : count (straddles pos) f = depth_of direction m.
Proof.
  rewrite (count_ext_in _ _ f straddles_reference). unfold depth_of.
  pose proof (Hd m Hm) as Hdm. unfold ancestorCount in Hdm.
  pose proof Hns as [Ho _ _]. pose proof (Ho m Hm) as Hom.
  destruct ((direction =? MoveDirectionLeft) || (direction =? MoveDirectionRight)).
  - symmetry. exact Hdm.
  - rewrite (count_split (fun y => rID y =? rID m)).
    assert (E1 : count (fun y => (rID y =? rID m) && ((rID y =? rID m) || inside m y)) f = 1).
    { rewrite <- (count_id_one f m Hnd Hm). apply count_ext_in. intros y _.
      destruct (rID y =? rID m); reflexivity. }
    assert (E2 : count (fun y => negb (rID y =? rID m) && ((rID y =? rID m) || inside m y)) f
                 = count (fun y => inside m y) f).
    { apply count_ext_in. intros y Hy.
      destruct (Z.eqb_spec (rID y) (rID m)) as [E | E]; [| reflexivity].
      assert (y = m) by (eapply NoDup_map_inj; eauto). subst y. simpl.
      symmetry. apply inside_false_iff. lia. }
    rewrite E1, E2, Hdm. lia.
Qed.

Lemma reloc_depth x : In x f -> rDepth (F x) = count (fun a => inside (F x) (F a)) f.
Proof.
  intros Hx. rewrite (depth_F x Hx).
  pose proof (Hd x Hx) as Hdx. unfold ancestorCount in Hdx.
  destruct (within (rLft n) (rRgt n) x) eqn:Hwx.
  - (* a row of the subtree: its ancestors inside the subtree, and the rows
       that hold the cut *)
    rewrite (count_split (within (rLft n) (rRgt n))).
    rewrite (count_split (within (rLft n) (rRgt n))) in Hdx.
    assert (E1 : count (fun a => within (rLft n) (rRgt n) a && inside (F x) (F a)) f
                 = count (fun a => within (rLft n) (rRgt n) a && inside x a) f).
    { apply count_ext_in. intros a Ha.
      destruct (within (rLft n) (rRgt n) a) eqn:Hwa; [| reflexivity].
      simpl. apply inside_F_block; assumption. }
    assert (E2 : count (fun a => negb (within (rLft n) (rRgt n) a) && inside (F x) (F a)) f
                 = count (straddles pos) f).
    { apply count_ext_in. intros a Ha.
      destruct (within (rLft n) (rRgt n) a) eqn:Hwa; simpl.
      - symmetry. apply block_not_outside; assumption.
      - apply inside_F_cut; assumption. }
    assert (E3 : count (fun a => negb (within (rLft n) (rRgt n) a) && inside x a) f
                 = count (fun a => inside n a) f).
    { apply count_ext_in. intros a Ha.
      destruct (within (rLft n) (rRgt n) a) eqn:Hwa; simpl.
      - symmetry. apply block_not_outside; assumption.
      - apply inside_block_out; assumption. }
    pose proof (Hd n Hn) as Hdn. unfold ancestorCount in Hdn.
    rewrite E1, E2, count_straddles. rewrite E3, <- Hdn in Hdx.
    unfold dc. lia.
  - (* any other row keeps its ancestors *)
    rewrite Hdx. apply count_ext_in. intros a Ha. symmetry. apply inside_F_out; assumption.
Qed.

Lemma depth_ok_relocated : depth_ok (map F f).
Proof.
  intros r Hr. apply in_map_iff in Hr as (x & <- & Hx).
  unfold ancestorCount. rewrite count_map. apply reloc_depth, Hx.
Qed.

(** *** Parent ids *)

Hypothesis Hpar : parent_ok f.

(** The node is given its new parent id. *)
Let G (r : row) : row :=
  set_parent_id (if rID r =? rID n then parent_of direction m else rParentID r) (F r).

Lemma within_node : within (rLft n) (rRgt n) n = true.
Proof. unfold within. rewrite !Z.leb_refl. reflexivity. Qed.

(** A row that contains a row outside the subtree is outside the subtree. *)
Lemma container_outside x p :
  In x f -> In p f ->
  within (rLft n) (rRgt n) x = false -> inside x p = true ->
  within (rLft n) (rRgt n) p = false.
Proof.
  intros Hx Hp Hwx Hin. apply inside_iff in Hin.
  destruct (within (rLft n) (rRgt n) p) eqn:Hwp; [| reflexivity].
  destruct (closed p Hp) as [_ [(_ & Hcp) | (Hwp' & _)]]; [| congruence].
  unfold within in Hwx.
  destruct (Z.leb_spec (rLft n) (rLft x)), (Z.leb_spec (rRgt x) (rRgt n));
    simpl in Hwx; try discriminate; lia.
Qed.

Lemma reloc_parent x :
  In x f ->
  match rParentID (G x) with
  | None => forall a, In a f -> inside (F x) (F a) = false
  | Some q =>
      exists p, In p f /\ rID p = q /\ inside (F x) (F p) = true
                /\ (forall a, In a f -> inside (F x) (F a) = true ->
                               rID a = q \/ inside (F p) (F a) = true)
  end.
Proof.
  intros Hx.
  assert (EG : rParentID (G x)
               = if rID x =? rID n then parent_of direction m else rParentID x)
    by reflexivity.
  rewrite EG. clear EG.
  destruct (Z.eqb_spec (rID x) (rID n)) as [E | Hne].
  - assert (x = n) by (eapply NoDup_map_inj; eauto). subst x.
    pose proof within_node as Hwn.
    assert (Hblock : forall a, In a f -> within (rLft n) (rRgt n) a = true ->
                               inside (F n) (F a) = false).
    { intros a Ha Hwa. rewrite (inside_F_block n a Hn Ha Hwn Hwa).
      apply block_not_outside; assumption. }
    assert (Hcut : forall a, In a f -> within (rLft n) (rRgt n) a = false ->
                             inside (F n) (F a) = straddles pos a).
    { intros a Ha Hwa. apply inside_F_cut; assumption. }
    unfold parent_of.
    destruct ((direction =? MoveDirectionLeft) || (direction =? MoveDirectionRight)) eqn:Hlr.
    + pose proof (Hpar m Hm) as Hpm.
      destruct (rParentID m) as [q |].
      * destruct Hpm as (pm & Hpmin & Hid & Hin & Hinner).
        assert (Hwpm : within (rLft n) (rRgt n) pm = false)
          by (apply (container_outside m pm Hm Hpmin Hw Hin)).
        exists pm. split; [exact Hpmin |]. split; [exact Hid |]. split.
        -- rewrite (Hcut pm Hpmin Hwpm), (straddles_reference pm Hpmin), Hlr. exact Hin.
        -- intros a Ha Hia.
           destruct (within (rLft n) (rRgt n) a) eqn:Hwa;
             [rewrite (Hblock a Ha Hwa) in Hia; discriminate |].
           rewrite (Hcut a Ha Hwa), (straddles_reference a Ha), Hlr in Hia.
           destruct (Hinner a Ha Hia) as [H | H]; [left; exact H | right].
           rewrite (inside_F_out pm a Hpmin Ha Hwpm). exact H.
      * intros a Ha.
        destruct (within (rLft n) (rRgt n) a) eqn:Hwa; [apply Hblock; assumption |].
        rewrite (Hcut a Ha Hwa), (straddles_reference a Ha), Hlr. apply Hpm, Ha.
    + exists m. split; [exact Hm |]. split; [reflexivity |]. split.
      * rewrite (Hcut m Hm Hw), (straddles_reference m Hm), Hlr, Z.eqb_refl. reflexivity.
      * intros a Ha Hia.
        destruct (within (rLft n) (rRgt n) a) eqn:Hwa;
          [rewrite (Hblock a Ha Hwa) in Hia; discriminate |].
        rewrite (Hcut a Ha Hwa), (straddles_reference a Ha), Hlr in Hia.
        apply orb_prop in Hia as [H | H]; [left; apply Z.eqb_eq, H | right].
        rewrite (inside_F_out m a Hm Ha Hw). exact H.
  - pose proof (Hpar x Hx) as Hpx.
    destruct (within (rLft n) (rRgt n) x) eqn:Hwx.
    + pose proof (block_inside_node x Hx Hwx Hne) as Hxn.
      destruct (rParentID x) as [q |].
      * destruct Hpx as (p & Hp & Hid & Hin & Hinner).
        assert (Hwp : within (rLft n) (rRgt n) p = true).
        { destruct (Hinner n Hn Hxn) as [H | H].
          - assert (p = n) by (eapply NoDup_map_inj; eauto; congruence). subst p.
            apply within_node.
          - apply inside_iff in H. unfold within.
            apply andb_true_intro. split; apply Z.leb_le; lia. }
        exists p. split; [exact Hp |]. split; [exact Hid |]. split.
        -- rewrite (inside_F_block x p Hx Hp Hwx Hwp). exact Hin.
        -- intros a Ha Hia.
           destruct (within (rLft n) (rRgt n) a) eqn:Hwa.
           ++ rewrite (inside_F_block x a Hx Ha Hwx Hwa) in Hia.
              destruct (Hinner a Ha Hia) as [H | H]; [left; exact H | right].
              rewrite (inside_F_block p a Hp Ha Hwp Hwa). exact H.
           ++ right. rewrite (inside_F_cut x a Hx Ha Hwx Hwa) in Hia.
              rewrite (inside_F_cut p a Hp Ha Hwp Hwa). exact Hia.
      * rewrite (Hpx n Hn) in Hxn. discriminate.
    + destruct (rParentID x) as [q |].
      * destruct Hpx as (p & Hp & Hid & Hin & Hinner).
        assert (Hwp : within (rLft n) (rRgt n) p = false)
          by (apply (container_outside x p Hx Hp Hwx Hin)).
        exists p. split; [exact Hp |]. split; [exact Hid |]. split.
        -- rewrite (inside_F_out x p Hx Hp Hwx). exact Hin.
        -- intros a Ha Hia. rewrite (inside_F_out x a Hx Ha Hwx) in Hia.
           destruct (Hinner a Ha Hia) as [H | H]; [left; exact H | right].
           rewrite (inside_F_out p a Hp Ha Hwp). exact H.
      * intros a Ha. rewrite (inside_F_out x a Hx Ha Hwx). apply Hpx, Ha.
Qed.

Lemma parent_ok_relocated : parent_ok (map G f).
Proof.
  intros r Hr. apply in_map_iff in Hr as (x & <- & Hx).
  pose proof (reloc_parent x Hx) as H.
  destruct (rParentID (G x)) as [q |].
  - destruct H as (p & Hp & Hid & Hin & Hinner).
    exists (G p). split; [apply in_map, Hp |]. split; [| split; [exact Hin |]].
    + destruct (coords p Hp) as (_ & _ & E). rewrite <- Hid, <- E. reflexivity.
    + intros a Ha Hia. apply in_map_iff in Ha as (a0 & <- & Ha0).
      destruct (Hinner a0 Ha0 Hia) as [E | E]; [left | right; exact E].
      destruct (coords a0 Ha0) as (_ & _ & E0). rewrite <- E, <- E0. reflexivity.
  - intros a Ha. apply in_map_iff in Ha as (a0 & <- & Ha0). apply (H a0 Ha0).
Qed.

End RelocationLinks.

(** ** Depths in the table *)

Lemma depth_ok_geom f f' : map geom f = map geom f' -> depth_ok f -> depth_ok f'.
Proof.
  intros H Hd r' Hr'. destruct (In_geom _ _ _ H Hr') as (r & Hr & Hg).
  specialize (Hd r Hr). unfold ancestorCount in *.
  unfold geom in Hg. injection Hg as _ _ Lr Rr Dr.
  rewrite <- Dr, Hd.
  apply (count_geom (fun g => (snd (fst (fst g)) <? rLft r) && (rRgt r <? snd (fst g)))) in H.
  unfold geom in H. simpl in H. unfold inside. rewrite <- Lr, <- Rr. exact H.
Qed.

Lemma Depths_geom t t' : map geom t = map geom t' -> Depths t -> Depths t'.
Proof.
  intros H Hd s. eapply depth_ok_geom; [apply forest_geom, H | apply Hd].
Qed.

Lemma depth_ok_nil : depth_ok [].
Proof. intros r []. Qed.

(** X9.  With records read back from a table of one forest that satisfies
    the invariants, and a reference outside the subtree of the node, a table
    in which the depth of every row is the number of its ancestors (the rows
    whose interval strictly contains its own) is still such a table after
    [MoveTo]. *)
Theorem MoveTo_keeps_depths db direction n m s :
  fresh_move db (rows s) n m ->
  Depths (rows s) ->
  Depths (rows (snd (MoveTo db (record_of_row n) (record_of_row m) direction s))).
Proof.
  intros Hfresh Hd.
  pose proof Hfresh as [Hinv Hn Hm Hone Hw Hb Hdn Hdm Hin Him].
  pose proof Hinv as [Hnd _].
  pose proof (fresh_nested db n m s Hfresh) as Hns.
  pose proof (fresh_in_scope db n m s Hfresh) as Hsc.
  destruct (MoveTo_relocation db direction n m s Hfresh) as [_ Hcases].
  destruct Hcases as [[Hz E] | (lo & hi & astep & step & Hdir & HF)]; [rewrite E; exact Hd |].
  set (F := Relocator_row db (rLft n) (rRgt n) lo hi astep step
              (depth_of direction m - rDepth n)) in *.
  apply (Depths_geom (map F (rows s))).
  { symmetry. rewrite map_map. apply Forall2_map_eq.
    eapply Forall2_weaken; [| exact HF]. intros r r' (G & _). exact G. }
  intros sc. rewrite forest_map by (intros; apply scope_Relocator_row).
  destruct (Z.eq_dec sc (rScope n)) as [-> | Hne].
  - rewrite (forest_all (rScope n)) by (intros r Hr; apply Hone, Hr).
    apply depth_ok_relocated with (direction := direction) (m := m); try assumption.
    specialize (Hd (rScope n)).
    rewrite (forest_all (rScope n)) in Hd by (intros r Hr; apply Hone, Hr). exact Hd.
  - rewrite (forest_none (rScope n)); [apply depth_ok_nil | | exact Hne].
    intros r Hr. apply Hone, Hr.
Qed.

Lemma Depths_tableA : Depths (rows (fresh_store tableA)).
Proof.
  intros s. simpl rows. unfold tableA. rewrite !forest_cons. simpl rScope.
  destruct (7 =? s); [| apply depth_ok_nil]. each_row.
Qed.

Lemma MoveTo_keeps_depths_witness :
  Depths (rows (snd (MoveTo plain (record_of_row (mk 3 (Some 1) 1 4 5 0 7))
                       (record_of_row (mk 2 (Some 1) 1 2 3 0 7)) MoveDirectionLeft
                       (fresh_store tableA)))).
Proof.
  apply (MoveTo_keeps_depths plain MoveDirectionLeft (mk 3 (Some 1) 1 4 5 0 7)
           (mk 2 (Some 1) 1 2 3 0 7) (fresh_store tableA)).
  - exact fresh_move_tableA.
  - exact Depths_tableA.
Defined.

(** ** Depths after [Create] *)

Lemma depth_ok_new_root f new :
  depth_ok f ->
  (forall r, In r f -> rLft r < rRgt r /\ rRgt r < rLft new) ->
  rLft new < rRgt new ->
  rDepth new = 0 ->
  depth_ok (f ++ [new]).
Proof.
  intros Hd Hright Hnew Hzero r Hr. unfold ancestorCount. rewrite count_app, count_single.
  apply in_app_or in Hr as [Hr | [<- | []]].
  - rewrite (Hd r Hr). unfold ancestorCount.
    destruct (inside r new) eqn:E; [| lia].
    apply inside_iff in E. destruct (Hright r Hr). lia.
  - assert (E1 : count (fun a => inside new a) f = 0).
    { apply count_false. intros y Hy. apply inside_false_iff.
      destruct (Hright y Hy). lia. }
    destruct (inside new new) eqn:E; [apply inside_iff in E; lia | lia].
Qed.

Lemma depth_ok_new_child f p new :
  nested_set f ->
  List.NoDup (map rID f) ->
  In p f ->
  depth_ok f ->
  rLft new = rRgt p -> rRgt new = rRgt p + 1 -> rDepth new = rDepth p + 1 ->
  depth_ok (map (open_gap (rRgt p)) f ++ [new]).
Proof.
  intros [Ho Hl Hw] Hnd Hp Hd HnewL HnewR HnewD.
  set (l := rRgt p) in *.
  assert (K : forall r, In r f -> rLft r <> l /\ rLft r < rRgt r).
  { intros r Hr. split; [| auto]. intros E.
    destruct (Z.eq_dec (rID r) (rID p)) as [Hid | Hid].
    - assert (r = p) by (eapply NoDup_map_inj; eauto). subst r.
      pose proof (Ho p Hp). lia.
    - pose proof (Ho r Hr) as Hor. pose proof (Ho p Hp) as Hop.
      destruct (Hl r p Hr Hp Hid) as [[H | H] | [H | H]];
        try apply inside_iff in H; subst l; lia. }
  assert (C : forall r, In r f ->
              rLft (open_gap l r) = (if l <=? rLft r then rLft r + 2 else rLft r)
              /\ rRgt (open_gap l r) = (if l <=? rRgt r then rRgt r + 2 else rRgt r)).
  { intros r Hr. destruct (K r Hr) as [Hne _]. simpl.
    destruct (Z.ltb_spec l (rLft r)), (Z.leb_spec l (rLft r)); split; auto; lia. }
  intros r Hr. unfold ancestorCount. rewrite count_app, count_map, count_single.
  apply in_app_or in Hr as [Hr | [<- | []]].
  - apply in_map_iff in Hr as (r0 & <- & Hr0).
    assert (E : count (fun a => inside (open_gap l r0) (open_gap l a)) f
                = count (fun a => inside r0 a) f).
    { apply count_ext_in. intros y Hy. apply bool_eq_iff. rewrite !inside_iff.
      destruct (C y Hy) as [-> ->]. destruct (C r0 Hr0) as [-> ->].
      destruct (K y Hy), (K r0 Hr0).
      destruct (Z.leb_spec l (rLft y)), (Z.leb_spec l (rRgt y)),
        (Z.leb_spec l (rLft r0)), (Z.leb_spec l (rRgt r0)); lia. }
    rewrite E. change (rDepth (open_gap l r0)) with (rDepth r0).
    rewrite (Hd r0 Hr0). unfold ancestorCount.
    destruct (inside (open_gap l r0) new) eqn:Ei; [| lia].
    apply inside_iff in Ei. destruct (C r0 Hr0) as [EL ER]. rewrite EL, ER in Ei.
    destruct (K r0 Hr0).
    destruct (Z.leb_spec l (rLft r0)), (Z.leb_spec l (rRgt r0)); lia.
  - (* the ancestors of the new row are its parent and the ancestors of the
       parent *)
    assert (E1 : count (fun a => inside new (open_gap l a)) f
                 = count (fun a => (rID a =? rID p) || inside p a) f).
    { apply count_ext_in. intros a Ha. apply bool_eq_iff.
      rewrite orb_true_iff, Z.eqb_eq, !inside_iff.
      destruct (C a Ha) as [-> ->]. destruct (K a Ha) as [Hne Hoa].
      pose proof (Ho p Hp) as Hop.
      destruct (Z.eq_dec (rID a) (rID p)) as [Hid | Hid].
      - assert (a = p) by (eapply NoDup_map_inj; eauto). subst a.
        destruct (Z.leb_spec l (rLft p)), (Z.leb_spec l (rRgt p)); subst l; lia.
      - destruct (Hl a p Ha Hp Hid) as [[H | H] | [H | H]]; try apply inside_iff in H;
          destruct (Z.leb_spec l (rLft a)), (Z.leb_spec l (rRgt a)); subst l; lia. }
    rewrite E1, (count_split (fun y => rID y =? rID p)).
    assert (E2 : count (fun y => (rID y =? rID p) && ((rID y =? rID p) || inside p y)) f = 1).
    { rewrite <- (count_id_one f p Hnd Hp). apply count_ext_in. intros y _.
      destruct (rID y =? rID p); reflexivity. }
    assert (E3 : count (fun y => negb (rID y =? rID p) && ((rID y =? rID p) || inside p y)) f
                 = count (fun y => inside p y) f).
    { apply count_ext_in. intros y Hy.
      destruct (Z.eqb_spec (rID y) (rID p)) as [E | E]; [| reflexivity].
      assert (y = p) by (eapply NoDup_map_inj; eauto). subst y. simpl.
      symmetry. apply inside_false_iff. lia. }
    pose proof (Hd p Hp) as Hdp. unfold ancestorCount in Hdp.
    rewrite E2, E3, <- Hdp.
    destruct (inside new new) eqn:E; [apply inside_iff in E; lia | lia].
Qed.

Lemma Depths_snoc t new :
  Depths t ->
  depth_ok (forest (rScope new) t ++ [new]) ->
  Depths (t ++ [new]).
Proof.
  intros Hd Hnew s. rewrite forest_app, forest_single.
  destruct (Z.eqb_spec (rScope new) s) as [<- | Hne]; [exact Hnew |].
  rewrite app_nil_r. apply Hd.
Qed.

(** X10.  [Create] keeps the depths right: in a table that satisfies the
    invariants and in which the depth of every row is the number of its
    ancestors, after a new root is created, or a new child under a parent
    whose record agrees with the stored row in its bounds and its depth, the
    depth of every row, the new one included, is the number of its
    ancestors. *)
Theorem Create_keeps_depths db src parent tx target s :
  parseNode db src = Ok (tx, target) ->
  names_ok target = true ->
  selects tx (rScope (row_of_source src)) (rows s) ->
  bounded (rows s) ->
  Invariants (rows s) ->
  Depths (rows s) ->
  (forall par, parent = Some par ->
     exists tx' targetParent p,
       parseNode db par = Ok (tx', targetParent)
       /\ In p (rows s) /\ agrees targetParent p
       /\ Depth targetParent = rDepth p /\ small (rDepth p)
       /\ rScope p = rScope (row_of_source src)) ->
  Depths (rows (snd (Create db src parent s))).
Proof.
  intros Hp Hn Hsel Hb Hinv Hd Hpar.
  set (sc := rScope (row_of_source src)) in *.
  destruct parent as [par |].
  - destruct (Hpar par eq_refl) as (tx' & targetParent & p & Hpp & Hin & (_ & _ & HR) & HD
                                    & Hsd & Hsp).
    pose proof (Create_child_run db src par tx target tx' targetParent s Hp Hn Hpp) as Hrun.
    unfold inserted in Hrun.
    destruct (existsb _ _) eqn:E; destruct Hrun as [_ ->]; [exact Hd |].
    match goal with
    | |- Depths (_ ++ [?x]) => set (new := x) in *
    end.
    destruct (new_row_coords db src tx target
                (Create_rows tx db (Rgt targetParent) (ID targetParent) (rows s))
                (Rgt targetParent) (iadd (Rgt targetParent) 1) (iadd (Depth targetParent) 1)
                Hp Hn) as (HnL & HnR & HnD).
    fold new in HnL, HnR, HnD. rewrite HR in HnL, HnR. rewrite HD in HnD.
    destruct (Hb p Hin) as [_ Hsp2].
    assert (E1 : iadd (rRgt p) 1 = rRgt p + 1) by (unwrap; reflexivity).
    assert (E2 : iadd (rDepth p) 1 = rDepth p + 1) by (unwrap; reflexivity).
    rewrite E1 in HnR. rewrite E2 in HnD.
    assert (Hnsc : rScope new = sc) by apply new_row_scope.
    set (G := fun r => if rScope r =? sc then open_gap (rRgt p) r else r).
    apply (Depths_geom (map G (rows s) ++ [new])).
    { rewrite !map_app. f_equal. symmetry. rewrite HR. apply geom_Create_rows, Hsel. }
    destruct Hinv as [Hnd Hf].
    intros s0. rewrite forest_app, forest_single, Hnsc.
    rewrite forest_map by (intros r; unfold G; destruct (rScope r =? sc); reflexivity).
    destruct (Z.eqb_spec sc s0) as [<- | Hne].
    + replace (map G (forest sc (rows s))) with (map (open_gap (rRgt p)) (forest sc (rows s))).
      * apply depth_ok_new_child; try assumption.
        -- apply Hf.
        -- apply NoDup_forest, Hnd.
        -- apply In_forest. auto.
        -- apply Hd.
      * apply map_ext_in. intros r Hr. apply In_forest in Hr as [_ Hr].
        unfold G. rewrite Hr, Z.eqb_refl. reflexivity.
    + rewrite app_nil_r.
      replace (map G (forest s0 (rows s))) with (forest s0 (rows s)); [apply Hd |].
      rewrite <- (map_id (forest s0 (rows s))) at 1.
      apply map_ext_in. intros r Hr. apply In_forest in Hr as [_ Hr].
      unfold G. destruct (Z.eqb_spec (rScope r) sc); [congruence | reflexivity].
  - pose proof (Create_root_run db src tx target s Hp Hn) as Hrun. unfold inserted in Hrun.
    destruct (existsb _ (rows s)) eqn:E; destruct Hrun as [_ ->]; [exact Hd |].
    destruct (new_row_coords db src tx target (rows s)
                (fst (root_bounds tx (rows s))) (snd (root_bounds tx (rows s))) 0 Hp Hn)
      as (HL & HR & HD).
    match type of HL with
    | rLft ?x = _ => set (new := x) in *
    end.
    apply Depths_snoc; [exact Hd |].
    assert (Hnsc : rScope new = sc) by apply new_row_scope. rewrite Hnsc.
    destruct Hinv as [_ Hf]. specialize (Hf sc). specialize (Hd sc).
    unfold root_bounds in HL, HR. rewrite (select_all_forest tx sc _ Hsel) in HL, HR.
    pose proof (bounded_forest sc _ Hb) as Hbf.
    destruct Hf as [Ho _ _].
    destruct (forest sc (rows s)) as [| r rest] eqn:Ef.
    + simpl in HL, HR. apply depth_ok_new_root; [exact Hd | intros r [] | lia | exact HD].
    + cbv zeta in HL, HR. simpl fst in HL. simpl snd in HR.
      destruct (last_rgt_max r rest) as [(x & Hx & Hmx) Hmax].
      destruct (Hbf x Hx) as [_ Hsx]. rewrite <- Hmx in *.
      assert (E1 : iadd (rRgt x) 1 = rRgt x + 1) by (unwrap; reflexivity).
      rewrite E1 in HL, HR.
      assert (E2 : iadd (rRgt x + 1) 1 = rRgt x + 2) by (unwrap; lia).
      rewrite E2 in HR.
      apply depth_ok_new_root; [exact Hd | | lia | exact HD].
      intros y Hy. specialize (Hmax y Hy). specialize (Ho y Hy). lia.
Qed.

Lemma Create_keeps_depths_witness :
  Depths (rows (snd (Create plain (record 4 (Some 3) 0 0 0 0 7)
                       (Some (record_of_row (mk 3 (Some 1) 1 4 5 0 7)))
                       (fresh_store tableA)))).
Proof.
  apply (Create_keeps_depths plain (record 4 (Some 3) 0 0 0 0 7)
           (Some (record_of_row (mk 3 (Some 1) 1 4 5 0 7)))
           (Where_scope 7 plain) (item_of_row (mk 4 (Some 3) 0 0 0 0 7))
           (fresh_store tableA)).
  - reflexivity.
  - by_compute.
  - each_row.
  - each_row; by_compute.
  - exact Invariants_tableA.
  - exact Depths_tableA.
  - intros par Hpar. injection Hpar as <-.
    exists (Where_scope 7 plain), (item_of_row (mk 3 (Some 1) 1 4 5 0 7)),
      (mk 3 (Some 1) 1 4 5 0 7).
    split; [reflexivity |]. split; [simpl; auto |].
    split; [by_compute |]. split; [reflexivity |]. split; [by_compute | reflexivity].
Defined.

(** * The new child *)



(** * A node moved relative to itself *)

Lemma moveToRightOfPosition_in_place tx n pos dc np s :
  names_ok n = true ->
  iadd (isub pos (Lft n)) 1 = 0 ->
  moveToRightOfPosition tx n pos dc np s
  = (Ok tt, {| rows := rows s; trace := trace s ++ [EvBegin; EvRead; EvCommit] |}).
Proof.
  intros Hn H0. destruct s as [t tr0].
  unfold moveToRightOfPosition, Transaction, bind, Select.
  names_ok Hn. simpl. rewrite H0. simpl. rewrite <- !app_assoc. reflexivity.
Qed.

Lemma MoveTo_self db node direction tx item :
  parseNode db node = Ok (tx, item) ->
  MoveTo db node node direction =
  moveToRightOfPosition db item
    (if direction =? MoveDirectionLeft then isub (Lft item) 1
     else if direction =? MoveDirectionRight then Rgt item else Lft item)
    (if (direction =? MoveDirectionLeft) || (direction =? MoveDirectionRight)
     then isub (Depth item) (Depth item) else isub (iadd (Depth item) 1) (Depth item))
    (if (direction =? MoveDirectionLeft) || (direction =? MoveDirectionRight)
     then ParentID item else {| Int64 := ID item; Valid := true |}).
Proof.
  intros Hp. unfold MoveTo, bind, lift. rewrite Hp. cbv beta iota zeta. unfold Table.
  destruct (direction =? MoveDirectionLeft), (direction =? MoveDirectionRight); reflexivity.
Qed.

(** X12.  The same record passed as the node and as the reference.  For
    MoveDirectionLeft the call is a no-op that writes nothing.  For
    MoveDirectionRight it succeeds and leaves the bounds and the depth of
    every row as they were.  For any other direction (MoveDirectionInner) it
    succeeds and makes the row of the node its own parent. *)
Theorem MoveTo_onto_itself db node tx item s :
  parseNode db node = Ok (tx, item) ->
  names_ok item = true ->
  small (Lft item) -> small (Rgt item) -> Lft item < Rgt item ->
  MoveTo db node node MoveDirectionLeft s
    = (Ok tt, {| rows := rows s; trace := trace s ++ [EvBegin; EvRead; EvCommit] |})
  /\ (fst (MoveTo db node node MoveDirectionRight s) = Ok tt
      /\ map geom (rows (snd (MoveTo db node node MoveDirectionRight s)))
         = map geom (rows s))
  /\ (forall direction,
        direction <> MoveDirectionLeft -> direction <> MoveDirectionRight ->
        fst (MoveTo db node node direction s) = Ok tt
        /\ forall r', In r' (rows (snd (MoveTo db node node direction s))) ->
                      in_scope db r' = true -> rID r' = ID item ->
                      rParentID r' = Some (ID item)).
Proof.
  intros Hp Hn HL HR Hlt.
  split; [| split].
  - rewrite (MoveTo_self db node _ tx item Hp). cbn [Z.eqb MoveDirectionLeft Pos.eqb orb].
    apply moveToRightOfPosition_in_place; [exact Hn |]. unwrap. lia.
  - rewrite (MoveTo_self db node _ tx item Hp).
    change (MoveDirectionRight =? MoveDirectionLeft) with false.
    change (MoveDirectionRight =? MoveDirectionRight) with true. cbn [orb].
    destruct (moveToRightOfPosition_run db item (Rgt item)
                (isub (Depth item) (Depth item)) (ParentID item) s Hn) as [tr ->].
    simpl. split; [reflexivity |].
    assert (Edc : isub (Depth item) (Depth item) = 0)
      by (unfold isub; rewrite Z.sub_diag; reflexivity).
    rewrite Edc.
    set (n0 := mk (ID item) None 0 (Lft item) (Rgt item) 0 0).
    destruct (relocate_rows_cases db item n0 (Rgt item) 0 (ParentID item) (rows s)
                eq_refl eq_refl ltac:(simpl; unfold small in *; lia)
                ltac:(simpl; unfold small in *; lia) ltac:(unfold small in *; lia))
      as [[Hz E] | [[Hneg E] | [Hge E]]];
      [simpl in Hz; lia | simpl in Hneg; lia |].
    rewrite E. simpl rLft. simpl rRgt. rewrite Z.sub_diag.
    rewrite map_geom_moved_rows.
    apply map_ext_in. intros r Hr. f_equal.
    assert (Ha : update_row db (affected_cond (Rgt item + 1) (Rgt item))
                   (affected_set (Rgt item + 1) (Rgt item) (- (Rgt item - Lft item + 1))) r
                 = r).
    { unfold update_row, affected_cond.
      destruct (Z.leb_spec (Rgt item + 1) (rLft r)), (Z.leb_spec (rLft r) (Rgt item)),
        (Z.leb_spec (Rgt item + 1) (rRgt r)), (Z.leb_spec (rRgt r) (Rgt item)); simpl;
        rewrite ?andb_false_r; try reflexivity; lia. }
    rewrite Ha.
    destruct (0 <? _); [| reflexivity].
    unfold update_row. destruct (in_scope db r && _); [apply target_set_zero | reflexivity].
  - intros direction H1 H2.
    rewrite (MoveTo_self db node _ tx item Hp).
    apply Z.eqb_neq in H1, H2. rewrite H1, H2. cbn [orb].
    destruct (moveToRightOfPosition_run db item (Lft item)
                (isub (iadd (Depth item) 1) (Depth item))
                {| Int64 := ID item; Valid := true |} s Hn) as [tr ->].
    simpl. split; [reflexivity |].
    intros r' Hr' Hs Hid.
    assert (Hstep : iadd (isub (Lft item) (Lft item)) 1 <> 0).
    { unfold isub. rewrite Z.sub_diag. vm_compute. discriminate. }
    destruct (relocate_rows_links db item (Lft item)
                (isub (iadd (Depth item) 1) (Depth item))
                {| Int64 := ID item; Valid := true |} (rows s) Hstep) as [Hpar _].
    apply (Hpar r' Hr' Hs Hid).
Qed.

Lemma MoveTo_onto_itself_witness :
  MoveTo plain (record_of_row (mk 2 (Some 1) 1 2 3 0 7))
    (record_of_row (mk 2 (Some 1) 1 2 3 0 7)) MoveDirectionLeft (fresh_store tableA)
    = (Ok tt, {| rows := rows (fresh_store tableA);
                 trace := trace (fresh_store tableA) ++ [EvBegin; EvRead; EvCommit] |})
  /\ (fst (MoveTo plain (record_of_row (mk 2 (Some 1) 1 2 3 0 7))
             (record_of_row (mk 2 (Some 1) 1 2 3 0 7)) MoveDirectionRight
             (fresh_store tableA)) = Ok tt
      /\ map geom (rows (snd (MoveTo plain (record_of_row (mk 2 (Some 1) 1 2 3 0 7))
                                (record_of_row (mk 2 (Some 1) 1 2 3 0 7)) MoveDirectionRight
                                (fresh_store tableA))))
         = map geom (rows (fresh_store tableA)))
  /\ (forall direction,
        direction <> MoveDirectionLeft -> direction <> MoveDirectionRight ->
        fst (MoveTo plain (record_of_row (mk 2 (Some 1) 1 2 3 0 7))
               (record_of_row (mk 2 (Some 1) 1 2 3 0 7)) direction (fresh_store tableA))
          = Ok tt
        /\ forall r', In r' (rows (snd (MoveTo plain (record_of_row (mk 2 (Some 1) 1 2 3 0 7))
                                          (record_of_row (mk 2 (Some 1) 1 2 3 0 7)) direction
                                          (fresh_store tableA)))) ->
                      in_scope plain r' = true ->
                      rID r' = ID (item_of_row (mk 2 (Some 1) 1 2 3 0 7)) ->
                      rParentID r' = Some (ID (item_of_row (mk 2 (Some 1) 1 2 3 0 7)))).
Proof.
  apply (MoveTo_onto_itself plain (record_of_row (mk 2 (Some 1) 1 2 3 0 7))
           (Where_scope 7 plain) (item_of_row (mk 2 (Some 1) 1 2 3 0 7))
           (fresh_store tableA)).
  - reflexivity.
  - by_compute.
  - by_compute.
  - by_compute.
  - vm_compute. reflexivity.
Defined.

(** * The names bound by [parseNode] *)

Lemma parse_fields_names fs db tbl :
  let item := snd (fold_left parse_field fs (db, empty_item tbl)) in
  TableName item = tbl
  /\ (forall k c, DbNames item !! k = Some c ->
        In k all_keys /\ exists f, In f fs /\ tag_of f = k /\ dbName_of f = c)
  /\ (forall f, In f fs -> In (tag_of f) all_keys -> is_Some (DbNames item !! tag_of f)).
Proof.
  induction fs as [| x fs IH] using rev_ind.
  - simpl. split; [reflexivity |]. split; [| intros f []].
    intros k c H. rewrite lookup_empty in H. discriminate.
  - rewrite fold_left_app. simpl. simpl in IH.
    destruct (fold_left parse_field fs (db, empty_item tbl)) as [tx item].
    simpl in IH. destruct IH as (HT & H1 & H2).
    assert (Hold : forall k c, DbNames item !! k = Some c ->
              In k all_keys /\ exists f, In f (fs ++ [x]) /\ tag_of f = k /\ dbName_of f = c).
    { intros k c H. destruct (H1 k c H) as (Hk & f & Hf & Ht & Hc).
      split; [exact Hk |]. exists f. split; [apply in_or_app; auto | auto]. }
    assert (Hins : forall key dbName,
              In key all_keys -> tag_of x = key -> dbName_of x = dbName ->
              (forall k c, <[key:=dbName]> (DbNames item) !! k = Some c ->
                 In k all_keys
                 /\ exists f, In f (fs ++ [x]) /\ tag_of f = k /\ dbName_of f = c)
              /\ (forall f, In f (fs ++ [x]) -> In (tag_of f) all_keys ->
                    is_Some (<[key:=dbName]> (DbNames item) !! tag_of f))).
    { intros key dbName Hkey Htag Hdb. split.
      - intros k c H. apply lookup_insert_Some in H as [[<- <-] | [_ H]]; [| auto].
        split; [exact Hkey |]. exists x. split; [apply in_or_app; simpl; auto | auto].
      - intros f Hf Hk. apply lookup_insert_is_Some.
        destruct (decide (key = tag_of f)) as [E | E]; [left; exact E | right].
        split; [exact E |]. apply in_app_or in Hf as [Hf | [<- | []]]; [auto |].
        congruence. }
    assert (Hskip : In (tag_of x) all_keys -> False ->
              forall f, In f (fs ++ [x]) -> In (tag_of f) all_keys ->
                        is_Some (DbNames item !! tag_of f)) by tauto.
    destruct x; simpl; (split; [exact HT |]);
      try (apply Hins; [unfold all_keys; simpl; auto 10 | reflexivity | reflexivity]).
    + split; [exact Hold |]. intros f Hf Hk.
      apply in_app_or in Hf as [Hf | [<- | []]]; [auto |].
      exfalso. unfold all_keys in Hk. simpl in Hk. intuition discriminate.
    + split; [exact Hold |]. intros f Hf Hk.
      apply in_app_or in Hf as [Hf | [<- | []]]; [auto |].
      exfalso. unfold all_keys in Hk. simpl in Hk. intuition discriminate.
Qed.

(** X13.  What [parseNode] takes from a model: the table name of the
    model; a name under a key only for the six keys id, parent_id, depth,
    rgt, lft and children_count, and then the column of a field of the record
    that carries this tag; a name under the key of every such field.  So the
    six keys are all bound exactly when the record has a field for each of
    them, and fields tagged scope or not tagged bind nothing. *)
Theorem parseNode_binds_tags db src tx item :
  parseNode db src = Ok (tx, item) ->
  TableName item = table src
  /\ (forall k c, DbNames item !! k = Some c ->
        In k all_keys
        /\ exists f, In f (fields src) /\ tag_of f = k /\ dbName_of f = c)
  /\ (forall f, In f (fields src) -> In (tag_of f) all_keys ->
        is_Some (DbNames item !! tag_of f))
  /\ bound (DbNames item) all_keys = has_coordinates src.
Proof.
  unfold parseNode. destruct (is_model src); [| discriminate].
  intros H. injection H as H.
  pose proof (parse_fields_names (fields src) db (table src)) as Hf.
  rewrite H in Hf. simpl in Hf. destruct Hf as (HT & H1 & H2).
  split; [exact HT |]. split; [exact H1 |]. split; [exact H2 |].
  apply bool_eq_iff. rewrite bound_forall. unfold has_coordinates.
  rewrite forallb_forall. split.
  - intros Hb k Hk. apply existsb_exists.
    destruct (DbNames item !! k) as [c |] eqn:E; [| exfalso; apply (Hb k Hk E)].
    destruct (H1 k c E) as (_ & f & Hin & Ht & _).
    exists f. split; [exact Hin |]. apply String.eqb_eq. exact Ht.
  - intros He k Hk E. specialize (He k Hk).
    apply existsb_exists in He as (f & Hin & Ht). apply String.eqb_eq in Ht. subst k.
    destruct (H2 f Hin Hk) as [c Hc]. congruence.
Qed.

Lemma parseNode_binds_tags_witness :
  TableName (item_of_row (mk 2 (Some 1) 1 2 3 0 7))
    = table (record_of_row (mk 2 (Some 1) 1 2 3 0 7))
  /\ (forall k c, DbNames (item_of_row (mk 2 (Some 1) 1 2 3 0 7)) !! k = Some c ->
        In k all_keys
        /\ exists f, In f (fields (record_of_row (mk 2 (Some 1) 1 2 3 0 7)))
                     /\ tag_of f = k /\ dbName_of f = c)
  /\ (forall f, In f (fields (record_of_row (mk 2 (Some 1) 1 2 3 0 7))) ->
        In (tag_of f) all_keys ->
        is_Some (DbNames (item_of_row (mk 2 (Some 1) 1 2 3 0 7)) !! tag_of f))
  /\ bound (DbNames (item_of_row (mk 2 (Some 1) 1 2 3 0 7))) all_keys
     = has_coordinates (record_of_row (mk 2 (Some 1) 1 2 3 0 7)).
Proof.
  apply (parseNode_binds_tags plain (record_of_row (mk 2 (Some 1) 1 2 3 0 7))
           (Where_scope 7 plain) (item_of_row (mk 2 (Some 1) 1 2 3 0 7))).
  reflexivity.
Defined.

(** * formatSQL *)

Lemma append_cons c s1 s2 :
  String.append (String c s1) s2 = String c (String.append s1 s2).
Proof. reflexivity. Qed.

Lemma append_nil s : String.append EmptyString s = s.
Proof. reflexivity. Qed.

Lemma replace_from_cons old new c s :
  replace_from 0 old new (String c s)
  = if String.prefix old (String c s)
    then String.append new (replace_from (String.length old - 1) old new s)
    else String c (replace_from 0 old new s).
Proof. reflexivity. Qed.

Lemma prefix_cons a k b s :
  String.prefix (String a k) (String b s)
  = if Ascii.ascii_dec a b then String.prefix k s else false.
Proof. simpl. destruct (Ascii.ascii_dec a b); reflexivity. Qed.

Lemma no_colon_append s1 s2 :
  no_colon (String.append s1 s2) = no_colon s1 && no_colon s2.
Proof.
  induction s1 as [| c s1 IH]; [reflexivity |].
  rewrite append_cons. cbn [no_colon]. rewrite IH, andb_assoc. reflexivity.
Qed.

Lemma prefix_append k rest : String.prefix k (String.append k rest) = true.
Proof.
  induction k as [| c k IH]; [destruct rest; reflexivity |].
  rewrite append_cons, prefix_cons.
  destruct (Ascii.ascii_dec c c); [exact IH | contradiction].
Qed.

(** A piece without a colon is copied. *)
Lemma replace_text k v s rest :
  no_colon s = true ->
  replace_from 0 (String colon k) v (String.append s rest)
  = String.append s (replace_from 0 (String colon k) v rest).
Proof.
  induction s as [| c s IH]; [reflexivity |].
  cbn [no_colon]. intros H. apply andb_prop in H as [Hc Hs].
  rewrite append_cons, replace_from_cons, prefix_cons.
  destruct (Ascii.ascii_dec colon c) as [E | E].
  - subst c. rewrite Ascii.eqb_refl in Hc. discriminate.
  - rewrite (IH Hs). reflexivity.
Qed.

Lemma replace_skip k old new rest :
  replace_from (String.length k) old new (String.append k rest)
  = replace_from 0 old new rest.
Proof.
  induction k as [| c k IH]; [destruct rest; reflexivity |].
  rewrite append_cons. exact IH.
Qed.

(** The placeholder looked for is replaced. *)
Lemma replace_key_same k v rest :
  replace_from 0 (String colon k) v (String colon (String.append k rest))
  = String.append v (replace_from 0 (String colon k) v rest).
Proof.
  rewrite replace_from_cons, prefix_cons.
  destruct (Ascii.ascii_dec colon colon) as [_ | E]; [| contradiction].
  rewrite prefix_append. cbn [String.length]. rewrite Nat.sub_succ, Nat.sub_0_r, replace_skip.
  reflexivity.
Qed.

(** Another placeholder is copied. *)
Lemma replace_key_other k k' v rest c c' :
  head k = Some c -> head k' = Some c' -> c <> c' ->
  no_colon k' = true ->
  replace_from 0 (String colon k) v (String colon (String.append k' rest))
  = String colon (String.append k' (replace_from 0 (String colon k) v rest)).
Proof.
  intros Hk Hk' Hne Hnc.
  destruct k as [| a k0]; [discriminate |]. destruct k' as [| b k0']; [discriminate |].
  simpl in Hk, Hk'. injection Hk as ->. injection Hk' as ->.
  rewrite replace_from_cons, prefix_cons.
  destruct (Ascii.ascii_dec colon colon) as [_ | E]; [| contradiction].
  rewrite append_cons, prefix_cons.
  destruct (Ascii.ascii_dec c c') as [E | _]; [contradiction |].
  f_equal. rewrite <- append_cons.
  apply (replace_text (String c k0) v (String c' k0') rest Hnc).
Qed.

Lemma apart_keys_spec ks k k' :
  apart_keys ks = true -> In k ks -> In k' ks ->
  no_colon k = true
  /\ exists c, head k = Some c /\ (k <> k' -> forall c', head k' = Some c' -> c <> c').
Proof.
  unfold apart_keys. rewrite forallb_forall. intros H Hk Hk'.
  specialize (H k Hk). destruct (head k) as [c |]; [| discriminate].
  apply andb_prop in H as [Hnc H]. split; [exact Hnc |].
  exists c. split; [reflexivity |]. intros Hne c' Hc' E. subst c'.
  rewrite forallb_forall in H. specialize (H k' Hk').
  rewrite Hc' in H. apply orb_prop in H as [H | H].
  - apply String.eqb_eq in H. contradiction.
  - rewrite Ascii.eqb_refl in H. discriminate.
Qed.

Lemma apart_searched : apart_keys searched = true.
Proof. vm_compute. reflexivity. Qed.

Lemma well_formed_In tpl t :
  well_formed tpl = true -> In t tpl ->
  match t with
  | Text s => no_colon s = true
  | Key k => In k all_keys
  end.
Proof.
  unfold well_formed. rewrite forallb_forall. intros H Ht. specialize (H t Ht).
  destruct t as [s | k]; [exact H |].
  apply existsb_exists in H as (k' & Hk' & E). apply String.eqb_eq in E. subst k'. exact Hk'.
Qed.

(** One turn of the loop of [formatSQL], piece by piece. *)
Lemma Replace_render k v tpl :
  In k searched ->
  well_formed tpl = true ->
  Replace (render tpl) (String colon k) v = render (map (subst1 k v) tpl).
Proof.
  intros Hk. unfold Replace.
  induction tpl as [| t tpl IH]; [reflexivity |]. intros Hwf.
  pose proof (well_formed_In _ t Hwf (or_introl eq_refl)) as Ht.
  assert (Hwf' : well_formed tpl = true).
  { unfold well_formed in *. simpl in Hwf. apply andb_prop in Hwf as [_ H]. exact H. }
  specialize (IH Hwf'). cbn [render fold_right map]. fold (render tpl).
  fold (render (map (subst1 k v) tpl)).
  destruct t as [s | k'].
  - cbn [render_token subst1].
    rewrite (replace_text k v s (render tpl) Ht), IH. reflexivity.
  - assert (Hk' : In k' searched) by (right; exact Ht).
    cbn [subst1].
    destruct (String.eqb_spec k' k) as [-> | Hne]; cbn [render_token]; rewrite ?append_cons.
    + rewrite replace_key_same, IH. reflexivity.
    + destruct (apart_keys_spec searched k k' apart_searched Hk Hk') as (_ & c & Hc & Hd).
      destruct (apart_keys_spec searched k' k apart_searched Hk' Hk) as (Hnc & c' & Hc' & _).
      rewrite (replace_key_other k k' v (render tpl) c c' Hc Hc'
                 (Hd (fun E => Hne (eq_sym E)) c' Hc') Hnc), IH.
      reflexivity.
Qed.

Lemma well_formed_subst1 k v tpl :
  no_colon v = true -> well_formed tpl = true -> well_formed (map (subst1 k v) tpl) = true.
Proof.
  intros Hv. unfold well_formed. rewrite !forallb_forall. intros H t Ht.
  apply in_map_iff in Ht as (t0 & <- & Ht0). specialize (H t0 Ht0).
  destruct t0 as [s | k']; simpl; [exact H |].
  destruct (String.eqb k' k); [exact Hv | exact H].
Qed.

(** The whole loop, piece by piece. *)
Lemma loop_render order tpl :
  (forall k c, In (k, c) order -> In k all_keys /\ no_colon c = true) ->
  well_formed tpl = true ->
  fold_left (fun out kv => Replace out (String colon (fst kv)) (snd kv)) order (render tpl)
  = render (map (resolve_in order) tpl).
Proof.
  revert tpl. induction order as [| [k v] order IH]; intros tpl Hord Hwf.
  - simpl. f_equal. rewrite <- (map_id tpl) at 1. apply map_ext.
    intros [s | k]; reflexivity.
  - destruct (Hord k v (or_introl eq_refl)) as [Hk Hv].
    cbn [fold_left fst snd].
    rewrite (Replace_render k v tpl (or_intror Hk) Hwf).
    rewrite IH; [| intros k' c' H; apply Hord; right; exact H
                 | apply well_formed_subst1; assumption].
    f_equal. rewrite map_map. apply map_ext.
    intros [s | k']; [reflexivity |]. cbn [subst1 resolve_in assoc].
    rewrite String.eqb_sym. destruct (String.eqb k k'); reflexivity.
Qed.

(** The first entry of a listing of the map is the only one. *)
Lemma assoc_listing (names : gmap string string) order k :
  order ≡ₚ map_to_list names -> assoc k order = names !! k.
Proof.
  intros Hperm.
  assert (Hin : forall c, In (k, c) order <-> names !! k = Some c).
  { intros c. rewrite <- elem_of_map_to_list, <- Hperm, list_elem_of_In. reflexivity. }
  assert (Hfirst : forall l, (forall c, In (k, c) l -> names !! k = Some c) ->
                             (forall c, names !! k = Some c -> In (k, c) l) ->
                             assoc k l = names !! k).
  { induction l as [| [k' c'] l IHl]; intros H1 H2; simpl.
    - destruct (names !! k) as [c |] eqn:E; [destruct (H2 c eq_refl) | reflexivity].
    - destruct (String.eqb_spec k' k) as [-> | Hne].
      + symmetry. apply H1. left. reflexivity.
      + apply IHl.
        * intros c Hc. apply H1. right. exact Hc.
        * intros c Hc. destruct (H2 c Hc) as [E | Hl]; [| exact Hl].
          injection E as E _. contradiction. }
  apply Hfirst; intros c; apply Hin.
Qed.

(** The names bound by a listing of the map are those of the map. *)
Lemma listing_names (names : gmap string string) order :
  order ≡ₚ map_to_list names ->
  (forall k c, names !! k = Some c -> In k all_keys /\ no_colon c = true) ->
  forall k c, In (k, c) order -> In k all_keys /\ no_colon c = true.
Proof.
  intros Hperm Hnames k c Hin. apply Hnames.
  apply elem_of_map_to_list. rewrite <- Hperm. apply list_elem_of_In. exact Hin.
Qed.

(** The body of [formatSQL]: the table name is put in (it is never asked
    for), then one column per entry, in the order of the listing. *)
Lemma formatSQL_loop order tpl node :
  (forall k c, In (k, c) order -> In k all_keys /\ no_colon c = true) ->
  well_formed tpl = true ->
  formatSQL order (render tpl) node = render (map (resolve_in order) tpl).
Proof.
  intros Hord Hwf. unfold formatSQL. cbv zeta.
  change ":table_name" with (String colon "table_name").
  rewrite (Replace_render "table_name" (TableName node) tpl (or_introl eq_refl) Hwf).
  assert (Hsame : map (subst1 "table_name" (TableName node)) tpl = tpl).
  { rewrite <- (map_id tpl) at 2. apply map_ext_in. intros [s | k] Ht; [reflexivity |].
    pose proof (well_formed_In _ _ Hwf Ht) as Hk. simpl in Hk. cbn [subst1].
    destruct (String.eqb_spec k "table_name") as [-> | _]; [| reflexivity].
    exfalso. unfold all_keys in Hk. simpl in Hk. intuition discriminate. }
  rewrite Hsame. apply loop_render; assumption.
Qed.

(** X14.  [formatSQL] on a text made of pieces without a colon and of
    placeholders for the six keys, for names bound to columns that hold no
    colon: whatever the order in which Go ranges over the map, the result is
    the text with every placeholder whose key is bound replaced by its
    column, and every other placeholder left in place.  The table name is
    not used by such a text. *)
Theorem formatSQL_resolves order tpl node :
  order ≡ₚ map_to_list (DbNames node) ->
  (forall k c, DbNames node !! k = Some c -> In k all_keys /\ no_colon c = true) ->
  well_formed tpl = true ->
  formatSQL order (render tpl) node = render (map (resolve (DbNames node)) tpl).
Proof.
  intros Hperm Hnames Hwf.
  rewrite formatSQL_loop; [| eapply listing_names; eassumption | exact Hwf].
  f_equal. apply map_ext. intros [s | k]; [reflexivity |].
  cbn [resolve_in resolve]. rewrite (assoc_listing (DbNames node) order k Hperm).
  reflexivity.
Qed.

Lemma record_names_columns k c :
  DbNames (item_of_row (mk 2 (Some 1) 1 2 3 0 7)) !! k = Some c ->
  In k all_keys /\ no_colon c = true.
Proof.
  intros H.
  destruct (parse_fields_names (fields (record_of_row (mk 2 (Some 1) 1 2 3 0 7)))
              plain "categories") as (_ & H1 & _).
  destruct (H1 k c H) as (Hk & f & Hf & _ & Hc). split; [exact Hk |].
  simpl in Hf. subst c.
  repeat (destruct Hf as [<- | Hf]; [reflexivity |]). destruct Hf.
Qed.

Lemma formatSQL_resolves_witness :
  formatSQL (map_to_list record_names)
    (render [Key "lft"; Text " >= ? AND "; Key "rgt"; Text " <= ?"])
    (item_of_row (mk 2 (Some 1) 1 2 3 0 7))
  = render (map (resolve (DbNames (item_of_row (mk 2 (Some 1) 1 2 3 0 7))))
              [Key "lft"; Text " >= ? AND "; Key "rgt"; Text " <= ?"]).
Proof.
  apply (formatSQL_resolves (map_to_list record_names)
           [Key "lft"; Text " >= ? AND "; Key "rgt"; Text " <= ?"]
           (item_of_row (mk 2 (Some 1) 1 2 3 0 7))).
  - reflexivity.
  - exact record_names_columns.
  - reflexivity.
Defined.

Lemma render_no_colon tpl :
  well_formed tpl = true ->
  no_colon (render tpl) = forallb (fun t => match t with Text _ => true | Key _ => false end) tpl.
Proof.
  induction tpl as [| t tpl IH]; [reflexivity |]. intros Hwf.
  pose proof (well_formed_In _ t Hwf (or_introl eq_refl)) as Ht.
  assert (Hwf' : well_formed tpl = true).
  { unfold well_formed in *. simpl in Hwf. apply andb_prop in Hwf as [_ H]. exact H. }
  cbn [render fold_right forallb]. fold (render tpl).
  rewrite no_colon_append, (IH Hwf').
  destruct t as [s | k]; simpl; [rewrite Ht; reflexivity | reflexivity].
Qed.

Lemma statements_pieces : map render pieces = statements.
Proof. reflexivity. Qed.

Lemma pieces_well_formed : forallb well_formed pieces = true.
Proof. vm_compute. reflexivity. Qed.

(** X15.  For every text that the code passes to [formatSQL], and names
    bound by [parseNode] to columns that hold no colon: the result does not
    depend on the order in which Go ranges over the map, and a colon is left
    in it exactly when one of the placeholders of the text has a key that is
    not bound. *)
Theorem formatSQL_statements text order order' node :
  In text statements ->
  order ≡ₚ map_to_list (DbNames node) ->
  order' ≡ₚ map_to_list (DbNames node) ->
  (forall k c, DbNames node !! k = Some c -> In k all_keys /\ no_colon c = true) ->
  formatSQL order text node = formatSQL order' text node
  /\ exists tpl,
       text = render tpl /\ well_formed tpl = true
       /\ no_colon (formatSQL order text node) = bound (DbNames node) (placeholders tpl).
Proof.
  intros Ht Hp Hp' Hnames.
  rewrite <- statements_pieces in Ht. apply in_map_iff in Ht as (tpl & <- & Htpl).
  assert (Hwf : well_formed tpl = true).
  { pose proof pieces_well_formed as H. rewrite forallb_forall in H. apply H, Htpl. }
  assert (Hany : forall o, o ≡ₚ map_to_list (DbNames node) ->
                           formatSQL o (render tpl) node
                           = render (map (resolve (DbNames node)) tpl)).
  { intros o Ho.
    rewrite formatSQL_loop; [| eapply listing_names; eassumption | exact Hwf].
    f_equal. apply map_ext. intros [s | k]; [reflexivity |].
    cbn [resolve_in resolve]. rewrite (assoc_listing (DbNames node) o k Ho). reflexivity. }
  rewrite (Hany order Hp), (Hany order' Hp').
  split; [reflexivity |]. exists tpl. split; [reflexivity |]. split; [exact Hwf |].
  assert (Hwf' : well_formed (map (resolve (DbNames node)) tpl) = true).
  { unfold well_formed in *. rewrite forallb_forall in *. intros t Hin.
    apply in_map_iff in Hin as (t0 & <- & Hin0). specialize (Hwf t0 Hin0).
    destruct t0 as [s | k]; simpl; [exact Hwf |].
    destruct (DbNames node !! k) as [c |] eqn:E; [apply (Hnames k c E) | exact Hwf]. }
  rewrite (render_no_colon _ Hwf'). unfold bound, placeholders.
  clear. induction tpl as [| t tpl IH]; [reflexivity |].
  cbn [map forallb flat_map]. rewrite forallb_app, IH.
  destruct t as [s | k]; simpl; [reflexivity |].
  destruct (DbNames node !! k); reflexivity.
Qed.

Lemma formatSQL_statements_witness :
  formatSQL (map_to_list record_names) ":lft >= ? AND :rgt <= ?"
    (item_of_row (mk 2 (Some 1) 1 2 3 0 7))
  = formatSQL (rev (map_to_list record_names)) ":lft >= ? AND :rgt <= ?"
      (item_of_row (mk 2 (Some 1) 1 2 3 0 7))
  /\ exists tpl,
       ":lft >= ? AND :rgt <= ?" = render tpl /\ well_formed tpl = true
       /\ no_colon (formatSQL (map_to_list record_names) ":lft >= ? AND :rgt <= ?"
                      (item_of_row (mk 2 (Some 1) 1 2 3 0 7)))
          = bound (DbNames (item_of_row (mk 2 (Some 1) 1 2 3 0 7))) (placeholders tpl).
Proof.
  apply (formatSQL_statements ":lft >= ? AND :rgt <= ?" (map_to_list record_names)
           (rev (map_to_list record_names)) (item_of_row (mk 2 (Some 1) 1 2 3 0 7))).
  - unfold statements. simpl. auto 10.
  - reflexivity.
  - symmetry. apply Permutation_rev.
  - exact record_names_columns.
Defined.

(** ** Parent ids in the table *)

Lemma In_link l l' r :
  map link l = map link l' -> In r l -> exists r', In r' l' /\ link r' = link r.
Proof.
  intros H Hin. apply (in_map link) in Hin. rewrite H in Hin.
  apply in_map_iff in Hin as (r' & Hr' & Hin). eauto.
Qed.

Lemma link_inside a b a' b' :
  link a = link a' -> link b = link b' -> inside a b = inside a' b'.
Proof.
  unfold link, geom, inside. intros Ha Hb.
  injection Ha as _ _ La Ra _ _. injection Hb as _ _ Lb Rb _ _. congruence.
Qed.

Lemma parent_ok_link f f' : map link f = map link f' -> parent_ok f -> parent_ok f'.
Proof.
  intros H Hp r' Hr'.
  destruct (In_link f' f r' (eq_sym H) Hr') as (r & Hr & Er).
  specialize (Hp r Hr).
  assert (Epar : rParentID r = rParentID r') by (unfold link in Er; congruence).
  rewrite <- Epar.
  destruct (rParentID r) as [q |].
  - destruct Hp as (p & Hpin & Hid & Hin & Hinner).
    destruct (In_link f f' p H Hpin) as (p' & Hp' & Ep).
    exists p'. split; [exact Hp' |]. split; [| split].
    + unfold link, geom in Ep. congruence.
    + rewrite <- Hin. apply link_inside; [symmetry; exact Er | exact Ep].
    + intros a' Ha' Hia'.
      destruct (In_link f' f a' (eq_sym H) Ha') as (a & Ha & Ea).
      rewrite (link_inside r' a' r a (eq_sym Er) (eq_sym Ea)) in Hia'.
      destruct (Hinner a Ha Hia') as [E | E].
      * left. unfold link, geom in Ea. congruence.
      * right. rewrite <- E. apply link_inside; [exact Ep | symmetry; exact Ea].
  - intros a' Ha'.
    destruct (In_link f' f a' (eq_sym H) Ha') as (a & Ha & Ea).
    rewrite (link_inside r' a' r a (eq_sym Er) (eq_sym Ea)). apply Hp, Ha.
Qed.

Lemma forest_link s t t' :
  map link t = map link t' -> map link (forest s t) = map link (forest s t').
Proof.
  unfold forest. revert t'. induction t as [| x t IH]; intros [| x' t'] H;
    try discriminate; [reflexivity |].
  cbn [map] in H. apply cons_eq_inv in H as [Hx Hl]. cbn [List.filter].
  assert (Hs : rScope x = rScope x') by (unfold link, geom in Hx; congruence).
  rewrite Hs. destruct (rScope x' =? s); cbn [map]; [rewrite Hx; f_equal |]; auto.
Qed.

Lemma Parents_link t t' : map link t = map link t' -> Parents t -> Parents t'.
Proof.
  intros H Hp s. eapply parent_ok_link; [apply forest_link, H | apply Hp].
Qed.

Lemma parent_ok_nil : parent_ok [].
Proof. intros r []. Qed.

(** X16.  With records read back from a table of one forest that satisfies
    the invariants, and a reference outside the subtree of the node, a table
    in which every parent id names the innermost row containing the row that
    carries it (and rows without a parent id have no ancestor) is still such
    a table after [MoveTo]. *)
Theorem MoveTo_keeps_parents db direction n m s :
  fresh_move db (rows s) n m ->
  Parents (rows s) ->
  Parents (rows (snd (MoveTo db (record_of_row n) (record_of_row m) direction s))).
Proof.
  intros Hfresh Hpar.
  pose proof Hfresh as [Hinv Hn Hm Hone Hw Hb Hdn Hdm Hin Him].
  pose proof Hinv as [Hnd _].
  pose proof (fresh_nested db n m s Hfresh) as Hns.
  pose proof (fresh_in_scope db n m s Hfresh) as Hsc.
  destruct (MoveTo_relocation db direction n m s Hfresh) as [_ Hcases].
  destruct Hcases as [[Hz E] | (lo & hi & astep & step & Hdir & HF)];
    [rewrite E; exact Hpar |].
  set (G := fun r =>
              set_parent_id (if rID r =? rID n then parent_of direction m else rParentID r)
                (Relocator_row db (rLft n) (rRgt n) lo hi astep step
                   (depth_of direction m - rDepth n) r)).
  apply (Parents_link (map G (rows s))).
  { symmetry. rewrite map_map. apply Forall2_map_eq.
    eapply Forall2_weaken; [| exact HF]. intros r r' (Hg & Hp & _).
    unfold link. rewrite Hg, Hp. reflexivity. }
  assert (HG : forall r, rScope (G r) = rScope r)
    by (intros r; unfold G; simpl; apply scope_Relocator_row).
  intros sc. rewrite (forest_map sc G (rows s) HG).
  destruct (Z.eq_dec sc (rScope n)) as [-> | Hne].
  - rewrite (forest_all (rScope n)) by (intros r Hr; apply Hone, Hr).
    apply parent_ok_relocated; try assumption.
    specialize (Hpar (rScope n)).
    rewrite (forest_all (rScope n)) in Hpar by (intros r Hr; apply Hone, Hr). exact Hpar.
  - rewrite (forest_none (rScope n)); [apply parent_ok_nil | | exact Hne].
    intros r Hr. apply Hone, Hr.
Qed.

Lemma Parents_tableA : Parents (rows (fresh_store tableA)).
Proof.
  intros s. simpl rows. unfold tableA. rewrite !forest_cons. simpl rScope.
  destruct (7 =? s); [| apply parent_ok_nil].
  intros r Hr. simpl in Hr. destruct Hr as [<- | [<- | [<- | []]]]; simpl.
  - each_row.
  - exists (mk 1 None 0 1 6 2 7). split; [simpl; auto |].
    split; [reflexivity |]. split; [reflexivity |]. each_row; auto; discriminate.
  - exists (mk 1 None 0 1 6 2 7). split; [simpl; auto |].
    split; [reflexivity |]. split; [reflexivity |]. each_row; auto; discriminate.
Qed.

Lemma MoveTo_keeps_parents_witness :
  Parents (rows (snd (MoveTo plain (record_of_row (mk 3 (Some 1) 1 4 5 0 7))
                        (record_of_row (mk 2 (Some 1) 1 2 3 0 7)) MoveDirectionLeft
                        (fresh_store tableA)))).
Proof.
  apply (MoveTo_keeps_parents plain MoveDirectionLeft (mk 3 (Some 1) 1 4 5 0 7)
           (mk 2 (Some 1) 1 2 3 0 7) (fresh_store tableA)).
  - exact fresh_move_tableA.
  - exact Parents_tableA.
Defined.

(** ** Parent ids after [Create] *)

Lemma parent_ok_new_root f new :
  parent_ok f ->
  (forall r, In r f -> rLft r < rRgt r /\ rRgt r < rLft new) ->
  rLft new < rRgt new ->
  rParentID new = None ->
  parent_ok (f ++ [new]).
Proof.
  intros Hp Hright Hnew Hnone r Hr.
  apply in_app_or in Hr as [Hr | [<- | []]].
  - specialize (Hp r Hr). destruct (Hright r Hr) as [Hor Hrn].
    assert (Hrnew : inside r new = false) by (apply inside_false_iff; lia).
    destruct (rParentID r) as [q |].
    + destruct Hp as (p & Hpin & Hid & Hin & Hinner).
      exists p. split; [apply in_or_app; auto |]. split; [exact Hid |].
      split; [exact Hin |]. intros a Ha Hia.
      apply in_app_or in Ha as [Ha | [<- | []]]; [auto | congruence].
    + intros a Ha. apply in_app_or in Ha as [Ha | [<- | []]]; auto.
  - rewrite Hnone. intros a Ha. apply inside_false_iff.
    apply in_app_or in Ha as [Ha | [<- | []]]; [| lia].
    destruct (Hright a Ha). lia.
Qed.

Lemma parent_ok_new_child f p new :
  nested_set f ->
  List.NoDup (map rID f) ->
  In p f ->
  parent_ok f ->
  rLft new = rRgt p -> rRgt new = rRgt p + 1 -> rParentID new = Some (rID p) ->
  parent_ok (map (open_gap (rRgt p)) f ++ [new]).
Proof.
  intros [Ho Hl Hw] Hnd Hp Hpar HnewL HnewR HnewP.
  set (l := rRgt p) in *.
  assert (K : forall r, In r f -> rLft r <> l /\ rLft r < rRgt r).
  { intros r Hr. split; [| auto]. intros E.
    destruct (Z.eq_dec (rID r) (rID p)) as [Hid | Hid].
    - assert (r = p) by (eapply NoDup_map_inj; eauto). subst r.
      pose proof (Ho p Hp). lia.
    - pose proof (Ho r Hr) as Hor. pose proof (Ho p Hp) as Hop.
      destruct (Hl r p Hr Hp Hid) as [[H | H] | [H | H]];
        try apply inside_iff in H; subst l; lia. }
  assert (C : forall r, In r f ->
              rLft (open_gap l r) = (if l <=? rLft r then rLft r + 2 else rLft r)
              /\ rRgt (open_gap l r) = (if l <=? rRgt r then rRgt r + 2 else rRgt r)).
  { intros r Hr. destruct (K r Hr) as [Hne _]. simpl.
    destruct (Z.ltb_spec l (rLft r)), (Z.leb_spec l (rLft r)); split; auto; lia. }
  assert (E : forall x a, In x f -> In a f ->
                          inside (open_gap l x) (open_gap l a) = inside x a).
  { intros x a Hx Ha. apply bool_eq_iff. rewrite !inside_iff.
    destruct (C x Hx) as [-> ->]. destruct (C a Ha) as [-> ->].
    destruct (K x Hx), (K a Ha).
    destruct (Z.leb_spec l (rLft x)), (Z.leb_spec l (rRgt x)),
      (Z.leb_spec l (rLft a)), (Z.leb_spec l (rRgt a)); lia. }
  assert (Eleaf : forall x, In x f -> inside (open_gap l x) new = false).
  { intros x Hx. apply inside_false_iff. destruct (C x Hx) as [-> ->]. destruct (K x Hx).
    destruct (Z.leb_spec l (rLft x)), (Z.leb_spec l (rRgt x)); lia. }
  assert (Enew : forall a, In a f ->
                           inside new (open_gap l a) = (rID a =? rID p) || inside p a).
  { intros a Ha. apply bool_eq_iff.
    rewrite orb_true_iff, Z.eqb_eq, !inside_iff.
    destruct (C a Ha) as [-> ->]. destruct (K a Ha) as [Hne Hoa].
    pose proof (Ho p Hp) as Hop.
    destruct (Z.eq_dec (rID a) (rID p)) as [Hid | Hid].
    - assert (a = p) by (eapply NoDup_map_inj; eauto). subst a.
      destruct (Z.leb_spec l (rLft p)), (Z.leb_spec l (rRgt p)); subst l; lia.
    - destruct (Hl a p Ha Hp Hid) as [[H | H] | [H | H]]; try apply inside_iff in H;
        destruct (Z.leb_spec l (rLft a)), (Z.leb_spec l (rRgt a)); subst l; lia. }
  intros r Hr. apply in_app_or in Hr as [Hr | [<- | []]].
  - apply in_map_iff in Hr as (x & <- & Hx).
    change (rParentID (open_gap l x)) with (rParentID x).
    specialize (Hpar x Hx). destruct (rParentID x) as [q |].
    + destruct Hpar as (px & Hpx & Hid & Hin & Hinner).
      exists (open_gap l px). split; [apply in_or_app; left; apply in_map, Hpx |].
      split; [exact Hid |]. split; [rewrite E by assumption; exact Hin |].
      intros a Ha Hia. apply in_app_or in Ha as [Ha | [<- | []]].
      * apply in_map_iff in Ha as (a0 & <- & Ha0). rewrite E in Hia by assumption.
        destruct (Hinner a0 Ha0 Hia) as [H | H]; [left; exact H | right].
        rewrite E by assumption. exact H.
      * rewrite (Eleaf x Hx) in Hia. discriminate.
    + intros a Ha. apply in_app_or in Ha as [Ha | [<- | []]].
      * apply in_map_iff in Ha as (a0 & <- & Ha0). rewrite E by assumption. auto.
      * apply Eleaf, Hx.
  - rewrite HnewP. exists (open_gap l p).
    split; [apply in_or_app; left; apply in_map, Hp |]. split; [reflexivity |].
    split; [rewrite (Enew p Hp), Z.eqb_refl; reflexivity |].
    intros a Ha Hia. apply in_app_or in Ha as [Ha | [<- | []]].
    + apply in_map_iff in Ha as (a0 & <- & Ha0). rewrite (Enew a0 Ha0) in Hia.
      apply orb_prop in Hia as [H | H]; [left; apply Z.eqb_eq, H | right].
      rewrite E by assumption. exact H.
    + apply inside_iff in Hia. lia.
Qed.

Lemma Parents_snoc t new :
  Parents t ->
  parent_ok (forest (rScope new) t ++ [new]) ->
  Parents (t ++ [new]).
Proof.
  intros Hd Hnew s. rewrite forest_app, forest_single.
  destruct (Z.eqb_spec (rScope new) s) as [<- | Hne]; [exact Hnew |].
  rewrite app_nil_r. apply Hd.
Qed.

Lemma link_Create_rows tx db l pid sc t :
  selects tx sc t ->
  map link (Create_rows tx db l pid t) =
  map link (map (fun r => if rScope r =? sc then open_gap l r else r) t).
Proof.
  intros Hsel. rewrite map_map. apply Forall2_map_eq.
  apply Forall2_In_l with (P := fun r => in_scope tx r = (rScope r =? sc)); [| exact Hsel].
  eapply Forall2_weaken; [| apply Create_rows_spec].
  intros r r' (H1 & H2 & _ & H4 & H5 & H6 & H7) Hs.
  rewrite Hs in H1, H2. unfold link, geom. rewrite H1, H2, H4, H5, H6, H7.
  destruct (rScope r =? sc); simpl; reflexivity.
Qed.

(** X17.  [Create] keeps the parent ids right, provided the caller has set
    the parent id of the record: in a table that satisfies the invariants
    and in which every parent id names the innermost row containing its row,
    after a new root is created from a record without a parent id, or a new
    child from a record whose parent id is the id of the parent, the parent
    being passed as a record that agrees with the stored row, every parent
    id, the new one included, names the innermost row containing its row. *)
Theorem Create_keeps_parents db src parent tx target s :
  parseNode db src = Ok (tx, target) ->
  names_ok target = true ->
  selects tx (rScope (row_of_source src)) (rows s) ->
  bounded (rows s) ->
  Invariants (rows s) ->
  Parents (rows s) ->
  match parent with
  | None => rParentID (row_of_source src) = None
  | Some par =>
      exists tx' targetParent p,
        parseNode db par = Ok (tx', targetParent)
        /\ In p (rows s) /\ agrees targetParent p
        /\ rScope p = rScope (row_of_source src)
        /\ rParentID (row_of_source src) = Some (rID p)
  end ->
  Parents (rows (snd (Create db src parent s))).
Proof.
  intros Hp Hn Hsel Hb Hinv Hd Hpar.
  set (sc := rScope (row_of_source src)) in *.
  assert (Hnewpar : forall t l r d,
             rParentID (new_row t (set_fields l r d src)) = rParentID (row_of_source src)).
  { intros t l r d. unfold new_row, row_of_source, set_fields. simpl fields.
    destruct (row_of_set_fields_other l r d (fields src)) as (_ & _ & E3 & _).
    destruct (_ =? 0); simpl; exact E3. }
  destruct parent as [par |].
  - destruct Hpar as (tx' & targetParent & p & Hpp & Hin & (_ & _ & HR) & Hsp & Hsrc).
    pose proof (Create_child_run db src par tx target tx' targetParent s Hp Hn Hpp) as Hrun.
    unfold inserted in Hrun.
    destruct (existsb _ _) eqn:E; destruct Hrun as [_ ->]; [exact Hd |].
    match goal with
    | |- Parents (_ ++ [?x]) => set (new := x) in *
    end.
    destruct (new_row_coords db src tx target
                (Create_rows tx db (Rgt targetParent) (ID targetParent) (rows s))
                (Rgt targetParent) (iadd (Rgt targetParent) 1) (iadd (Depth targetParent) 1)
                Hp Hn) as (HnL & HnR & _).
    fold new in HnL, HnR. rewrite HR in HnL, HnR.
    assert (HnP : rParentID new = Some (rID p)) by (unfold new; rewrite Hnewpar; exact Hsrc).
    destruct (Hb p Hin) as [_ Hsp2].
    assert (E1 : iadd (rRgt p) 1 = rRgt p + 1) by (unwrap; reflexivity).
    rewrite E1 in HnR.
    assert (Hnsc : rScope new = sc) by apply new_row_scope.
    set (G := fun r => if rScope r =? sc then open_gap (rRgt p) r else r).
    apply (Parents_link (map G (rows s) ++ [new])).
    { rewrite !map_app. f_equal. symmetry. rewrite HR. apply link_Create_rows, Hsel. }
    destruct Hinv as [Hnd Hf].
    intros s0. rewrite forest_app, forest_single, Hnsc.
    rewrite forest_map by (intros r; unfold G; destruct (rScope r =? sc); reflexivity).
    destruct (Z.eqb_spec sc s0) as [<- | Hne].
    + replace (map G (forest sc (rows s))) with (map (open_gap (rRgt p)) (forest sc (rows s))).
      * apply parent_ok_new_child; try assumption.
        -- apply Hf.
        -- apply NoDup_forest, Hnd.
        -- apply In_forest. auto.
        -- apply Hd.
      * apply map_ext_in. intros r Hr. apply In_forest in Hr as [_ Hr].
        unfold G. rewrite Hr, Z.eqb_refl. reflexivity.
    + rewrite app_nil_r.
      replace (map G (forest s0 (rows s))) with (forest s0 (rows s)); [apply Hd |].
      rewrite <- (map_id (forest s0 (rows s))) at 1.
      apply map_ext_in. intros r Hr. apply In_forest in Hr as [_ Hr].
      unfold G. destruct (Z.eqb_spec (rScope r) sc); [congruence | reflexivity].
  - pose proof (Create_root_run db src tx target s Hp Hn) as Hrun. unfold inserted in Hrun.
    destruct (existsb _ (rows s)) eqn:E; destruct Hrun as [_ ->]; [exact Hd |].
    destruct (new_row_coords db src tx target (rows s)
                (fst (root_bounds tx (rows s))) (snd (root_bounds tx (rows s))) 0 Hp Hn)
      as (HL & HR & _).
    match type of HL with
    | rLft ?x = _ => set (new := x) in *
    end.
    assert (HnP : rParentID new = None) by (unfold new; rewrite Hnewpar; exact Hpar).
    apply Parents_snoc; [exact Hd |].
    assert (Hnsc : rScope new = sc) by apply new_row_scope. rewrite Hnsc.
    destruct Hinv as [_ Hf]. specialize (Hf sc). specialize (Hd sc).
    unfold root_bounds in HL, HR. rewrite (select_all_forest tx sc _ Hsel) in HL, HR.
    pose proof (bounded_forest sc _ Hb) as Hbf.
    destruct Hf as [Ho _ _].
    destruct (forest sc (rows s)) as [| r rest] eqn:Ef.
    + simpl in HL, HR. apply parent_ok_new_root; [exact Hd | intros r [] | lia | exact HnP].
    + cbv zeta in HL, HR. simpl fst in HL. simpl snd in HR.
      destruct (last_rgt_max r rest) as [(x & Hx & Hmx) Hmax].
      destruct (Hbf x Hx) as [_ Hsx]. rewrite <- Hmx in *.
      assert (E1 : iadd (rRgt x) 1 = rRgt x + 1) by (unwrap; reflexivity).
      rewrite E1 in HL, HR.
      assert (E2 : iadd (rRgt x + 1) 1 = rRgt x + 2) by (unwrap; lia).
      rewrite E2 in HR.
      apply parent_ok_new_root; [exact Hd | | lia | exact HnP].
      intros y Hy. specialize (Hmax y Hy). specialize (Ho y Hy). lia.
Qed.

Lemma Create_keeps_parents_witness :
  Parents (rows (snd (Create plain (record 4 (Some 3) 0 0 0 0 7)
                        (Some (record_of_row (mk 3 (Some 1) 1 4 5 0 7)))
                        (fresh_store tableA)))).
Proof.
  apply (Create_keeps_parents plain (record 4 (Some 3) 0 0 0 0 7)
           (Some (record_of_row (mk 3 (Some 1) 1 4 5 0 7)))
           (Where_scope 7 plain) (item_of_row (mk 4 (Some 3) 0 0 0 0 7))
           (fresh_store tableA)).
  - reflexivity.
  - by_compute.
  - each_row.
  - each_row; by_compute.
  - exact Invariants_tableA.
  - exact Parents_tableA.
  - exists (Where_scope 7 plain), (item_of_row (mk 3 (Some 1) 1 4 5 0 7)),
      (mk 3 (Some 1) 1 4 5 0 7).
    split; [reflexivity |]. split; [simpl; auto |].
    split; [by_compute |]. split; reflexivity.
Defined.

(** * Counts of children *)

Lemma Forall2_In_both {A B} (R : A -> B -> Prop) l l' :
  Forall2 R l l' -> Forall2 (fun a b => In a l /\ In b l' /\ R a b) l l'.
Proof.
  intros H. induction H as [| x y l l' Hxy _ IH]; constructor.
  - simpl. auto.
  - eapply Forall2_weaken; [| exact IH]. simpl. intros a b (Ha & Hb & Hab). auto.
Qed.

Lemma count_Forall2 p l l' :
  Forall2 (fun x x' => p x' = p x) l l' -> count p l' = count p l.
Proof.
  intros H. unfold count. f_equal.
  induction H as [| x y l l' Hxy _ IH]; simpl; [reflexivity |].
  rewrite Hxy. destruct (p x); simpl; congruence.
Qed.

Lemma In_synced q old new :
  In q (synced old new) <->
  (Valid old = true /\ q = Int64 old) \/ (Valid new = true /\ q = Int64 new).
Proof.
  unfold synced. rewrite in_app_iff.
  destruct (Valid old), (Valid new); simpl; intuition congruence.
Qed.

Lemma child_of_null q p :
  ~ In q (synced p p) ->
  match null_value p with Some x => x =? q | None => false end = false.
Proof.
  intros H. unfold null_value. destruct (Valid p) eqn:E; [| reflexivity].
  apply Z.eqb_neq. intros Hx. apply H, In_synced. auto.
Qed.

Lemma parent_is_child_of p r : Valid p = true -> parent_is p r = child_of (Int64 p) r.
Proof. intros H. unfold parent_is, child_of. rewrite H. reflexivity. Qed.

Lemma relocate_rows_in_place tx n pos dc np t :
  iadd (isub pos (Lft n)) 1 = 0 -> relocate_rows tx n pos dc np t = t.
Proof. intros H. unfold relocate_rows. rewrite H. reflexivity. Qed.

(** The rows that point at [q] are the same after a relocation, unless the
    count of children of [q] is written by it. *)
Lemma relocate_rows_children tx n pos dc np t :
  names_ok n = true ->
  (forall r, In r t -> in_scope tx r = true) ->
  (forall r, In r t -> rID r = ID n -> rParentID r = null_value (ParentID n)) ->
  forall q, ~ In q (synced (ParentID n) np) ->
            count (child_of q) (relocate_rows tx n pos dc np t) = count (child_of q) t.
Proof.
  intros Hn Hall Hrec q Hq.
  destruct (Z.eq_dec (iadd (isub pos (Lft n)) 1) 0) as [Hz | Hnz];
    [rewrite relocate_rows_in_place by exact Hz; reflexivity |].
  destruct (relocate_rows_links tx n pos dc np t Hnz) as [Hnode _].
  pose proof (keeps_moveToRightOfPosition tx (synced (ParentID n) np) n pos dc np
                ltac:(intros; apply In_synced; auto) ltac:(intros; apply In_synced; auto)
                {| rows := t; trace := [] |}) as K.
  destruct (moveToRightOfPosition_run tx n pos dc np {| rows := t; trace := [] |} Hn)
    as [tr Hrun].
  rewrite Hrun in K. simpl in K.
  apply count_Forall2.
  eapply Forall2_weaken; [| apply Forall2_In_both, K].
  intros x x' (Hx & Hx' & Hid & Hsc & _ & Hpar & _). unfold child_of.
  destruct (Z.eq_dec (rID x) (ID n)) as [E | E]; [| rewrite (Hpar E); reflexivity].
  rewrite (Hrec x Hx E).
  rewrite (Hnode x' Hx'); [| | congruence].
  - rewrite !child_of_null; [reflexivity | |]; intros Hin; apply Hq;
      apply In_synced in Hin; apply In_synced; tauto.
  - rewrite (in_scope_ext tx x' x Hsc). apply Hall, Hx.
Qed.

(** X18.  [MoveTo] keeps the counts of children right whatever the
    coordinates and the reference, provided the record of the node carries the
    parent id stored for it: through a handle that selects every row, if the
    children count of every row is the number of rows whose parent id is its
    primary key before the call, it is so after the call. *)
Theorem MoveTo_keeps_counts db node to direction tx targetNode tx' toNode s :
  parseNode db node = Ok (tx, targetNode) ->
  names_ok targetNode = true ->
  parseNode db to = Ok (tx', toNode) ->
  (forall r, In r (rows s) -> in_scope db r = true) ->
  (forall r, In r (rows s) -> rID r = ID targetNode ->
             rParentID r = null_value (ParentID targetNode)) ->
  counts_ok (rows s) ->
  counts_ok (rows (snd (MoveTo db node to direction s))).
Proof.
  intros Hp Hn Hpt Hall Hrec Hc.
  destruct (MoveTo_positions db node to direction tx targetNode tx' toNode Hp Hpt)
    as (pos & dc & np & E & _).
  rewrite E.
  pose proof (keeps_moveToRightOfPosition db (synced (ParentID targetNode) np) targetNode
                pos dc np ltac:(intros; apply In_synced; auto)
                ltac:(intros; apply In_synced; auto) s) as K.
  destruct (moveToRightOfPosition_run db targetNode pos dc np s Hn) as [tr Hrun].
  rewrite Hrun in *. cbn [snd rows] in *.
  pose proof (relocate_rows_children db targetNode pos dc np (rows s) Hn Hall Hrec) as Hkeep.
  set (t' := relocate_rows db targetNode pos dc np (rows s)) in *.
  intros r' Hr'.
  destruct (Forall2_In_r _ _ _ r' K Hr') as (r & Hr & Hid & Hsc & _ & _ & Hcount).
  destruct (in_dec Z.eq_dec (rID r) (synced (ParentID targetNode) np)) as [Hin | Hout].
  - destruct (Z.eq_dec (iadd (isub pos (Lft targetNode)) 1) 0) as [Hz | Hnz].
    { subst t'. rewrite relocate_rows_in_place in * by exact Hz. apply Hc, Hr'. }
    destruct (relocate_rows_links db targetNode pos dc np (rows s) Hnz) as [_ Hsync].
    fold t' in Hsync.
    assert (Hsel : in_scope db r' = true)
      by (rewrite (in_scope_ext db r' r Hsc); apply Hall, Hr).
    assert (Hcnt : forall p, Valid p = true ->
                             Z.of_nat (length (select_rows db (parent_is p) t'))
                             = count (child_of (Int64 p)) t').
    { intros p Hv. unfold select_rows, count. do 2 f_equal.
      apply List.filter_ext_in. intros c Hc'.
      destruct (Forall2_In_r _ _ _ c K Hc') as (c0 & Hc0 & _ & Hsc0 & _).
      rewrite (in_scope_ext db c c0 Hsc0), (Hall c0 Hc0). simpl.
      apply parent_is_child_of, Hv. }
    apply In_synced in Hin as [[Hv Hq] | [Hv Hq]].
    + rewrite (Hsync (ParentID targetNode) r' (or_introl eq_refl) Hv Hr' Hsel)
        by congruence.
      rewrite (Hcnt _ Hv). f_equal. congruence.
    + rewrite (Hsync np r' (or_intror eq_refl) Hv Hr' Hsel) by congruence.
      rewrite (Hcnt _ Hv). f_equal. congruence.
  - rewrite (Hcount Hout), Hid, (Hkeep (rID r) Hout). apply Hc, Hr.
Qed.

Lemma counts_ok_tableA : counts_ok tableA.
Proof. each_row; reflexivity. Qed.

Lemma MoveTo_keeps_counts_witness :
  counts_ok (rows (snd (MoveTo plain (record_of_row (mk 3 (Some 1) 1 4 5 0 7))
                          (record_of_row (mk 2 (Some 1) 1 2 3 0 7)) MoveDirectionInner
                          (fresh_store tableA)))).
Proof.
  apply (MoveTo_keeps_counts plain (record_of_row (mk 3 (Some 1) 1 4 5 0 7))
           (record_of_row (mk 2 (Some 1) 1 2 3 0 7)) MoveDirectionInner
           (Where_scope 7 plain) (item_of_row (mk 3 (Some 1) 1 4 5 0 7))
           (Where_scope 7 plain) (item_of_row (mk 2 (Some 1) 1 2 3 0 7))
           (fresh_store tableA)).
  - reflexivity.
  - by_compute.
  - reflexivity.
  - each_row; reflexivity.
  - each_row; by_compute.
  - exact counts_ok_tableA.
Defined.

(** The condition on the record of the node is needed: with the parent id
    of the record unset, the old parent keeps a count of two for one child. *)
Lemma MoveTo_without_parent_breaks_counts :
  counts_ok tableA
  /\ ~ counts_ok (rows (snd (MoveTo plain node_without_parent
                               (record_of_row (mk 2 (Some 1) 1 2 3 0 7)) MoveDirectionInner
                               (fresh_store tableA)))).
Proof.
  split; [exact counts_ok_tableA |].
  intros H. specialize (H (mk 1 None 0 1 6 2 7)).
  vm_compute in H. discriminate H. auto.
Qed.

(** ** Counts of children after [Create] *)





(** * No gap between the bounds *)

Lemma In_bounds f e :
  In e (bounds f) <-> exists r, In r f /\ (e = rLft r \/ e = rRgt r).
Proof.
  unfold bounds. rewrite in_flat_map. split; intros (r & Hr & H); exists r; split; auto;
    simpl in *; intuition auto.
Qed.

Lemma bounds_geom l l' : map geom l = map geom l' -> bounds l = bounds l'.
Proof.
  revert l'. induction l as [| x l IH]; intros [| x' l'] H; try discriminate;
    [reflexivity |].
  cbn [map] in H. apply cons_eq_inv in H as [Hx Hl]. unfold bounds. cbn [flat_map].
  fold (bounds l). fold (bounds l'). rewrite (IH l' Hl).
  unfold geom in Hx. injection Hx as _ _ -> -> _. reflexivity.
Qed.

Lemma compact_geom f f' : map geom f = map geom f' -> compact f -> compact f'.
Proof.
  intros H Hc e. rewrite <- (bounds_geom f f' H).
  replace (length f') with (length f); [apply Hc |].
  rewrite <- (length_map geom f), H. apply length_map.
Qed.

Lemma Compact_geom t t' : map geom t = map geom t' -> Compact t -> Compact t'.
Proof.
  intros H Hc s. eapply compact_geom; [apply forest_geom, H | apply Hc].
Qed.

Lemma compact_nil : compact [].
Proof. intros e. simpl. lia. Qed.

Lemma compact_In f r : compact f -> In r f ->
  1 <= rLft r <= 2 * Z.of_nat (length f) /\ 1 <= rRgt r <= 2 * Z.of_nat (length f).
Proof.
  intros Hc Hr. split; apply Hc, In_bounds; exists r; auto.
Qed.

(** The two blocks that a relocation swaps lie between 1 and [2N], and
    the swap is onto. *)
Lemma swap_blocks_onto n pos lo hi astep step N e :
  rLft n < rRgt n ->
  swaps n pos lo hi astep step ->
  1 <= rLft n -> rRgt n <= N -> 0 <= pos <= N ->
  (exists e0, 1 <= e0 <= N /\ swap_blocks (rLft n) (rRgt n) lo hi astep step e0 = e)
  <-> 1 <= e <= N.
Proof.
  intros Hon Hdir H1 H2 Hpos. unfold swap_blocks. split.
  - intros (e0 & He0 & <-).
    destruct Hdir as [(Hd & -> & -> & -> & ->) | (Hd & -> & -> & -> & ->)];
      destruct (Z.leb_spec (rLft n) e0), (Z.leb_spec e0 (rRgt n)); simpl; try lia;
      match goal with
      | |- context [(?a <=? e0) && (e0 <=? ?b)] =>
          destruct (Z.leb_spec a e0), (Z.leb_spec e0 b); simpl; lia
      end.
  - intros He.
    destruct Hdir as [(Hd & -> & -> & -> & ->) | (Hd & -> & -> & -> & ->)].
    + destruct (Z_lt_le_dec e (pos + 1)) as [Ha | Ha];
        [| destruct (Z_le_gt_dec e (pos + (rRgt n - rLft n + 1))) as [Hb | Hb];
           [| destruct (Z_le_gt_dec e (rRgt n)) as [Hc | Hc]]].
      * exists e. split; [lia |].
        destruct (Z.leb_spec (rLft n) e), (Z.leb_spec e (rRgt n)),
          (Z.leb_spec (pos + 1) e), (Z.leb_spec e (rLft n - 1)); simpl; lia.
      * exists (e - (pos + 1 - rLft n)). split; [lia |].
        destruct (Z.leb_spec (rLft n) (e - (pos + 1 - rLft n))),
          (Z.leb_spec (e - (pos + 1 - rLft n)) (rRgt n)); simpl; lia.
      * exists (e - (rRgt n - rLft n + 1)). split; [lia |].
        destruct (Z.leb_spec (rLft n) (e - (rRgt n - rLft n + 1))),
          (Z.leb_spec (e - (rRgt n - rLft n + 1)) (rRgt n)),
          (Z.leb_spec (pos + 1) (e - (rRgt n - rLft n + 1))),
          (Z.leb_spec (e - (rRgt n - rLft n + 1)) (rLft n - 1)); simpl; lia.
      * exists e. split; [lia |].
        destruct (Z.leb_spec (rLft n) e), (Z.leb_spec e (rRgt n)),
          (Z.leb_spec (pos + 1) e), (Z.leb_spec e (rLft n - 1)); simpl; lia.
    + destruct (Z_lt_le_dec e (rLft n)) as [Ha | Ha];
        [| destruct (Z_le_gt_dec e (pos - (rRgt n - rLft n + 1))) as [Hb | Hb];
           [| destruct (Z_le_gt_dec e pos) as [Hc | Hc]]].
      * exists e. split; [lia |].
        destruct (Z.leb_spec (rLft n) e), (Z.leb_spec e (rRgt n)),
          (Z.leb_spec (rRgt n + 1) e), (Z.leb_spec e pos); simpl; lia.
      * exists (e + (rRgt n - rLft n + 1)). split; [lia |].
        destruct (Z.leb_spec (rLft n) (e + (rRgt n - rLft n + 1))),
          (Z.leb_spec (e + (rRgt n - rLft n + 1)) (rRgt n)),
          (Z.leb_spec (rRgt n + 1) (e + (rRgt n - rLft n + 1))),
          (Z.leb_spec (e + (rRgt n - rLft n + 1)) pos); simpl; lia.
      * exists (e - (pos - rRgt n)). split; [lia |].
        destruct (Z.leb_spec (rLft n) (e - (pos - rRgt n))),
          (Z.leb_spec (e - (pos - rRgt n)) (rRgt n)); simpl; lia.
      * exists e. split; [lia |].
        destruct (Z.leb_spec (rLft n) e), (Z.leb_spec e (rRgt n)),
          (Z.leb_spec (rRgt n + 1) e), (Z.leb_spec e pos); simpl; lia.
Qed.

Lemma position_between direction m N :
  1 <= rLft m -> rLft m < rRgt m -> rRgt m <= N ->
  0 <= position_of direction m <= N.
Proof.
  intros H1 H2 H3. unfold position_of.
  destruct (direction =? MoveDirectionLeft); [lia |].
  destruct (direction =? MoveDirectionRight); lia.
Qed.

Lemma compact_relocated tx f n m direction lo hi astep step dc :
  nested_set f -> List.NoDup (map rID f) -> In n f ->
  (forall r, In r f -> in_scope tx r = true) ->
  In m f ->
  swaps n (position_of direction m) lo hi astep step ->
  compact f ->
  compact (map (Relocator_row tx (rLft n) (rRgt n) lo hi astep step dc) f).
Proof.
  intros Hns Hnd Hn Hsc Hm Hdir Hc e.
  pose proof (reloc_coords tx f n lo hi astep step dc Hns Hnd Hn Hsc) as Hco.
  pose proof Hns as [Ho _ _].
  destruct (compact_In f n Hc Hn) as [HnL HnR].
  destruct (compact_In f m Hc Hm) as [HmL HmR].
  pose proof (position_between direction m (2 * Z.of_nat (length f))
                ltac:(lia) (Ho m Hm) ltac:(lia)) as Hpos.
  rewrite length_map.
  rewrite <- (swap_blocks_onto n (position_of direction m) lo hi astep step
                (2 * Z.of_nat (length f)) e (Ho n Hn) Hdir) by lia.
  rewrite In_bounds. split.
  - intros (r' & Hr' & He). apply in_map_iff in Hr' as (r & <- & Hr).
    destruct (Hco r Hr) as (EL & ER & _). rewrite EL, ER in He.
    destruct (compact_In f r Hc Hr) as [HrL HrR].
    destruct He as [-> | ->]; eauto.
  - intros (e0 & He0 & <-). apply Hc, In_bounds in He0 as (r & Hr & He0).
    exists (Relocator_row tx (rLft n) (rRgt n) lo hi astep step dc r).
    split; [apply in_map, Hr |].
    destruct (Hco r Hr) as (EL & ER & _). rewrite EL, ER.
    destruct He0 as [-> | ->]; auto.
Qed.

(** X20.  With records read back from a table of one forest that satisfies
    the invariants, and a reference outside the subtree of the node, a table
    in which the bounds of the rows of each scope are the numbers from 1 to
    twice their number is still such a table after [MoveTo]: a move leaves
    no gap. *)
Theorem MoveTo_keeps_compact db direction n m s :
  fresh_move db (rows s) n m ->
  Compact (rows s) ->
  Compact (rows (snd (MoveTo db (record_of_row n) (record_of_row m) direction s))).
Proof.
  intros Hfresh Hc.
  pose proof Hfresh as [Hinv Hn Hm Hone Hw Hb Hdn Hdm Hin Him].
  pose proof Hinv as [Hnd _].
  pose proof (fresh_nested db n m s Hfresh) as Hns.
  pose proof (fresh_in_scope db n m s Hfresh) as Hsc.
  destruct (MoveTo_relocation db direction n m s Hfresh) as [_ Hcases].
  destruct Hcases as [[Hz E] | (lo & hi & astep & step & Hdir & HF)]; [rewrite E; exact Hc |].
  set (F := Relocator_row db (rLft n) (rRgt n) lo hi astep step
              (depth_of direction m - rDepth n)) in *.
  apply (Compact_geom (map F (rows s))).
  { symmetry. rewrite map_map. apply Forall2_map_eq.
    eapply Forall2_weaken; [| exact HF]. intros r r' (G & _). exact G. }
  intros sc. rewrite forest_map by (intros; apply scope_Relocator_row).
  destruct (Z.eq_dec sc (rScope n)) as [-> | Hne].
  - rewrite (forest_all (rScope n)) by (intros r Hr; apply Hone, Hr).
    apply compact_relocated with (direction := direction) (m := m); try assumption.
    specialize (Hc (rScope n)).
    rewrite (forest_all (rScope n)) in Hc by (intros r Hr; apply Hone, Hr). exact Hc.
  - rewrite (forest_none (rScope n)); [apply compact_nil | | exact Hne].
    intros r Hr. apply Hone, Hr.
Qed.

Lemma Compact_tableA : Compact (rows (fresh_store tableA)).
Proof.
  intros s. simpl rows. unfold tableA. rewrite !forest_cons. simpl rScope.
  destruct (7 =? s); [| apply compact_nil].
  intros e. simpl. lia.
Qed.

Lemma MoveTo_keeps_compact_witness :
  Compact (rows (snd (MoveTo plain (record_of_row (mk 3 (Some 1) 1 4 5 0 7))
                        (record_of_row (mk 2 (Some 1) 1 2 3 0 7)) MoveDirectionLeft
                        (fresh_store tableA)))).
Proof.
  apply (MoveTo_keeps_compact plain MoveDirectionLeft (mk 3 (Some 1) 1 4 5 0 7)
           (mk 2 (Some 1) 1 2 3 0 7) (fresh_store tableA)).
  - exact fresh_move_tableA.
  - exact Compact_tableA.
Defined.

(** ** No gap after [Create] *)

Lemma bounds_app f f' : bounds (f ++ f') = bounds f ++ bounds f'.
Proof. unfold bounds. apply flat_map_app. Qed.

Lemma compact_new_root f new :
  compact f ->
  rLft new = 2 * Z.of_nat (length f) + 1 ->
  rRgt new = 2 * Z.of_nat (length f) + 2 ->
  compact (f ++ [new]).
Proof.
  intros Hc HL HR e. rewrite bounds_app, in_app_iff, (Hc e), length_app.
  simpl. rewrite HL, HR. lia.
Qed.

(** In a forest without gap the greatest right bound is the last position. *)
Lemma compact_last r rest :
  (forall x, In x (r :: rest) -> rLft x < rRgt x) ->
  compact (r :: rest) ->
  fold_left Z.max (map rRgt rest) (rRgt r) = 2 * Z.of_nat (length (r :: rest)).
Proof.
  intros Ho Hc.
  destruct (last_rgt_max r rest) as [(x & Hx & Hmx) Hmax].
  set (N := 2 * Z.of_nat (length (r :: rest))) in *.
  destruct (compact_In _ x Hc Hx) as [_ HxR].
  assert (HN : In N (bounds (r :: rest))) by (apply Hc; subst N; simpl length; lia).
  apply In_bounds in HN as (y & Hy & HyN).
  pose proof (Hmax y Hy) as Hy1. pose proof (Ho y Hy) as Hy2.
  fold N in HxR. rewrite <- Hmx in *. destruct HyN as [E | E]; lia.
Qed.

Lemma compact_new_child f p new :
  nested_set f ->
  List.NoDup (map rID f) ->
  In p f ->
  compact f ->
  rLft new = rRgt p -> rRgt new = rRgt p + 1 ->
  compact (map (open_gap (rRgt p)) f ++ [new]).
Proof.
  intros [Ho Hl Hw] Hnd Hp Hc HnewL HnewR.
  set (l := rRgt p) in *.
  assert (K : forall r, In r f -> rLft r <> l).
  { intros r Hr E.
    destruct (Z.eq_dec (rID r) (rID p)) as [Hid | Hid].
    - assert (r = p) by (eapply NoDup_map_inj; eauto). subst r.
      pose proof (Ho p Hp). lia.
    - pose proof (Ho r Hr) as Hor. pose proof (Ho p Hp) as Hop.
      destruct (Hl r p Hr Hp Hid) as [[H | H] | [H | H]];
        try apply inside_iff in H; subst l; lia. }
  assert (C : forall r, In r f ->
              rLft (open_gap l r) = (if l <=? rLft r then rLft r + 2 else rLft r)
              /\ rRgt (open_gap l r) = (if l <=? rRgt r then rRgt r + 2 else rRgt r)).
  { intros r Hr. pose proof (K r Hr) as Hne. simpl.
    destruct (Z.ltb_spec l (rLft r)), (Z.leb_spec l (rLft r)); split; auto; lia. }
  destruct (compact_In f p Hc Hp) as [_ HpR]. fold l in HpR.
  intros e. rewrite bounds_app, in_app_iff, length_app, length_map.
  simpl. rewrite HnewL, HnewR, In_bounds. split.
  - intros [(r' & Hr' & He) | He]; [| lia].
    apply in_map_iff in Hr' as (r & <- & Hr).
    destruct (C r Hr) as [CL CR]. rewrite CL, CR in He.
    destruct (compact_In f r Hc Hr) as [HrL HrR]. pose proof (K r Hr) as Hne.
    destruct (Z.leb_spec l (rLft r)), (Z.leb_spec l (rRgt r)); lia.
  - intros He.
    destruct (Z_lt_le_dec e l) as [Ha | Ha];
      [| destruct (Z_le_gt_dec e (l + 1)) as [Hb | Hb]; [right; lia |]].
    + left. assert (Hin : In e (bounds f)) by (apply Hc; lia).
      apply In_bounds in Hin as (r & Hr & Hin). exists (open_gap l r).
      split; [apply in_map, Hr |]. destruct (C r Hr) as [-> ->].
      destruct (Z.leb_spec l (rLft r)), (Z.leb_spec l (rRgt r)); lia.
    + left. assert (Hin : In (e - 2) (bounds f)) by (apply Hc; lia).
      apply In_bounds in Hin as (r & Hr & Hin). exists (open_gap l r).
      split; [apply in_map, Hr |]. destruct (C r Hr) as [-> ->].
      destruct (Z.leb_spec l (rLft r)), (Z.leb_spec l (rRgt r)); lia.
Qed.

Lemma Compact_snoc t new :
  Compact t ->
  compact (forest (rScope new) t ++ [new]) ->
  Compact (t ++ [new]).
Proof.
  intros Hd Hnew s. rewrite forest_app, forest_single.
  destruct (Z.eqb_spec (rScope new) s) as [<- | Hne]; [exact Hnew |].
  rewrite app_nil_r. apply Hd.
Qed.

(** X21.  [Create] leaves no gap: in a table that satisfies the invariants
    and in which the bounds of the rows of each scope are the numbers from 1
    to twice their number, this is so again after a new root is created, or
    a new child under a parent of the scope of the record, passed as a record
    that agrees with the stored row. *)
Theorem Create_keeps_compact db src parent tx target s :
  parseNode db src = Ok (tx, target) ->
  names_ok target = true ->
  selects tx (rScope (row_of_source src)) (rows s) ->
  bounded (rows s) ->
  Invariants (rows s) ->
  Compact (rows s) ->
  match parent with
  | None => True
  | Some par =>
      exists tx' targetParent p,
        parseNode db par = Ok (tx', targetParent)
        /\ In p (rows s) /\ agrees targetParent p
        /\ rScope p = rScope (row_of_source src)
  end ->
  Compact (rows (snd (Create db src parent s))).
Proof.
  intros Hp Hn Hsel Hb Hinv Hd Hpar.
  set (sc := rScope (row_of_source src)) in *.
  destruct parent as [par |].
  - destruct Hpar as (tx' & targetParent & p & Hpp & Hin & (_ & _ & HR) & Hsp).
    pose proof (Create_child_run db src par tx target tx' targetParent s Hp Hn Hpp) as Hrun.
    unfold inserted in Hrun.
    destruct (existsb _ _) eqn:E; destruct Hrun as [_ ->]; [exact Hd |].
    match goal with
    | |- Compact (_ ++ [?x]) => set (new := x) in *
    end.
    destruct (new_row_coords db src tx target
                (Create_rows tx db (Rgt targetParent) (ID targetParent) (rows s))
                (Rgt targetParent) (iadd (Rgt targetParent) 1) (iadd (Depth targetParent) 1)
                Hp Hn) as (HnL & HnR & _).
    fold new in HnL, HnR. rewrite HR in HnL, HnR.
    destruct (Hb p Hin) as [_ Hsp2].
    assert (E1 : iadd (rRgt p) 1 = rRgt p + 1) by (unwrap; reflexivity).
    rewrite E1 in HnR.
    assert (Hnsc : rScope new = sc) by apply new_row_scope.
    set (G := fun r => if rScope r =? sc then open_gap (rRgt p) r else r).
    apply (Compact_geom (map G (rows s) ++ [new])).
    { rewrite !map_app. f_equal. symmetry. rewrite HR. apply geom_Create_rows, Hsel. }
    destruct Hinv as [Hnd Hf].
    intros s0. rewrite forest_app, forest_single, Hnsc.
    rewrite forest_map by (intros r; unfold G; destruct (rScope r =? sc); reflexivity).
    destruct (Z.eqb_spec sc s0) as [<- | Hne].
    + replace (map G (forest sc (rows s))) with (map (open_gap (rRgt p)) (forest sc (rows s))).
      * apply compact_new_child; try assumption.
        -- apply Hf.
        -- apply NoDup_forest, Hnd.
        -- apply In_forest. auto.
        -- apply Hd.
      * apply map_ext_in. intros r Hr. apply In_forest in Hr as [_ Hr].
        unfold G. rewrite Hr, Z.eqb_refl. reflexivity.
    + rewrite app_nil_r.
      replace (map G (forest s0 (rows s))) with (forest s0 (rows s)); [apply Hd |].
      rewrite <- (map_id (forest s0 (rows s))) at 1.
      apply map_ext_in. intros r Hr. apply In_forest in Hr as [_ Hr].
      unfold G. destruct (Z.eqb_spec (rScope r) sc); [congruence | reflexivity].
  - pose proof (Create_root_run db src tx target s Hp Hn) as Hrun. unfold inserted in Hrun.
    destruct (existsb _ (rows s)) eqn:E; destruct Hrun as [_ ->]; [exact Hd |].
    destruct (new_row_coords db src tx target (rows s)
                (fst (root_bounds tx (rows s))) (snd (root_bounds tx (rows s))) 0 Hp Hn)
      as (HL & HR & _).
    match type of HL with
    | rLft ?x = _ => set (new := x) in *
    end.
    apply Compact_snoc; [exact Hd |].
    assert (Hnsc : rScope new = sc) by apply new_row_scope. rewrite Hnsc.
    destruct Hinv as [_ Hf]. specialize (Hf sc). specialize (Hd sc).
    unfold root_bounds in HL, HR. rewrite (select_all_forest tx sc _ Hsel) in HL, HR.
    pose proof (bounded_forest sc _ Hb) as Hbf.
    destruct Hf as [Ho _ _].
    destruct (forest sc (rows s)) as [| r rest] eqn:Ef.
    + simpl in HL, HR. apply compact_new_root; [exact Hd | simpl; lia | simpl; lia].
    + cbv zeta in HL, HR. simpl fst in HL. simpl snd in HR.
      destruct (last_rgt_max r rest) as [(x & Hx & Hmx) _].
      destruct (Hbf x Hx) as [_ Hsx].
      pose proof (compact_last r rest Ho Hd) as Hlast.
      rewrite Hmx in Hsx.
      set (mx := fold_left Z.max (map rRgt rest) (rRgt r)) in *.
      assert (E1 : iadd mx 1 = mx + 1) by (unwrap; reflexivity).
      rewrite E1 in HL, HR.
      assert (E2 : iadd (mx + 1) 1 = mx + 2) by (unwrap; lia).
      rewrite E2 in HR.
      apply compact_new_root; [exact Hd | lia | lia].
Qed.

Lemma Create_keeps_compact_witness :
  Compact (rows (snd (Create plain (record 4 (Some 3) 0 0 0 0 7)
                        (Some (record_of_row (mk 3 (Some 1) 1 4 5 0 7)))
                        (fresh_store tableA)))).
Proof.
  apply (Create_keeps_compact plain (record 4 (Some 3) 0 0 0 0 7)
           (Some (record_of_row (mk 3 (Some 1) 1 4 5 0 7)))
           (Where_scope 7 plain) (item_of_row (mk 4 (Some 3) 0 0 0 0 7))
           (fresh_store tableA)).
  - reflexivity.
  - by_compute.
  - each_row.
  - each_row; by_compute.
  - exact Invariants_tableA.
  - exact Compact_tableA.
  - exists (Where_scope 7 plain), (item_of_row (mk 3 (Some 1) 1 4 5 0 7)),
      (mk 3 (Some 1) 1 4 5 0 7).
    split; [reflexivity |]. split; [simpl; auto |].
    split; [by_compute | reflexivity].
Defined.
